(** * gsm: governed state machines

    A shallow embedding of the verification engine of the [gsm] package
    (var.go, state.go, builder.go, verify.go, machine.go) and the
    properties of its bitpacked state codec, normal-form table, step
    tables and commutativity check.

    Go's [uint64] and [int] values are integers in [Z]; every conversion
    and every operation that can wrap is written with [u64] or [i64].
    Slices are lists indexed through [at_], Go maps are [gmap]s. *)

From Stdlib Require Import ZArith Lia Bool.
From stdpp Require Import gmap strings list fin_maps pretty.

Local Open Scope Z_scope.

(** ** Machine integers *)

(** [uint64(z)]: reduction modulo 2^64. *)
Definition u64 (z : Z) : Z := z mod 2 ^ 64.

(** [int(z)] (64-bit two's complement). *)
Definition i64 (z : Z) : Z := (z + 2 ^ 63) mod 2 ^ 64 - 2 ^ 63.

(** [x << n] on [uint64]. *)
Definition shl64 (x n : Z) : Z := u64 (Z.shiftl x n).

(** [s[i]] on a slice; [None] is Go's index-out-of-range panic. *)
Definition at_ {A} (l : list A) (i : Z) : option A :=
  if decide (0 <= i) then l !! Z.to_nat i else None.

(** ** var.go *)

Inductive VarKind := BoolKind | EnumKind | IntKind.

Record Var := mkVar {
  v_name : string;
  v_kind : VarKind;
  v_index : Z;
  v_offset : Z;
  v_bits : Z;
  v_domain : Z;
  v_labels : list string;
  v_min : Z
}.

(** The loop of [bitsNeeded]: [for n > 0 { b++; n >>= 1 }].  An [int] has
    63 value bits, so 64 rounds always reach [n = 0]. *)
Fixpoint bitsLoop (fuel : nat) (n b : Z) : Z :=
  match fuel with
  | O => b
  | S fuel' => if 0 <? n then bitsLoop fuel' (Z.shiftr n 1) (b + 1) else b
  end.

Definition bitsNeeded (n : Z) : Z :=
  if n <=? 1 then 0 else bitsLoop 64 (i64 (n - 1)) 0.

(** [enumIndex]: position of a label, [None] for the error result. *)
Fixpoint enumIndex_from (i : Z) (ls : list string) (val : string) : option Z :=
  match ls with
  | [] => None
  | l :: ls' => if decide (l = val) then Some i else enumIndex_from (i + 1) ls' val
  end.

Definition enumIndex (v : Var) (val : string) : option Z :=
  enumIndex_from 0 (v_labels v) val.

(** ** state.go *)

Record State := mkStateRec { packed : Z; vars : list Var }.

(** [uint64((1 << v.bits) - 1)] *)
Definition fieldMask (v : Var) : Z := u64 (shl64 1 (v_bits v) - 1).

Definition getRaw (s : State) (v : Var) : Z :=
  Z.land (Z.shiftr (packed s) (v_offset v)) (fieldMask v).

Definition setRaw (s : State) (v : Var) (val : Z) : State :=
  let mask := fieldMask v in
  let cleared := Z.ldiff (packed s) (shl64 mask (v_offset v)) in
  {| packed := Z.lor cleared (shl64 (Z.land val mask) (v_offset v));
     vars := vars s |}.

Definition GetBool (s : State) (v : Var) : bool := negb (getRaw s v =? 0).

Definition GetInt (s : State) (v : Var) : Z := i64 (i64 (getRaw s v) + v_min v).

(** [Set] panics on an unknown label: [None]. *)
Definition Set_ (s : State) (v : Var) (val : string) : option State :=
  match enumIndex v val with
  | Some idx => Some (setRaw s v (u64 idx))
  | None => None
  end.

Definition SetBool (s : State) (v : Var) (val : bool) : State :=
  if val then setRaw s v 1 else setRaw s v 0.

Definition SetInt (s : State) (v : Var) (val : Z) : State :=
  let max := i64 (i64 (v_min v + v_domain v) - 1) in
  let val := if val <? v_min v then v_min v else val in
  let val := if max <? val then max else val in
  setRaw s v (u64 (i64 (val - v_min v))).

Definition ID (s : State) : Z := packed s.

(** ** builder.go: the declaration data *)

Definition CheckFunc := State → bool.
Definition EffectFunc := State → State.

Record invariantDef := mkInvariant {
  inv_name : string;
  inv_footprint : list Z;
  inv_check : CheckFunc;
  inv_repair : EffectFunc
}.

(** [guard] may be nil. *)
Record eventDef := mkEvent {
  ev_name : string;
  ev_writes : list Z;
  ev_guard : option CheckFunc;
  ev_effect : EffectFunc
}.

Record Builder := mkBuilder {
  b_name : string;
  b_vars : list Var;
  invariants : list invariantDef;
  events : list eventDef;
  totalBits : Z;
  independent : list (Z * Z);
  allIndependent : bool
}.

Definition NewBuilder (name : string) : Builder :=
  {| b_name := name; b_vars := []; invariants := []; events := [];
     totalBits := 0; independent := []; allIndependent := true |}.

(** [len(s)] as an [int]. *)
Definition len {A} (l : list A) : Z := Z.of_nat (length l).

Definition addVar (b : Builder) (v : Var) (bits : Z) : Builder :=
  {| b_name := b_name b; b_vars := b_vars b ++ [v];
     invariants := invariants b; events := events b;
     totalBits := u64 (totalBits b + bits);
     independent := independent b; allIndependent := allIndependent b |}.

Definition Bool_ (b : Builder) (name : string) : Builder * Var :=
  let v := {| v_name := name; v_kind := BoolKind; v_index := len (b_vars b);
              v_offset := totalBits b; v_bits := 1; v_domain := 2;
              v_labels := []; v_min := 0 |} in
  (addVar b v 1, v).

(** [Enum] panics with fewer than two labels. *)
Definition Enum (b : Builder) (name : string) (values : list string)
  : option (Builder * Var) :=
  if len values <? 2 then None
  else
    let bits := bitsNeeded (len values) in
    let v := {| v_name := name; v_kind := EnumKind; v_index := len (b_vars b);
                v_offset := totalBits b; v_bits := bits;
                v_domain := len values; v_labels := values; v_min := 0 |} in
    Some (addVar b v bits, v).

(** [Int] panics when [max < min]. *)
Definition Int (b : Builder) (name : string) (min max : Z)
  : option (Builder * Var) :=
  if max <? min then None
  else
    let domain := i64 (i64 (max - min) + 1) in
    let bits := bitsNeeded domain in
    let v := {| v_name := name; v_kind := IntKind; v_index := len (b_vars b);
                v_offset := totalBits b; v_bits := bits; v_domain := domain;
                v_labels := []; v_min := min |} in
    Some (addVar b v bits, v).

(** An invariant under construction: [check] and [repair] start nil. *)
Record InvariantBuilder := mkInvariantBuilder {
  ib_b : Builder;
  ib_name : string;
  ib_footprint : list Z;
  ib_check : option CheckFunc;
  ib_repair : option EffectFunc
}.

Definition Invariant (b : Builder) (name : string) : InvariantBuilder :=
  {| ib_b := b; ib_name := name; ib_footprint := [];
     ib_check := None; ib_repair := None |}.

Definition Over (ib : InvariantBuilder) (vs : list Var) : InvariantBuilder :=
  {| ib_b := ib_b ib; ib_name := ib_name ib;
     ib_footprint := ib_footprint ib ++ map v_index vs;
     ib_check := ib_check ib; ib_repair := ib_repair ib |}.

Definition Check_ (ib : InvariantBuilder) (fn : CheckFunc) : InvariantBuilder :=
  {| ib_b := ib_b ib; ib_name := ib_name ib; ib_footprint := ib_footprint ib;
     ib_check := Some fn; ib_repair := ib_repair ib |}.

Definition Repair (ib : InvariantBuilder) (fn : EffectFunc) : InvariantBuilder :=
  {| ib_b := ib_b ib; ib_name := ib_name ib; ib_footprint := ib_footprint ib;
     ib_check := ib_check ib; ib_repair := Some fn |}.

Definition withInvariants (b : Builder) (invs : list invariantDef) : Builder :=
  {| b_name := b_name b; b_vars := b_vars b; invariants := invs;
     events := events b; totalBits := totalBits b;
     independent := independent b; allIndependent := allIndependent b |}.

(** [InvariantBuilder.Add]: panics ([None]) when [check] or [repair] is nil,
    and otherwise appends the definition. *)
Definition InvariantBuilder_Add (ib : InvariantBuilder) : option Builder :=
  match ib_check ib, ib_repair ib with
  | Some c, Some r =>
      Some (withInvariants (ib_b ib)
              (invariants (ib_b ib) ++
               [{| inv_name := ib_name ib; inv_footprint := ib_footprint ib;
                   inv_check := c; inv_repair := r |}]))
  | _, _ => None
  end.

(** An event under construction: [effect] starts nil. *)
Record EventBuilder := mkEventBuilder {
  eb_b : Builder;
  eb_name : string;
  eb_writes : list Z;
  eb_guard : option CheckFunc;
  eb_effect : option EffectFunc
}.

Definition Event (b : Builder) (name : string) : EventBuilder :=
  {| eb_b := b; eb_name := name; eb_writes := [];
     eb_guard := None; eb_effect := None |}.

Definition Writes (eb : EventBuilder) (vs : list Var) : EventBuilder :=
  {| eb_b := eb_b eb; eb_name := eb_name eb;
     eb_writes := eb_writes eb ++ map v_index vs;
     eb_guard := eb_guard eb; eb_effect := eb_effect eb |}.

Definition Guard (eb : EventBuilder) (fn : CheckFunc) : EventBuilder :=
  {| eb_b := eb_b eb; eb_name := eb_name eb; eb_writes := eb_writes eb;
     eb_guard := Some fn; eb_effect := eb_effect eb |}.

Definition Apply_ (eb : EventBuilder) (fn : EffectFunc) : EventBuilder :=
  {| eb_b := eb_b eb; eb_name := eb_name eb; eb_writes := eb_writes eb;
     eb_guard := eb_guard eb; eb_effect := Some fn |}.

Definition withEvents (b : Builder) (evs : list eventDef) : Builder :=
  {| b_name := b_name b; b_vars := b_vars b; invariants := invariants b;
     events := evs; totalBits := totalBits b;
     independent := independent b; allIndependent := allIndependent b |}.

Definition EventBuilder_Add (eb : EventBuilder) : option Builder :=
  match eb_effect eb with
  | Some f =>
      Some (withEvents (eb_b eb)
              (events (eb_b eb) ++
               [{| ev_name := eb_name eb; ev_writes := eb_writes eb;
                   ev_guard := eb_guard eb; ev_effect := f |}]))
  | None => None
  end.

(** [eventIndex] panics ([None]) on an unknown name. *)
Fixpoint eventIndex_from (i : Z) (evs : list eventDef) (name : string) : option Z :=
  match evs with
  | [] => None
  | ev :: evs' =>
      if decide (ev_name ev = name) then Some i
      else eventIndex_from (i + 1) evs' name
  end.

Definition eventIndex (b : Builder) (name : string) : option Z :=
  eventIndex_from 0 (events b) name.

Definition Independent (b : Builder) (e1name e2name : string) : option Builder :=
  match eventIndex b e1name, eventIndex b e2name with
  | Some i, Some j =>
      Some {| b_name := b_name b; b_vars := b_vars b;
              invariants := invariants b; events := events b;
              totalBits := totalBits b;
              independent := independent b ++ [(i, j)];
              allIndependent := allIndependent b |}
  | _, _ => None
  end.

Definition DeclaredIndependence (b : Builder) : Builder :=
  {| b_name := b_name b; b_vars := b_vars b; invariants := invariants b;
     events := events b; totalBits := totalBits b;
     independent := independent b; allIndependent := false |}.

(** ** verify.go *)

Definition maxStateSpace : Z := Z.shiftl 1 20.

Record CCFailure := mkCCFailure {
  Event1 : string;
  Event2 : string;
  cc_State : State;
  Result1 : State;
  Result2 : State
}.

Record Report := mkReport {
  r_Name : string;
  StateCount : Z;
  VarCount : Z;
  EventCount : Z;
  WFC : bool;
  MaxRepairLen : Z;
  CC : bool;
  PairsTotal : Z;
  PairsDisjoint : Z;
  PairsBrute : Z;
  r_CCFailure : option CCFailure
}.

(** The errors [Build] returns.  An error carries what the code has written
    into the report by the time it returns. *)
Inductive BuildError :=
| ErrTooManyBits
| ErrStateSpace
| ErrWFC
| ErrMovesValid (s : State)
| ErrCC (pairsDisjoint pairsBrute : Z) (f : CCFailure).

(** Results of the verifier's loops: a value, a returned error, a run-time
    panic (index out of range), or the model's fuel running out. *)
Inductive res (A : Type) :=
| Ok (a : A)
| Error (e : BuildError)
| Panic
| OutOfFuel.
Arguments Ok {A} a.
Arguments Error {A} e.
Arguments Panic {A}.
Arguments OutOfFuel {A}.

Definition bind {A B} (r : res A) (k : A → res B) : res B :=
  match r with
  | Ok a => k a
  | Error e => Error e
  | Panic => Panic
  | OutOfFuel => OutOfFuel
  end.

(** [for _, x := range xs { st = body x st }] with early return. *)
Fixpoint forM {X St} (xs : list X) (body : X → St → res St) (st : St) : res St :=
  match xs with
  | [] => Ok st
  | x :: xs' => bind (body x st) (forM xs' body)
  end.

(** An indexed read that panics out of range. *)
Definition index {A} (l : list A) (i : Z) : res A :=
  match at_ l i with
  | Some a => Ok a
  | None => Panic
  end.

Definition mkState (b : Builder) (id : Z) : State :=
  {| packed := id; vars := b_vars b |}.

Definition allInvariantsHold (b : Builder) (s : State) : bool :=
  forallb (fun inv => inv_check inv s) (invariants b).

Fixpoint firstRepair (invs : list invariantDef) (s : State) : State :=
  match invs with
  | [] => s
  | inv :: invs' =>
      if inv_check inv s then firstRepair invs' s else inv_repair inv s
  end.

Definition applyFirstRepair (b : Builder) (s : State) : State :=
  firstRepair (invariants b) s.

Definition applyEvent (ev : eventDef) (s : State) : State :=
  match ev_guard ev with
  | Some g => if g s then ev_effect ev s else s
  | None => ev_effect ev s
  end.

(** Body of the loop of [clampState]. *)
Definition clampVar (s : State) (v : Var) : State :=
  let raw := getRaw s v in
  let max := u64 (i64 (v_domain v - 1)) in
  if max <? raw then setRaw s v max else s.

Definition clampState (b : Builder) (s : State) : State :=
  fold_left clampVar (b_vars b) s.

Definition isValidEncoding (b : Builder) (packed : Z) : bool :=
  forallb
    (fun v =>
       let raw := Z.land (Z.shiftr packed (v_offset v)) (fieldMask v) in
       negb (v_domain v <=? i64 raw))
    (b_vars b).

(** [eventFootprint]; [None] when [ei] is not an index of [b.events]. *)
Definition eventFootprint (b : Builder) (ei : Z) : option (gmap Z bool) :=
  match at_ (events b) ei with
  | None => None
  | Some ev =>
      let writes : gmap Z bool :=
        fold_left (fun m vi => <[vi := true]> m) (ev_writes ev) ∅ in
      Some
        (fold_left
           (fun (fp : gmap Z bool) inv =>
              let overlaps :=
                existsb (fun vi => default false (writes !! vi))
                        (inv_footprint inv) in
              if overlaps
              then fold_left (fun m vi => <[vi := true]> m) (inv_footprint inv) fp
              else fp)
           (invariants b) ∅)
  end.

Definition eventsDisjoint (b : Builder) (ei ej : Z) : option bool :=
  match eventFootprint b ei, eventFootprint b ej with
  | Some fp1, Some fp2 =>
      Some (forallb (fun v => negb (default false (fp2 !! v)))
                    (map fst (map_to_list fp1)))
  | _, _ => None
  end.

(** The inner loop of [computeNormalForms] for one start state:
    [for !b.allInvariantsHold(s) { ... }]. *)
Fixpoint repairLoop (b : Builder) (stateCount : Z) (fuel : nat)
    (s : State) (depth : Z) (seen : gset Z) : res (State * Z) :=
  if allInvariantsHold b s then Ok (s, depth)
  else
    match fuel with
    | O => OutOfFuel
    | S fuel' =>
        let s := applyFirstRepair b s in
        let depth := depth + 1 in
        if bool_decide (packed s ∈ seen) || (stateCount <? depth)
        then Error ErrWFC
        else repairLoop b stateCount fuel' s depth ({[packed s]} ∪ seen)
    end.

(** The depth test stops the loop after [stateCount + 1] rounds. *)
Definition repairFuel (stateCount : Z) : nat := S (Z.to_nat stateCount).

(** Body of the first loop of [computeNormalForms]; the loop state is the
    table [nf] and [maxRepair]. *)
Definition nfBody (b : Builder) (stateCount : Z) (valid : list bool)
    (i : Z) (st : list Z * Z) : res (list Z * Z) :=
  let '(nf, maxRepair) := st in
  bind (index valid i) (fun ok =>
  if negb ok then Ok (<[Z.to_nat i := u64 i]> nf, maxRepair)
  else
    bind (repairLoop b stateCount (repairFuel stateCount)
                     (mkState b (u64 i)) 0 {[u64 i]})
      (fun '(s, depth) =>
         Ok (<[Z.to_nat i := packed s]> nf,
             if maxRepair <? depth then depth else maxRepair))).

(** Body of the post-pass of [computeNormalForms]. *)
Definition idemBody (b : Builder) (valid : list bool) (nf : list Z)
    (i : Z) (st : unit) : res unit :=
  bind (index valid i) (fun ok =>
  if ok then
    let s := mkState b (u64 i) in
    if allInvariantsHold b s then
      bind (index nf i) (fun x =>
        if negb (x =? u64 i) then Error (ErrMovesValid s) else Ok st)
    else Ok st
  else Ok st).

(** [computeNormalForms] returns the table and [report.MaxRepairLen]. *)
Definition computeNormalForms (b : Builder) (packedCount stateCount : Z)
    (valid : list bool) : res (list Z * Z) :=
  let nf := replicate (Z.to_nat packedCount) 0 in
  bind (forM (seqZ 0 packedCount) (nfBody b stateCount valid) (nf, 0))
    (fun '(nf, maxRepair) =>
       bind (forM (seqZ 0 packedCount) (idemBody b valid nf) ())
         (fun _ => Ok (nf, maxRepair))).

(** Inner loop body of [computeStepTables]: one row, one state. *)
Definition stepBody (b : Builder) (valid : list bool) (nf : list Z)
    (ev : eventDef) (i : Z) (row : list Z) : res (list Z) :=
  bind (index valid i) (fun ok =>
  if ok then
    let s := mkState b (u64 i) in
    let after := applyEvent ev s in
    let after := clampState b after in
    bind (index nf (packed after)) (fun x => Ok (<[Z.to_nat i := x]> row))
  else Ok row).

Definition computeStepTables (b : Builder) (packedCount : Z)
    (valid : list bool) (nf : list Z) : res (list (list Z)) :=
  forM (events b)
    (fun ev step =>
       bind (forM (seqZ 0 packedCount) (stepBody b valid nf ev)
                  (replicate (Z.to_nat packedCount) 0))
         (fun row => Ok (step ++ [row])))
    [].

(** The pairs [verifyCC] collects before checking. *)
Definition pairsToCheck (b : Builder) : list (Z * Z) :=
  if allIndependent b then
    flat_map
      (fun i => map (fun j => (i, j)) (seqZ (i + 1) (len (events b) - (i + 1))))
      (seqZ 0 (len (events b)))
  else
    map (fun p : Z * Z => let '(i, j) := p in if j <? i then (j, i) else (i, j))
        (independent b).

(** [step[e][s]] *)
Definition stepAt (step : list (list Z)) (e s : Z) : res Z :=
  bind (index step e) (fun row => index row s).

(** Body of the state loop of [verifyCC] for the pair [(i, j)]. *)
Definition ccBody (b : Builder) (valid : list bool) (step : list (list Z))
    (pairsDisjoint pairsBrute i j : Z) (s : Z) (st : unit) : res unit :=
  bind (index valid s) (fun ok =>
  if negb ok then Ok st
  else
    bind (stepAt step i s) (fun si =>
    bind (stepAt step j si) (fun after_ij =>
    bind (stepAt step j s) (fun sj =>
    bind (stepAt step i sj) (fun after_ji =>
    if negb (after_ij =? after_ji) then
      bind (index (events b) i) (fun e1 =>
      bind (index (events b) j) (fun e2 =>
      Error (ErrCC pairsDisjoint pairsBrute
               {| Event1 := ev_name e1; Event2 := ev_name e2;
                  cc_State := mkState b (u64 s);
                  Result1 := mkState b after_ij;
                  Result2 := mkState b after_ji |})))
    else Ok st))))).

(** Body of the pair loop; the loop state is [(pairsDisjoint, pairsBrute)]. *)
Definition pairBody (b : Builder) (packedCount : Z) (valid : list bool)
    (step : list (list Z)) (p : Z * Z) (st : Z * Z) : res (Z * Z) :=
  let '(i, j) := p in
  let '(pairsDisjoint, pairsBrute) := st in
  match eventsDisjoint b i j with
  | None => Panic
  | Some true => Ok (pairsDisjoint + 1, pairsBrute)
  | Some false =>
      let pairsBrute := pairsBrute + 1 in
      bind (forM (seqZ 0 packedCount)
                 (ccBody b valid step pairsDisjoint pairsBrute i j) ())
        (fun _ => Ok (pairsDisjoint, pairsBrute))
  end.

(** [verifyCC] returns [(pairsDisjoint, pairsBrute)]. *)
Definition verifyCC (b : Builder) (packedCount : Z) (valid : list bool)
    (step : list (list Z)) : res (Z * Z) :=
  forM (pairsToCheck b) (pairBody b packedCount valid step) (0, 0).

(** ** machine.go *)

Record Machine := mkMachine {
  m_name : string;
  m_vars : list Var;
  m_events : gmap string Z;
  step : list (list Z);
  nf : list Z
}.

Definition NewState (m : Machine) : State := {| packed := 0; vars := m_vars m |}.

(** What a call of [Apply] does: return a state, panic with the
    unknown-event message, or panic on a table index. *)
Inductive ApplyResult :=
| Applied (s : State)
| UnknownEvent (event : string)
| ApplyOutOfRange.

Definition Apply (m : Machine) (s : State) (event : string) : ApplyResult :=
  match m_events m !! event with
  | None => UnknownEvent event
  | Some ei =>
      match stepAt (step m) ei (packed s) with
      | Ok x => Applied {| packed := x; vars := m_vars m |}
      | _ => ApplyOutOfRange
      end
  end.

(** [Normalize] and [IsValid] read [m.nf[s.packed]]; [None] is the index
    panic. *)
Definition Normalize (m : Machine) (s : State) : option State :=
  match at_ (nf m) (packed s) with
  | Some x => Some {| packed := x; vars := m_vars m |}
  | None => None
  end.

Definition IsValid (m : Machine) (s : State) : option bool :=
  match at_ (nf m) (packed s) with
  | Some x => Some (x =? packed s)
  | None => None
  end.

(** ** Build *)

Inductive BuildResult :=
| Built (m : Machine) (r : Report)
| Failed (e : BuildError) (r : option Report)
| BuildPanic
| BuildOutOfFuel.

(** [stateCount]: the product of the domains, in [int] arithmetic. *)
Definition stateCountOf (b : Builder) : Z :=
  fold_left (fun acc v => i64 (acc * v_domain v)) (b_vars b) 1.

Definition packedCountOf (b : Builder) : Z := Z.shiftl 1 (totalBits b).

Definition validMask (b : Builder) : list bool :=
  (fun i => isValidEncoding b (u64 i)) <$> seqZ 0 (packedCountOf b).

Definition eventsMap (evs : list eventDef) : gmap string Z :=
  fold_left (fun (m : gmap string Z) '(i, ev) => <[ev_name ev := i]> m)
            (zip (seqZ 0 (len evs)) evs) ∅.

Definition initReport (b : Builder) : Report :=
  {| r_Name := b_name b; StateCount := stateCountOf b;
     VarCount := len (b_vars b); EventCount := len (events b);
     WFC := false; MaxRepairLen := 0; CC := false; PairsTotal := 0;
     PairsDisjoint := 0; PairsBrute := 0; r_CCFailure := None |}.

Definition withWFC (r : Report) (maxRepair : Z) : Report :=
  {| r_Name := r_Name r; StateCount := StateCount r; VarCount := VarCount r;
     EventCount := EventCount r; WFC := true; MaxRepairLen := maxRepair;
     CC := CC r; PairsTotal := PairsTotal r;
     PairsDisjoint := PairsDisjoint r; PairsBrute := PairsBrute r;
     r_CCFailure := r_CCFailure r |}.

Definition withCC (r : Report) (ok : bool) (pairsDisjoint pairsBrute : Z)
    (f : option CCFailure) : Report :=
  {| r_Name := r_Name r; StateCount := StateCount r; VarCount := VarCount r;
     EventCount := EventCount r; WFC := WFC r; MaxRepairLen := MaxRepairLen r;
     CC := ok; PairsTotal := pairsDisjoint + pairsBrute;
     PairsDisjoint := pairsDisjoint; PairsBrute := pairsBrute;
     r_CCFailure := f |}.

Definition Build (b : Builder) : BuildResult :=
  if 20 <? totalBits b then Failed ErrTooManyBits None
  else
    let stateCount := stateCountOf b in
    if maxStateSpace <? stateCount then Failed ErrStateSpace None
    else
      let packedCount := packedCountOf b in
      let report := initReport b in
      let valid := validMask b in
      match computeNormalForms b packedCount stateCount valid with
      | Error ErrWFC => Failed ErrWFC (Some report)
      | Error e => Failed e (Some (withWFC report 0))
      | Panic => BuildPanic
      | OutOfFuel => BuildOutOfFuel
      | Ok (nf, maxRepair) =>
          let report := withWFC report maxRepair in
          match computeStepTables b packedCount valid nf with
          | Error e => Failed e (Some report)
          | Panic => BuildPanic
          | OutOfFuel => BuildOutOfFuel
          | Ok step =>
              match verifyCC b packedCount valid step with
              | Error (ErrCC pd pb f) =>
                  Failed (ErrCC pd pb f) (Some (withCC report false pd pb (Some f)))
              | Error e => Failed e (Some report)
              | Panic => BuildPanic
              | OutOfFuel => BuildOutOfFuel
              | Ok (pd, pb) =>
                  Built {| m_name := b_name b; m_vars := b_vars b;
                           m_events := eventsMap (events b);
                           step := step; nf := nf |}
                        (withCC report true pd pb None)
              end
          end
      end.

(** ** Well-formed declarations *)

(** Bit positions of the field of [v]. *)
Definition inField (v : Var) (i : Z) : bool :=
  (v_offset v <=? i) && (i <? v_offset v + v_bits v).

(** What [Bool], [Enum] and [Int] establish for the variable they append at
    offset [off]: the field starts at [off] and is [bitsNeeded] of the domain
    wide, the domain is a positive [int], an enum has a label for each raw value at
    most, and the displayed range of an int fits an [int]. *)
Definition var_okb (off : Z) (v : Var) : bool :=
  (v_offset v =? off) && (v_bits v =? bitsNeeded (v_domain v))
  && (1 <=? v_domain v) && (v_domain v <? 2 ^ 63)
  && (len (v_labels v) <=? v_domain v)
  && (- 2 ^ 63 <=? v_min v) && (v_min v + v_domain v <=? 2 ^ 63).

(** The fields are laid out contiguously from [off] and end at [total]. *)
Fixpoint layout_okb (vs : list Var) (off total : Z) : bool :=
  match vs with
  | [] => (off =? total) && (total <=? 64)
  | v :: vs' => var_okb off v && layout_okb vs' (off + v_bits v) total
  end.

Definition wf_layout (b : Builder) : Prop :=
  (0 <=? totalBits b) && layout_okb (b_vars b) 0 (totalBits b) = true.

(** The facts [var_okb] records about one variable of a layout of [total]
    bits. *)
Record var_ok (total : Z) (v : Var) : Prop := {
  vo_off : 0 <= v_offset v;
  vo_bits : 0 <= v_bits v <= 63;
  vo_needed : v_bits v = bitsNeeded (v_domain v);
  vo_fit : v_offset v + v_bits v <= total;
  vo_total : total <= 64;
  vo_dom : 1 <= v_domain v <= 2 ^ v_bits v;
  vo_labels : len (v_labels v) <= v_domain v;
  vo_min : - 2 ^ 63 <= v_min v;
  vo_max : v_min v + v_domain v <= 2 ^ 63
}.

(** In-domain ids: inside the padded address space, every field below its
    domain. *)
Definition in_domain (b : Builder) (p : Z) : Prop :=
  0 <= p < 2 ^ totalBits b ∧ isValidEncoding b p = true.

(** Repairs are written against the State interface of the builder's own
    variables: fired on an in-domain state of the machine, a repair returns
    an in-domain state of the machine. *)
Definition repairs_closed (b : Builder) : Prop :=
  ∀ inv p, inv ∈ invariants b → in_domain b p →
    inv_check inv (mkState b p) = false →
    ∃ q, inv_repair inv (mkState b p) = mkState b q ∧ in_domain b q.

(** ** The tables [Build] computes *)

(** What the first loop of [computeNormalForms] leaves in [nf[i]]: an
    out-of-domain id is its own entry, an in-domain id has the packed form
    of the state on which its repair loop stops. *)
Definition nf_entry (b : Builder) (nf : list Z) (i : Z) : Prop :=
  if isValidEncoding b i
  then ∃ s d,
      repairLoop b (stateCountOf b) (repairFuel (stateCountOf b))
                 (mkState b i) 0 {[i]} = Ok (s, d)
      ∧ at_ nf i = Some (packed s)
  else at_ nf i = Some i.

(** What the inner loop of [computeStepTables] leaves in [row[i]] for the
    event [ev]. *)
Definition step_entry (b : Builder) (nf row : list Z) (ev : eventDef) (i : Z)
  : Prop :=
  if isValidEncoding b i
  then ∃ x,
      at_ nf (packed (clampState b (applyEvent ev (mkState b i)))) = Some x
      ∧ at_ row i = Some x
  else at_ row i = Some 0.

(** ** Example declarations *)

(** A counter [x ∈ [0, 4]] that must stay at most 3 and is reset to 0
    otherwise, with two events that both increment it. *)
Definition xVar : Var :=
  {| v_name := "x"; v_kind := IntKind; v_index := 0; v_offset := 0;
     v_bits := 3; v_domain := 5; v_labels := []; v_min := 0 |}.

Definition x_bounded : invariantDef :=
  {| inv_name := "x_bounded"; inv_footprint := [0];
     inv_check := fun s => GetInt s xVar <=? 3;
     inv_repair := fun s => SetInt s xVar 0 |}.

Definition inc_event (name : string) : eventDef :=
  {| ev_name := name; ev_writes := [0]; ev_guard := None;
     ev_effect := fun s => SetInt s xVar (i64 (GetInt s xVar + 1)) |}.

Definition counterB : Builder :=
  {| b_name := "counter"; b_vars := [xVar]; invariants := [x_bounded];
     events := [inc_event "inc_a"; inc_event "inc_b"]; totalBits := 3;
     independent := []; allIndependent := true |}.

(** The same declaration through the façade. *)
Definition declare_counter : option Builder :=
  '(b, x) ← Int (NewBuilder "counter") "x" 0 4;
  b ← InvariantBuilder_Add
        (Repair (Check_ (Over (Invariant b "x_bounded") [x])
                        (fun s => GetInt s x <=? 3))
                (fun s => SetInt s x 0));
  b ← EventBuilder_Add
        (Apply_ (Writes (Event b "inc_a") [x])
                (fun s => SetInt s x (i64 (GetInt s x + 1))));
  EventBuilder_Add
    (Apply_ (Writes (Event b "inc_b") [x])
            (fun s => SetInt s x (i64 (GetInt s x + 1)))).

(** The machine and report [Build] returns for a declaration (a dummy when
    it returns none). *)
Definition machineOf (b : Builder) : Machine :=
  match Build b with
  | Built m _ => m
  | _ => {| m_name := ""; m_vars := []; m_events := ∅; step := []; nf := [] |}
  end.

Definition reportOf (b : Builder) : Report :=
  match Build b with
  | Built _ r => r
  | _ => initReport b
  end.

(** One flag and two events that write it, no invariant, all pairs checked. *)
Definition flagVar : Var :=
  {| v_name := "flag"; v_kind := BoolKind; v_index := 0; v_offset := 0;
     v_bits := 1; v_domain := 2; v_labels := []; v_min := 0 |}.

Definition set_flag (name : string) (val : bool) : eventDef :=
  {| ev_name := name; ev_writes := [0]; ev_guard := None;
     ev_effect := fun s => SetBool s flagVar val |}.

Definition flagB : Builder :=
  {| b_name := "flag"; b_vars := [flagVar]; invariants := [];
     events := [set_flag "set_true" true; set_flag "set_false" false];
     totalBits := 1; independent := []; allIndependent := true |}.

Definition declare_flag : option Builder :=
  let '(b, flag) := Bool_ (NewBuilder "flag") "flag" in
  b ← EventBuilder_Add
        (Apply_ (Writes (Event b "set_true") [flag])
                (fun s => SetBool s flag true));
  EventBuilder_Add
    (Apply_ (Writes (Event b "set_false") [flag])
            (fun s => SetBool s flag false)).

(** A level [y ∈ [0, 2]] that must not be 2 (repair: back to 0), and two
    events that act only on the invariant-violating state [y = 2]. *)
Definition yVar : Var :=
  {| v_name := "y"; v_kind := IntKind; v_index := 0; v_offset := 0;
     v_bits := 2; v_domain := 3; v_labels := []; v_min := 0 |}.

Definition y_not_two : invariantDef :=
  {| inv_name := "y_not_two"; inv_footprint := [0];
     inv_check := fun s => negb (GetInt s yVar =? 2);
     inv_repair := fun s => SetInt s yVar 0 |}.

Definition from_two (name : string) (target : Z) : eventDef :=
  {| ev_name := name; ev_writes := [0];
     ev_guard := Some (fun s => GetInt s yVar =? 2);
     ev_effect := fun s => SetInt s yVar target |}.

Definition levelB : Builder :=
  {| b_name := "level"; b_vars := [yVar]; invariants := [y_not_two];
     events := [from_two "to_one" 1; from_two "to_zero" 0]; totalBits := 2;
     independent := []; allIndependent := true |}.

Definition declare_level : option Builder :=
  '(b, y) ← Int (NewBuilder "level") "y" 0 2;
  b ← InvariantBuilder_Add
        (Repair (Check_ (Over (Invariant b "y_not_two") [y])
                        (fun s => negb (GetInt s y =? 2)))
                (fun s => SetInt s y 0));
  b ← EventBuilder_Add
        (Apply_ (Guard (Writes (Event b "to_one") [y])
                       (fun s => GetInt s y =? 2))
                (fun s => SetInt s y 1));
  EventBuilder_Add
    (Apply_ (Guard (Writes (Event b "to_zero") [y])
                   (fun s => GetInt s y =? 2))
            (fun s => SetInt s y 0)).

(** Two flags; the invariant watches only [armed] but its repair also sets
    [alarm]. *)
Definition armedVar : Var :=
  {| v_name := "armed"; v_kind := BoolKind; v_index := 0; v_offset := 0;
     v_bits := 1; v_domain := 2; v_labels := []; v_min := 0 |}.

Definition alarmVar : Var :=
  {| v_name := "alarm"; v_kind := BoolKind; v_index := 1; v_offset := 1;
     v_bits := 1; v_domain := 2; v_labels := []; v_min := 0 |}.

Definition disarmed : invariantDef :=
  {| inv_name := "disarmed"; inv_footprint := [0];
     inv_check := fun s => negb (GetBool s armedVar);
     inv_repair := fun s => SetBool (SetBool s armedVar false) alarmVar true |}.

Definition alarmB : Builder :=
  {| b_name := "alarm"; b_vars := [armedVar; alarmVar];
     invariants := [disarmed]; events := []; totalBits := 2;
     independent := []; allIndependent := true |}.

Definition declare_alarm : option Builder :=
  let '(b, armed) := Bool_ (NewBuilder "alarm") "armed" in
  let '(b, alarm) := Bool_ b "alarm" in
  InvariantBuilder_Add
    (Repair (Check_ (Over (Invariant b "disarmed") [armed])
                    (fun s => negb (GetBool s armed)))
            (fun s => SetBool (SetBool s armed false) alarm true)).

(** The invariant [inv] changes, on the in-domain state [p], the variable
    [v], which its footprint does not list. *)
Definition repair_escapes (b : Builder) (inv : invariantDef) (p : Z) (v : Var)
  : Prop :=
  inv ∈ invariants b ∧ in_domain b p ∧ v ∈ b_vars b
  ∧ (v_index v ∉ inv_footprint inv)
  ∧ getRaw (inv_repair inv (mkState b p)) v ≠ getRaw (mkState b p) v.

(** A declaration with one flag and no event. *)
Definition idleB : Builder :=
  {| b_name := "idle"; b_vars := [flagVar]; invariants := []; events := [];
     totalBits := 1; independent := []; allIndependent := true |}.

(** The tables [Build] has computed for [levelB] when the commutativity
    check runs. *)
Definition levelNF : list Z := [0; 1; 0; 3].
Definition levelSteps : list (list Z) := [[0; 1; 1; 0]; [0; 1; 0; 0]].

(** The declaration [b] with the footprint of every invariant replaced. *)
Definition withFootprints (b : Builder) (fp : invariantDef → list Z) : Builder :=
  withInvariants b
    (map (fun inv => {| inv_name := inv_name inv; inv_footprint := fp inv;
                        inv_check := inv_check inv;
                        inv_repair := inv_repair inv |})
         (invariants b)).

(** One call of the State interface on a variable of the builder. *)
Inductive api_step (b : Builder) : State → State → Prop :=
| api_Set s v val s' :
    v ∈ b_vars b → Set_ s v val = Some s' → api_step b s s'
| api_SetBool s v val :
    v ∈ b_vars b → api_step b s (SetBool s v val)
| api_SetInt s v val :
    v ∈ b_vars b → - 2 ^ 63 <= val < 2 ^ 63 → api_step b s (SetInt s v val).

(** ** Further functions of var.go, state.go and machine.go *)

(** [enumLabel]: the label of a raw value, or ["?%d"] out of range. *)
Definition enumLabel (v : Var) (idx : Z) : string :=
  if (0 <=? idx) && (idx <? len (v_labels v))
  then default "" (at_ (v_labels v) idx)
  else "?" +:+ pretty idx.

Definition Get (s : State) (v : Var) : string :=
  enumLabel v (i64 (getRaw s v)).

(** [Events]: [names := make([]string, len(m.events))], then
    [names[idx] = name] for every entry of the dictionary; an index outside
    [names] is Go's index panic ([None]).  Go leaves the order of a [range]
    over a map unspecified: [EventsIn] takes the order as a list of the
    dictionary's entries. *)
Definition writeName (acc : option (list string)) (e : string * Z)
  : option (list string) :=
  names ← acc;
  if decide (0 <= e.2 < len names)
  then Some (<[Z.to_nat e.2 := e.1]> names)
  else None.

Definition EventsIn (m : Machine) (order : list (string * Z))
  : option (list string) :=
  fold_left writeName order (Some (replicate (size (m_events m)) "")).

Definition Events (m : Machine) : option (list string) :=
  EventsIn m (map_to_list (m_events m)).

(** A run of [Apply] calls, stopping at the first panic. *)
Fixpoint ApplyAll (m : Machine) (s : State) (evs : list string) : ApplyResult :=
  match evs with
  | [] => Applied s
  | e :: evs' =>
      match Apply m s e with
      | Applied s' => ApplyAll m s' evs'
      | r => r
      end
  end.

(** [levelB] with the event [to_one] alone: a guarded event in a
    declaration that builds. *)
Definition gateB : Builder :=
  {| b_name := "gate"; b_vars := [yVar]; invariants := [y_not_two];
     events := [from_two "to_one" 1]; totalBits := 2;
     independent := []; allIndependent := true |}.

(** Effects are written against the State interface too: on an in-domain
    state of the machine an event returns a state inside the address
    space. *)
Definition effects_bounded (b : Builder) : Prop :=
  ∀ ev p, ev ∈ events b → in_domain b p →
    0 <= packed (applyEvent ev (mkState b p)) < 2 ^ totalBits b.

(** What [Independent] guarantees for the declared pairs: both indices are
    indices of declared events. *)
Definition pairs_in_range (b : Builder) : Prop :=
  ∀ i j, (i, j) ∈ independent b →
    0 <= i < len (events b) ∧ 0 <= j < len (events b).

(** A flag that must be set, with a repair that clears it: the repair never
    reaches a valid state. *)
Definition flag_set : invariantDef :=
  {| inv_name := "flag_set"; inv_footprint := [0];
     inv_check := fun s => GetBool s flagVar;
     inv_repair := fun s => SetBool s flagVar false |}.

Definition stuckB : Builder :=
  {| b_name := "stuck"; b_vars := [flagVar]; invariants := [flag_set];
     events := []; totalBits := 1; independent := []; allIndependent := false |}.

(** Two events declared under one name. *)
Definition twinB : Builder :=
  {| b_name := "twin"; b_vars := [flagVar]; invariants := [];
     events := [set_flag "set" true; set_flag "set" true];
     totalBits := 1; independent := []; allIndependent := true |}.

(** A flag that must stay clear.  The repair clears it and also sets
    [stray], the sixth flag of another builder: a [Var] is a plain handle,
    and the State accessors take any. *)
Definition strayVar : Var :=
  {| v_name := "stray"; v_kind := BoolKind; v_index := 5; v_offset := 5;
     v_bits := 1; v_domain := 2; v_labels := []; v_min := 0 |}.

Definition flag_clear : invariantDef :=
  {| inv_name := "flag_clear"; inv_footprint := [0];
     inv_check := fun s => negb (GetBool s flagVar);
     inv_repair := fun s => SetBool (SetBool s flagVar false) strayVar true |}.

Definition strayB : Builder :=
  {| b_name := "stray"; b_vars := [flagVar]; invariants := [flag_clear];
     events := [set_flag "raise" true]; totalBits := 1;
     independent := []; allIndependent := true |}.

(** [Int("h", 0, math.MaxInt64)]: the range size [max - min + 1] wraps to
    [math.MinInt64], for which [bitsNeeded] is 0. *)
Definition hVar : Var :=
  {| v_name := "h"; v_kind := IntKind; v_index := 0; v_offset := 0;
     v_bits := 0; v_domain := - 2 ^ 63; v_labels := []; v_min := 0 |}.

Definition wideB : Builder :=
  {| b_name := "wide"; b_vars := [hVar]; invariants := []; events := [];
     totalBits := 0; independent := []; allIndependent := true |}.

(** ** Proof automation *)

(** Case analysis on the integer comparisons of the goal. *)
Ltac Zbool_cases :=
  repeat match goal with
    | |- context [?a <=? ?b] => destruct (Z.leb_spec a b)
    | |- context [?a <? ?b] => destruct (Z.ltb_spec a b)
    end;
  simpl; try lia;
  rewrite ?andb_true_r, ?andb_false_r, ?orb_false_r, ?orb_true_r; try done.

(** Case analysis of a sequence of loop steps that returned normally. *)
Ltac bind_ok H :=
  repeat match type of H with
    | bind ?r _ = Ok _ =>
        let E := fresh "E" in
        destruct r eqn:E; cbn [bind] in H; [| discriminate H ..]
    end.

(** Reads of slices, comparisons and returns use no fuel. *)
Ltac no_fuel :=
  unfold stepAt, index, bind; repeat case_match; simplify_eq; done.

(** * Properties *)

(** ** Machine integers *)

Lemma u64_small z : 0 <= z < 2 ^ 64 → u64 z = z.
Proof. intros. unfold u64. apply Z.mod_small. lia. Qed.

Lemma i64_small z : - 2 ^ 63 <= z < 2 ^ 63 → i64 z = z.
Proof. intros. unfold i64. rewrite Z.mod_small; lia. Qed.

Lemma u64_range z : 0 <= u64 z < 2 ^ 64.
Proof. unfold u64. apply Z.mod_pos_bound. lia. Qed.

Lemma pow2_le_mono a b : 0 <= a <= b → 2 ^ a <= 2 ^ b.
Proof. intros. apply Z.pow_le_mono_r; lia. Qed.

Lemma pow2_pos a : 0 <= a → 0 < 2 ^ a.
Proof. intros. apply Z.pow_pos_nonneg; lia. Qed.

(** A non-negative integer whose bits from [n] on are clear is below [2^n]. *)
Lemma bits_above_clear a n :
  0 <= n → 0 <= a → (∀ i, n <= i → Z.testbit a i = false) → a < 2 ^ n.
Proof.
  intros Hn Ha Hbits.
  assert (a mod 2 ^ n = a) as <-.
  { apply Z.bits_inj'. intros i Hi.
    destruct (Z.lt_ge_cases i n).
    - rewrite Z.mod_pow2_bits_low; [done | lia].
    - rewrite Z.mod_pow2_bits_high, Hbits; [done | lia | lia]. }
  apply Z.mod_pos_bound. by apply pow2_pos.
Qed.

Lemma bits_clear_above a n i :
  0 <= a < 2 ^ n → n <= i → Z.testbit a i = false.
Proof.
  intros [Ha Hlt] Hi.
  destruct (decide (a = 0)) as [-> | Hne]; [apply Z.bits_0 |].
  apply Z.bits_above_log2; [lia |].
  assert (0 <= n).
  { destruct (Z.lt_ge_cases n 0); [| done].
    rewrite Z.pow_neg_r in Hlt; lia. }
  assert (Z.log2 a < n); [| lia].
  apply Z.log2_lt_pow2; lia.
Qed.

(** ** The bitpacked codec *)

Lemma fieldMask_width w : 0 <= v_bits w <= 64 → fieldMask w = Z.ones (v_bits w).
Proof.
  intros [Hb0 Hb]. unfold fieldMask, shl64. rewrite Z.shiftl_1_l, Z.ones_equiv.
  destruct (decide (v_bits w = 64)) as [-> | Hne]; [done |].
  assert (2 ^ v_bits w < 2 ^ 64) by (apply Z.pow_lt_mono_r; lia).
  pose proof (pow2_pos (v_bits w) Hb0).
  rewrite (u64_small (2 ^ v_bits w)) by lia. rewrite u64_small; lia.
Qed.

Section Codec.
Variable v : Var.
Hypothesis Hoff : 0 <= v_offset v.
Hypothesis Hbits : 0 <= v_bits v.
Hypothesis Hfit : v_offset v + v_bits v <= 64.

Lemma fieldMask_ones : fieldMask v = Z.ones (v_bits v).
Proof. apply fieldMask_width. lia. Qed.

Lemma getRaw_range s : 0 <= getRaw s v < 2 ^ v_bits v.
Proof.
  unfold getRaw. rewrite fieldMask_ones, Z.land_ones by done.
  apply Z.mod_pos_bound. by apply pow2_pos.
Qed.

Lemma testbit_getRaw s i :
  0 <= i →
  Z.testbit (getRaw s v) i
  = (i <? v_bits v) && Z.testbit (packed s) (i + v_offset v).
Proof.
  intros Hi. unfold getRaw.
  rewrite fieldMask_ones, Z.land_spec, Z.shiftr_spec, Z.testbit_ones by done.
  destruct (Z.leb_spec 0 i); [| lia]. simpl. apply andb_comm.
Qed.

Lemma shl64_field x :
  0 <= x < 2 ^ v_bits v → shl64 x (v_offset v) = Z.shiftl x (v_offset v).
Proof.
  intros [Hx0 Hx]. unfold shl64. apply u64_small.
  rewrite Z.shiftl_mul_pow2 by done.
  pose proof (pow2_pos (v_offset v) Hoff).
  assert (2 ^ v_bits v * 2 ^ v_offset v <= 2 ^ 64).
  { rewrite <- Z.pow_add_r by done. apply pow2_le_mono. lia. }
  nia.
Qed.

Lemma ones_range : 0 <= Z.ones (v_bits v) < 2 ^ v_bits v.
Proof. rewrite Z.ones_equiv. pose proof (pow2_pos _ Hbits). lia. Qed.

Lemma land_ones_range x : 0 <= Z.land x (Z.ones (v_bits v)) < 2 ^ v_bits v.
Proof.
  rewrite Z.land_ones by done. apply Z.mod_pos_bound. by apply pow2_pos.
Qed.

Lemma testbit_setRaw s x i :
  0 <= i →
  Z.testbit (packed (setRaw s v x)) i
  = if inField v i then Z.testbit x (i - v_offset v)
    else Z.testbit (packed s) i.
Proof.
  intros Hi. unfold setRaw, inField. simpl.
  rewrite fieldMask_ones.
  rewrite (shl64_field _ ones_range), (shl64_field _ (land_ones_range x)).
  rewrite Z.lor_spec, Z.ldiff_spec, !Z.shiftl_spec, Z.land_spec by done.
  destruct (Z.leb_spec (v_offset v) i); simpl.
  - rewrite Z.testbit_ones by done. Zbool_cases.
  - rewrite !(Z.testbit_neg_r _ (i - v_offset v)) by lia. Zbool_cases.
Qed.

Lemma getRaw_setRaw s x : getRaw (setRaw s v x) v = Z.land x (Z.ones (v_bits v)).
Proof.
  apply Z.bits_inj'. intros i Hi.
  rewrite testbit_getRaw, testbit_setRaw by lia.
  rewrite Z.land_spec, Z.testbit_ones by done. unfold inField.
  replace (i + v_offset v - v_offset v) with i by lia.
  Zbool_cases.
Qed.

Lemma getRaw_setRaw_small s x :
  0 <= x < 2 ^ v_bits v → getRaw (setRaw s v x) v = x.
Proof.
  intros. rewrite getRaw_setRaw, Z.land_ones by done.
  apply Z.mod_small. lia.
Qed.

Lemma setRaw_nonneg s x : 0 <= packed s → 0 <= packed (setRaw s v x).
Proof.
  intros. unfold setRaw. simpl. rewrite fieldMask_ones.
  rewrite (shl64_field _ ones_range), (shl64_field _ (land_ones_range x)).
  apply Z.lor_nonneg. split.
  - apply Z.ldiff_nonneg. by left.
  - apply Z.shiftl_nonneg. apply land_ones_range.
Qed.

Lemma setRaw_bound s x n :
  v_offset v + v_bits v <= n →
  0 <= packed s < 2 ^ n → 0 <= packed (setRaw s v x) < 2 ^ n.
Proof.
  intros Hn [Hp0 Hp]. split; [by apply setRaw_nonneg |].
  apply bits_above_clear; [lia | by apply setRaw_nonneg |].
  intros i Hi. rewrite testbit_setRaw by lia. unfold inField.
  destruct (Z.ltb_spec i (v_offset v + v_bits v)); [lia |].
  rewrite andb_false_r. by apply (bits_clear_above _ n).
Qed.

(** Writing the field of [v] leaves a field that does not overlap it. *)
Lemma getRaw_setRaw_other s x w :
  0 <= v_offset w → 0 <= v_bits w → v_offset w + v_bits w <= 64 →
  v_offset v + v_bits v <= v_offset w ∨ v_offset w + v_bits w <= v_offset v →
  getRaw (setRaw s v x) w = getRaw s w.
Proof.
  intros Hw1 Hw2 Hw3 Hdisj.
  apply Z.bits_inj'. intros i Hi.
  unfold getRaw at 1 2.
  rewrite (fieldMask_width w) by lia.
  rewrite !Z.land_spec, !Z.shiftr_spec, Z.testbit_ones by done.
  rewrite testbit_setRaw by lia. unfold inField.
  Zbool_cases.
Qed.
End Codec.

(** ** Layouts *)

(** [bitsNeeded]: the loop counts the bits of [n - 1]. *)
Lemma bitsLoop_spec fuel :
  ∀ n b k, 0 <= n < 2 ^ k → 0 <= k <= Z.of_nat fuel →
    b <= bitsLoop fuel n b <= b + k ∧ n < 2 ^ (bitsLoop fuel n b - b).
Proof.
  induction fuel as [| fuel IH]; intros n b k Hn Hk; simpl.
  - assert (k = 0) as -> by lia. rewrite Z.sub_diag. simpl in *. lia.
  - destruct (Z.ltb_spec 0 n) as [Hpos | Hzero].
    + assert (1 <= k).
      { destruct (decide (k = 0)) as [-> | ?]; [simpl in Hn; lia | lia]. }
      assert (0 <= Z.shiftr n 1 < 2 ^ (k - 1)) as Hhalf.
      { rewrite Z.shiftr_div_pow2 by lia. change (2 ^ 1) with 2.
        replace (2 ^ k) with (2 * 2 ^ (k - 1)) in Hn
          by (rewrite <- Z.pow_succ_r by lia; f_equal; lia).
        split; [apply Z.div_pos; lia |].
        apply Z.div_lt_upper_bound; lia. }
      destruct (IH (Z.shiftr n 1) (b + 1) (k - 1) Hhalf ltac:(lia)) as [Hr Hlt].
      split; [lia |].
      set (r := bitsLoop fuel (Z.shiftr n 1) (b + 1)) in *.
      replace (r - b) with (Z.succ (r - (b + 1))) by lia.
      rewrite Z.pow_succ_r by lia.
      rewrite Z.shiftr_div_pow2 in Hlt by lia. change (2 ^ 1) with 2 in Hlt.
      pose proof (Z.div_mod n 2 ltac:(lia)).
      pose proof (Z.mod_pos_bound n 2 ltac:(lia)). lia.
    + assert (n = 0) as -> by lia. rewrite Z.sub_diag. simpl. lia.
Qed.

Lemma bitsNeeded_spec n :
  1 <= n <= 2 ^ 63 →
  0 <= bitsNeeded n <= 63 ∧ n <= 2 ^ bitsNeeded n
  ∧ (n = 1 → bitsNeeded n = 0).
Proof.
  intros Hn. unfold bitsNeeded.
  destruct (Z.leb_spec n 1); [simpl; lia |].
  rewrite i64_small by lia.
  destruct (bitsLoop_spec 64 (n - 1) 0 63) as [Hr Hlt]; [lia | lia |].
  rewrite Z.sub_0_r in Hlt. lia.
Qed.

Lemma var_okb_spec off v :
  var_okb off v = true →
  v_offset v = off ∧ v_bits v = bitsNeeded (v_domain v)
  ∧ 0 <= v_bits v <= 63 ∧ 1 <= v_domain v <= 2 ^ v_bits v
  ∧ len (v_labels v) <= v_domain v
  ∧ - 2 ^ 63 <= v_min v ∧ v_min v + v_domain v <= 2 ^ 63.
Proof.
  unfold var_okb. rewrite !andb_true_iff.
  rewrite !Z.eqb_eq, !Z.leb_le, Z.ltb_lt.
  intros ((((((Ho & Hb) & Hd) & Hd') & Hl) & Hm1) & Hm2).
  destruct (bitsNeeded_spec (v_domain v)) as (? & ? & _); [lia |].
  rewrite Hb. lia.
Qed.

Lemma layout_okb_end vs off total :
  0 <= off → layout_okb vs off total = true → off <= total <= 64.
Proof.
  revert off. induction vs as [| v vs IH]; intros off Hoff; simpl.
  - rewrite andb_true_iff, Z.eqb_eq, Z.leb_le. lia.
  - rewrite andb_true_iff. intros [Hv Hvs].
    apply var_okb_spec in Hv. apply IH in Hvs; lia.
Qed.

(** Every variable of a layout is well formed and lies at or after the
    layout's start. *)
Lemma layout_okb_vars vs off total :
  0 <= off → layout_okb vs off total = true →
  ∀ v, v ∈ vs → off <= v_offset v ∧ var_ok total v.
Proof.
  revert off. induction vs as [| w vs IH]; intros off Hoff Hl v Hv.
  - by apply elem_of_nil in Hv.
  - simpl in Hl. apply andb_true_iff in Hl as [Hw Hvs].
    pose proof (var_okb_spec _ _ Hw) as (Ho & Hn & Hb & Hd & Hlab & Hm1 & Hm2).
    assert (0 <= off + v_bits w) as Hoff' by lia.
    pose proof (layout_okb_end _ _ _ Hoff' Hvs).
    apply elem_of_cons in Hv as [-> | Hv].
    + split; [lia |]. constructor; lia.
    + destruct (IH _ Hoff' Hvs v Hv). split; [lia | done].
Qed.

Lemma wf_layout_vars b v : wf_layout b → v ∈ b_vars b → var_ok (totalBits b) v.
Proof.
  unfold wf_layout. rewrite andb_true_iff, Z.leb_le. intros [H0 Hl] Hv.
  by apply (layout_okb_vars _ 0 _ (Z.le_refl 0) Hl).
Qed.

Lemma wf_layout_bits b : wf_layout b → 0 <= totalBits b <= 64.
Proof.
  unfold wf_layout. rewrite andb_true_iff, Z.leb_le. intros [H0 Hl].
  apply layout_okb_end in Hl; lia.
Qed.

(** ** Validity of encodings *)

Lemma getRaw_mkState b p v :
  getRaw (mkState b p) v = Z.land (Z.shiftr p (v_offset v)) (fieldMask v).
Proof. done. Qed.

Lemma getRaw_packed s s' v : packed s = packed s' → getRaw s v = getRaw s' v.
Proof. unfold getRaw. by intros ->. Qed.

Lemma isValidEncoding_spec b p :
  wf_layout b →
  isValidEncoding b p = true ↔
  ∀ v, v ∈ b_vars b → getRaw (mkState b p) v < v_domain v.
Proof.
  intros Hwf. unfold isValidEncoding. rewrite forallb_forall.
  split; intros H v Hv.
  - apply list_elem_of_In in Hv as Hin. specialize (H v Hin).
    destruct (wf_layout_vars _ _ Hwf Hv) as [].
    pose proof (getRaw_range v ltac:(done) ltac:(lia) ltac:(lia) (mkState b p)).
    rewrite getRaw_mkState in *.
    assert (2 ^ v_bits v <= 2 ^ 63) by (apply pow2_le_mono; lia).
    rewrite i64_small in H by lia.
    apply negb_true_iff, Z.leb_gt in H. lia.
  - apply list_elem_of_In in Hv. specialize (H v Hv).
    destruct (wf_layout_vars _ _ Hwf Hv) as [].
    pose proof (getRaw_range v ltac:(done) ltac:(lia) ltac:(lia) (mkState b p)).
    rewrite getRaw_mkState in *.
    assert (2 ^ v_bits v <= 2 ^ 63) by (apply pow2_le_mono; lia).
    rewrite i64_small by lia.
    apply negb_true_iff, Z.leb_gt. lia.
Qed.

(** ** clampState *)

Section ClampVar.
Variables (total : Z) (v : Var).
Hypothesis Hv : var_ok total v.

Lemma clamp_max : u64 (i64 (v_domain v - 1)) = v_domain v - 1.
Proof.
  destruct Hv.
  assert (2 ^ v_bits v <= 2 ^ 63) by (apply pow2_le_mono; lia).
  rewrite i64_small by lia. apply u64_small. lia.
Qed.

Lemma clampVar_self s :
  getRaw (clampVar s v) v = Z.min (getRaw s v) (v_domain v - 1).
Proof.
  destruct Hv. unfold clampVar. rewrite clamp_max.
  destruct (Z.ltb_spec (v_domain v - 1) (getRaw s v)).
  - rewrite getRaw_setRaw_small by lia. lia.
  - lia.
Qed.

Lemma clampVar_other s w :
  var_ok total w →
  v_offset v + v_bits v <= v_offset w ∨ v_offset w + v_bits w <= v_offset v →
  getRaw (clampVar s v) w = getRaw s w.
Proof.
  intros [] Hdisj. destruct Hv. unfold clampVar.
  destruct (_ <? _); [| done].
  apply getRaw_setRaw_other; lia.
Qed.

Lemma clampVar_vars s : vars (clampVar s v) = vars s.
Proof. unfold clampVar. by destruct (_ <? _). Qed.

Lemma clampVar_bound s :
  0 <= packed s < 2 ^ total → 0 <= packed (clampVar s v) < 2 ^ total.
Proof.
  intros. destruct Hv. unfold clampVar. destruct (_ <? _); [| done].
  apply setRaw_bound; lia.
Qed.
End ClampVar.

Lemma clamp_fold total vs :
  ∀ off s, 0 <= off → layout_okb vs off total = true →
    let s' := fold_left clampVar vs s in
    vars s' = vars s
    ∧ (0 <= packed s < 2 ^ total → 0 <= packed s' < 2 ^ total)
    ∧ (∀ w, var_ok total w → v_offset w + v_bits w <= off →
         getRaw s' w = getRaw s w)
    ∧ (∀ v, v ∈ vs → getRaw s' v = Z.min (getRaw s v) (v_domain v - 1)).
Proof.
  induction vs as [| v vs IH]; intros off s Hoff Hl; simpl.
  - split_and!; try done. intros v Hv. by apply elem_of_nil in Hv.
  - pose proof (layout_okb_vars _ _ _ Hoff Hl) as Hall.
    destruct (Hall v) as [_ Hv]; [by left |].
    simpl in Hl. apply andb_true_iff in Hl as [Hvb Hvs].
    pose proof (var_okb_spec _ _ Hvb) as (Ho & _ & Hb & _).
    assert (0 <= off + v_bits v) as Hoff' by lia.
    destruct (IH (off + v_bits v) (clampVar s v) Hoff' Hvs)
      as (IHvars & IHbound & IHbefore & IHin).
    split_and!.
    + by rewrite IHvars, clampVar_vars.
    + intros Hp. apply IHbound. by apply (clampVar_bound total).
    + intros w Hw Hwoff. rewrite IHbefore by (done || lia).
      apply (clampVar_other total); [done | done | lia].
    + intros w Hw. apply elem_of_cons in Hw as [-> | Hw].
      * rewrite IHbefore by (done || lia). by apply (clampVar_self total).
      * rewrite IHin by done. f_equal.
        destruct (layout_okb_vars _ _ _ Hoff' Hvs w Hw) as [Hwoff Hwok].
        apply (clampVar_other total); [done | done | lia].
Qed.

Section ClampState.
Variable b : Builder.
Hypothesis Hwf : wf_layout b.

Lemma clampState_getRaw s v :
  v ∈ b_vars b →
  getRaw (clampState b s) v = Z.min (getRaw s v) (v_domain v - 1).
Proof.
  pose proof Hwf as Hl. unfold wf_layout in Hl.
  apply andb_true_iff in Hl as [_ Hl].
  by apply (clamp_fold _ _ 0 s (Z.le_refl 0) Hl).
Qed.

Lemma clampState_vars s : vars (clampState b s) = vars s.
Proof.
  pose proof Hwf as Hl. unfold wf_layout in Hl.
  apply andb_true_iff in Hl as [_ Hl].
  by apply (clamp_fold _ _ 0 s (Z.le_refl 0) Hl).
Qed.

Lemma clampState_bound s :
  0 <= packed s < 2 ^ totalBits b →
  0 <= packed (clampState b s) < 2 ^ totalBits b.
Proof.
  pose proof Hwf as Hl. unfold wf_layout in Hl.
  apply andb_true_iff in Hl as [_ Hl].
  by apply (clamp_fold _ _ 0 s (Z.le_refl 0) Hl).
Qed.

(** After the clamp every field is below its domain, whatever variable
    list the clamped state carries. *)
Lemma clampState_valid s : isValidEncoding b (packed (clampState b s)) = true.
Proof.
  apply isValidEncoding_spec; [done |]. intros v Hv.
  rewrite (getRaw_packed _ (clampState b s)) by done.
  rewrite clampState_getRaw by done.
  destruct (wf_layout_vars _ _ Hwf Hv). lia.
Qed.
End ClampState.

(** ** Loops *)

Lemma forM_app {X St} (xs ys : list X) (body : X → St → res St) st :
  forM (xs ++ ys) body st = bind (forM xs body st) (forM ys body).
Proof.
  revert st. induction xs as [| x xs IH]; intros st; simpl; [done |].
  destruct (body x st); simpl; auto.
Qed.

(** Invariant rule: [P pre st] relates the elements already visited to the
    loop state. *)
Lemma forM_inv {X St} (P : list X → St → Prop) (body : X → St → res St) xs :
  ∀ st0 st,
    P [] st0 →
    (∀ pre x suf a a',
        xs = pre ++ x :: suf → P pre a → body x a = Ok a' → P (pre ++ [x]) a') →
    forM xs body st0 = Ok st → P xs st.
Proof.
  intros st0 st H0 Hstep.
  assert (∀ suf pre a,
             xs = pre ++ suf → P pre a → forM suf body a = Ok st → P xs st)
    as Hgen.
  { induction suf as [| x suf IH]; intros pre a Hxs HP Hrun; simpl in Hrun.
    - rewrite app_nil_r in Hxs. by simplify_eq.
    - destruct (body x a) as [a' | | |] eqn:Hb; simpl in Hrun; try done.
      apply (IH (pre ++ [x]) a'); [by rewrite <- app_assoc | | done].
      by apply (Hstep pre x suf a a'). }
  by apply (Hgen xs [] st0).
Qed.

(** A loop that returns normally ran its body normally on every element. *)
Lemma forM_Ok_each {X St} (body : X → St → res St) xs :
  ∀ st0 st, forM xs body st0 = Ok st →
    ∀ x, x ∈ xs → ∃ a a', body x a = Ok a'.
Proof.
  induction xs as [| y xs IH]; intros st0 st Hrun x Hx.
  - by apply elem_of_nil in Hx.
  - simpl in Hrun. destruct (body y st0) as [a' | | |] eqn:Hb; try done.
    apply elem_of_cons in Hx as [-> | Hx]; [by eauto |].
    by apply (IH a' st).
Qed.

Lemma forM_ext {X St} (body body' : X → St → res St) xs st :
  (∀ x a, body x a = body' x a) → forM xs body st = forM xs body' st.
Proof.
  intros Hext. revert st. induction xs as [| x xs IH]; intros st; simpl; [done |].
  rewrite Hext. destruct (body' x st); simpl; auto.
Qed.

Lemma forM_fuel {X St} (body : X → St → res St) xs st :
  (∀ x a, body x a ≠ OutOfFuel) → forM xs body st ≠ OutOfFuel.
Proof.
  intros Hb. revert st. induction xs as [| x xs IH]; intros st; simpl; [done |].
  specialize (Hb x st). destruct (body x st); simpl; auto.
Qed.

(** ** Slices *)

Lemma at_lookup {A} (l : list A) i : 0 <= i → at_ l i = l !! Z.to_nat i.
Proof. intros. unfold at_. by rewrite decide_True. Qed.

Lemma at_Some_range {A} (l : list A) i x : at_ l i = Some x → 0 <= i < len l.
Proof.
  unfold at_, len. destruct (decide (0 <= i)); [| done].
  intros H%lookup_lt_Some. lia.
Qed.

Lemma at_in_range {A} (l : list A) i : 0 <= i < len l → is_Some (at_ l i).
Proof.
  intros. rewrite at_lookup by lia. apply lookup_lt_is_Some. unfold len in *. lia.
Qed.

Lemma at_insert_eq {A} (l : list A) i x :
  0 <= i < len l → at_ (<[Z.to_nat i := x]> l) i = Some x.
Proof.
  intros. rewrite at_lookup by lia. apply list_lookup_insert_eq.
  unfold len in *. lia.
Qed.

Lemma at_insert_ne {A} (l : list A) i j x :
  0 <= i → 0 <= j → i ≠ j → at_ (<[Z.to_nat i := x]> l) j = at_ l j.
Proof.
  intros. rewrite !at_lookup by lia. apply list_lookup_insert_ne. lia.
Qed.

Lemma len_insert {A} (l : list A) i x : len (<[i := x]> l) = len l.
Proof. unfold len. by rewrite length_insert. Qed.

Lemma len_replicate {A} n (x : A) : 0 <= n → len (replicate (Z.to_nat n) x) = n.
Proof. intros. unfold len. rewrite length_replicate. lia. Qed.

Lemma index_Ok {A} (l : list A) i x : index l i = Ok x ↔ at_ l i = Some x.
Proof. unfold index. destruct (at_ l i); naive_solver. Qed.

Lemma elem_of_seqZ_0 n i : i ∈ seqZ 0 n ↔ 0 <= i < n.
Proof. rewrite elem_of_seqZ. lia. Qed.

Lemma seqZ_split_fresh n pre x suf :
  seqZ 0 n = pre ++ x :: suf →
  (0 <= x < n) ∧ (x ∉ pre) ∧ (∀ i, i ∈ pre → 0 <= i < n).
Proof.
  intros Heq. pose proof (NoDup_seqZ 0 n) as Hnd. rewrite Heq in Hnd.
  apply NoDup_app in Hnd as (_ & Hdisj & _).
  split; [| split].
  - apply elem_of_seqZ_0. rewrite Heq. set_solver.
  - intros Hin. apply (Hdisj x Hin). by left.
  - intros i Hi. apply elem_of_seqZ_0. rewrite Heq. set_solver.
Qed.

Lemma packedCount_pow b : 0 <= totalBits b → packedCountOf b = 2 ^ totalBits b.
Proof. intros. unfold packedCountOf. by rewrite Z.shiftl_1_l. Qed.

Lemma validMask_at b i :
  0 <= i < packedCountOf b → packedCountOf b <= 2 ^ 64 →
  at_ (validMask b) i = Some (isValidEncoding b i).
Proof.
  intros Hi Hn. rewrite at_lookup by lia. unfold validMask.
  rewrite list_lookup_fmap, lookup_seqZ_lt by lia. simpl.
  rewrite Z2Nat.id by lia. by rewrite u64_small by lia.
Qed.

(** ** The repair loop *)

Lemma firstRepair_fires invs s :
  forallb (fun inv => inv_check inv s) invs = false →
  ∃ inv, inv ∈ invs ∧ inv_check inv s = false
         ∧ firstRepair invs s = inv_repair inv s.
Proof.
  induction invs as [| inv invs IH]; simpl; [done |].
  destruct (inv_check inv s) eqn:Hc; simpl.
  - intros H. destruct (IH H) as (inv' & Hin & Hc' & Heq).
    exists inv'. split_and!; [by right | done | done].
  - intros _. exists inv. split_and!; [by left | done | done].
Qed.

Lemma repairLoop_id b sc fuel s d seen :
  allInvariantsHold b s = true → repairLoop b sc fuel s d seen = Ok (s, d).
Proof. intros H. destruct fuel; simpl; by rewrite H. Qed.

Lemma repairLoop_holds b sc fuel :
  ∀ s d seen s' d',
    repairLoop b sc fuel s d seen = Ok (s', d') → allInvariantsHold b s' = true.
Proof.
  induction fuel as [| fuel IH]; intros s d seen s' d'; simpl.
  - destruct (allInvariantsHold b s) eqn:Hh; [| done]. by intros [= <- <-].
  - destruct (allInvariantsHold b s) eqn:Hh; [by intros [= <- <-] |].
    destruct (_ || _); [done |]. apply IH.
Qed.

(** The depth test makes the fuel sufficient. *)
Lemma repairLoop_fuel b sc fuel :
  ∀ s d seen,
    (1 <= fuel)%nat → sc - d < Z.of_nat fuel →
    repairLoop b sc fuel s d seen ≠ OutOfFuel.
Proof.
  induction fuel as [| fuel IH]; intros s d seen Hf Hd; [lia |].
  simpl. destruct (allInvariantsHold b s); [done |].
  destruct (bool_decide _); simpl; [done |].
  destruct (Z.ltb_spec sc (d + 1)); [done |].
  apply IH; lia.
Qed.

Lemma repairLoop_total b s seen :
  repairLoop b (stateCountOf b) (repairFuel (stateCountOf b)) s 0 seen
  ≠ OutOfFuel.
Proof. apply repairLoop_fuel; unfold repairFuel; lia. Qed.

(** Under [repairs_closed] the loop stays among the in-domain states of the
    machine. *)
Lemma repairLoop_closed b sc fuel :
  repairs_closed b →
  ∀ p d seen s' d',
    in_domain b p →
    repairLoop b sc fuel (mkState b p) d seen = Ok (s', d') →
    ∃ q, s' = mkState b q ∧ in_domain b q.
Proof.
  intros Hcl. induction fuel as [| fuel IH]; intros p d seen s' d' Hp; simpl.
  - destruct (allInvariantsHold b _); [| done]. intros [= <- <-]. by exists p.
  - destruct (allInvariantsHold b (mkState b p)) eqn:Hh.
    { intros [= <- <-]. by exists p. }
    destruct (firstRepair_fires _ _ Hh) as (inv & Hin & Hc & Heq).
    destruct (Hcl inv p Hin Hp Hc) as (q & Hq & Hqd).
    unfold applyFirstRepair. rewrite Heq, Hq.
    destruct (_ || _); [done |]. by apply IH.
Qed.

(** ** The normal-form table *)

Lemma nf_entry_insert_ne b nf i j x :
  0 <= i → 0 <= j → i ≠ j →
  nf_entry b nf j → nf_entry b (<[Z.to_nat i := x]> nf) j.
Proof.
  intros. unfold nf_entry in *. by rewrite at_insert_ne.
Qed.

Section NormalForms.
Variable b : Builder.
Hypothesis Hbits0 : 0 <= totalBits b.
Hypothesis Hbits : totalBits b <= 20.

Lemma packedCount_range : 0 < (packedCountOf b) ∧ (packedCountOf b) <= 2 ^ 64 ∧ (packedCountOf b) = 2 ^ totalBits b.
Proof.
  rewrite packedCount_pow by done.
  pose proof (pow2_pos _ Hbits0).
  assert (2 ^ totalBits b <= 2 ^ 64) by (apply pow2_le_mono; lia). lia.
Qed.

Lemma nfLoop_spec nf mr :
  forM (seqZ 0 (packedCountOf b)) (nfBody b (stateCountOf b) (validMask b))
       (replicate (Z.to_nat (packedCountOf b)) 0, 0) = Ok (nf, mr) →
  len nf = (packedCountOf b) ∧ ∀ i, 0 <= i < (packedCountOf b) → nf_entry b nf i.
Proof.
  destruct packedCount_range as (HN0 & HN64 & _).
  intros Hrun.
  pose (P := fun (pre : list Z) (st : list Z * Z) =>
               len st.1 = (packedCountOf b) ∧ ∀ i, i ∈ pre → nf_entry b st.1 i).
  assert (P (seqZ 0 (packedCountOf b)) (nf, mr)) as [Hlen Hall].
  { eapply (forM_inv P); [| | exact Hrun].
    - split; [apply len_replicate; lia |]. intros i Hi. by apply elem_of_nil in Hi.
    - intros pre x suf [nf0 mr0] [nf1 mr1] Hxs [Hlen0 Hpre] Hbody.
      simpl in Hlen0, Hpre.
      destruct (seqZ_split_fresh _ _ _ _ Hxs) as (Hx & Hfresh & Hrange).
      unfold nfBody in Hbody.
      assert (index (validMask b) x = Ok (isValidEncoding b x)) as Hvalid.
      { apply index_Ok, validMask_at; lia. }
      rewrite Hvalid in Hbody. cbn [bind] in Hbody.
      rewrite (u64_small x) in Hbody by lia.
      assert (∀ y, len (<[Z.to_nat x := y]> nf0) = (packedCountOf b) ∧
                   ∀ i, i ∈ pre → nf_entry b (<[Z.to_nat x := y]> nf0) i)
        as Hkeep.
      { intros y. split; [by rewrite len_insert |]. intros i Hi.
        apply nf_entry_insert_ne; [lia | | | by apply Hpre].
        - specialize (Hrange i Hi). lia.
        - intros ->. done. }
      destruct (isValidEncoding b x) eqn:Hv; cbn [negb] in Hbody.
      + destruct (repairLoop _ _ _ _ _ _) as [[s d] | | |] eqn:Hloop;
          cbn [bind] in Hbody; try done.
        injection Hbody as <- <-. simpl.
        destruct (Hkeep (packed s)) as [Hl Hk]. split; [done |].
        intros i Hi. apply elem_of_app in Hi as [Hi | Hi]; [by apply Hk |].
        apply list_elem_of_singleton in Hi as ->.
        unfold nf_entry. rewrite Hv. exists s, d. split; [done |].
        apply at_insert_eq. lia.
      + injection Hbody as <- <-. simpl.
        destruct (Hkeep x) as [Hl Hk]. split; [done |].
        intros i Hi. apply elem_of_app in Hi as [Hi | Hi]; [by apply Hk |].
        apply list_elem_of_singleton in Hi as ->.
        unfold nf_entry. rewrite Hv. apply at_insert_eq. lia. }
  split; [done |]. intros i Hi. by apply Hall, elem_of_seqZ_0.
Qed.

Lemma computeNormalForms_spec nf mr :
  computeNormalForms b (packedCountOf b) (stateCountOf b) (validMask b) = Ok (nf, mr) →
  len nf = (packedCountOf b) ∧ ∀ i, 0 <= i < (packedCountOf b) → nf_entry b nf i.
Proof.
  unfold computeNormalForms. intros Hrun.
  destruct (forM (seqZ 0 (packedCountOf b)) (nfBody _ _ _) _) as [[nf0 mr0] | | |] eqn:Hloop;
    simpl in Hrun; try done.
  destruct (forM (seqZ 0 (packedCountOf b)) (idemBody _ _ _) _) as [[] | | |];
    simpl in Hrun; try done.
  injection Hrun as <- <-. by apply (nfLoop_spec _ mr0).
Qed.
End NormalForms.

(** ** The step tables *)

Lemma step_entry_insert_ne b nf row ev i j x :
  0 <= i → 0 <= j → i ≠ j →
  step_entry b nf row ev j → step_entry b nf (<[Z.to_nat i := x]> row) ev j.
Proof.
  intros. unfold step_entry in *. by rewrite at_insert_ne.
Qed.

Section StepTables.
Variable b : Builder.
Hypothesis Hbits0 : 0 <= totalBits b.
Hypothesis Hbits : totalBits b <= 20.
Variable nf : list Z.

Lemma stepRow_spec ev row :
  forM (seqZ 0 (packedCountOf b)) (stepBody b (validMask b) nf ev)
       (replicate (Z.to_nat (packedCountOf b)) 0) = Ok row →
  len row = packedCountOf b
  ∧ ∀ i, 0 <= i < packedCountOf b → step_entry b nf row ev i.
Proof.
  destruct (packedCount_range b Hbits0 Hbits) as (HN0 & HN64 & _).
  intros Hrun.
  pose (P := fun (pre : list Z) (row : list Z) =>
               len row = packedCountOf b
               ∧ (∀ i, i ∈ pre → step_entry b nf row ev i)
               ∧ (∀ i, 0 <= i < packedCountOf b → i ∉ pre →
                    at_ row i = Some 0)).
  assert (P (seqZ 0 (packedCountOf b)) row) as (Hlen & Hall & _).
  { eapply (forM_inv P); [| | exact Hrun].
    - split_and!.
      + apply len_replicate; lia.
      + intros i Hi. by apply elem_of_nil in Hi.
      + intros i Hi _. rewrite at_lookup by lia.
        apply lookup_replicate_2. lia.
    - intros pre x suf row0 row1 Hxs (Hlen0 & Hpre & Hrest) Hbody.
      destruct (seqZ_split_fresh _ _ _ _ Hxs) as (Hx & Hfresh & Hrange).
      unfold stepBody in Hbody.
      assert (index (validMask b) x = Ok (isValidEncoding b x)) as Hvalid.
      { apply index_Ok, validMask_at; lia. }
      rewrite Hvalid in Hbody. cbn [bind] in Hbody.
      rewrite (u64_small x) in Hbody by lia.
      destruct (isValidEncoding b x) eqn:Hv.
      + bind_ok Hbody. injection Hbody as <-.
        apply index_Ok in E. split_and!.
        * by rewrite len_insert.
        * intros i Hi. apply elem_of_app in Hi as [Hi | Hi].
          -- apply step_entry_insert_ne; [lia | | | by apply Hpre].
             ++ specialize (Hrange i Hi). lia.
             ++ by intros ->.
          -- apply list_elem_of_singleton in Hi as ->.
             unfold step_entry. rewrite Hv. exists a. split; [done |].
             apply at_insert_eq. lia.
        * intros i Hi Hnot. rewrite at_insert_ne; [| lia | lia |].
          -- apply Hrest; [done |]. intros Hin. apply Hnot, elem_of_app. by left.
          -- intros ->. apply Hnot, elem_of_app. right. by left.
      + injection Hbody as <-. split_and!; [done | |].
        * intros i Hi. apply elem_of_app in Hi as [Hi | Hi]; [by apply Hpre |].
          apply list_elem_of_singleton in Hi as ->.
          unfold step_entry. rewrite Hv. by apply Hrest.
        * intros i Hi Hnot. apply Hrest; [done |].
          intros Hin. apply Hnot, elem_of_app. by left. }
  split; [done |]. intros i Hi. by apply Hall, elem_of_seqZ_0.
Qed.

Lemma computeStepTables_spec stp :
  computeStepTables b (packedCountOf b) (validMask b) nf = Ok stp →
  length stp = length (events b)
  ∧ ∀ k ev, events b !! k = Some ev →
      ∃ row, stp !! k = Some row
             ∧ len row = packedCountOf b
             ∧ ∀ i, 0 <= i < packedCountOf b → step_entry b nf row ev i.
Proof.
  unfold computeStepTables. intros Hrun.
  pose (P := fun (pre : list eventDef) (stp : list (list Z)) =>
               length stp = length pre
               ∧ ∀ k ev, pre !! k = Some ev →
                   ∃ row, stp !! k = Some row
                          ∧ len row = packedCountOf b
                          ∧ ∀ i, 0 <= i < packedCountOf b →
                              step_entry b nf row ev i).
  apply (forM_inv P) in Hrun; [done | |].
  - split; [done |]. intros k ev Hk. by rewrite lookup_nil in Hk.
  - intros pre ev suf stp0 stp1 _ [Hlen Hpre] Hbody.
    bind_ok Hbody. injection Hbody as <-.
    apply stepRow_spec in E as [Hrow Hentries].
    split; [rewrite !length_app; simpl; lia |].
    intros k ev' Hk. apply lookup_app_Some in Hk as [Hk | [Hge Hk]].
    + destruct (Hpre k ev' Hk) as (row & Hr & ?).
      exists row. split; [| done]. by apply lookup_app_l_Some.
    + apply list_lookup_singleton_Some in Hk as [Hk0 <-].
      exists a. split; [| done].
      rewrite lookup_app_r by lia.
      replace (k - length stp0)%nat with 0%nat by lia. done.
Qed.
End StepTables.

(** ** The commutativity check *)

Lemma ccBody_Ok b stp pd pb i j s a a' :
  0 <= s < packedCountOf b → packedCountOf b <= 2 ^ 64 →
  isValidEncoding b s = true →
  ccBody b (validMask b) stp pd pb i j s a = Ok a' →
  ∃ si sj x, stepAt stp i s = Ok si ∧ stepAt stp j si = Ok x
             ∧ stepAt stp j s = Ok sj ∧ stepAt stp i sj = Ok x.
Proof.
  intros Hs HN Hv Hbody. unfold ccBody in Hbody.
  assert (index (validMask b) s = Ok true) as Hvalid.
  { rewrite <- Hv. apply index_Ok, validMask_at; lia. }
  rewrite Hvalid in Hbody. cbn [bind negb] in Hbody.
  bind_ok Hbody.
  destruct (Z.eqb_spec a1 a3) as [-> | Hne]; simpl in Hbody.
  - by exists a0, a2, a3.
  - bind_ok Hbody. done.
Qed.

Lemma verifyCC_spec b stp pd pb :
  0 <= totalBits b <= 20 →
  verifyCC b (packedCountOf b) (validMask b) stp = Ok (pd, pb) →
  ∀ i j, (i, j) ∈ pairsToCheck b →
    eventsDisjoint b i j = Some true
    ∨ (eventsDisjoint b i j = Some false
       ∧ ∀ s, 0 <= s < packedCountOf b → isValidEncoding b s = true →
           ∃ si sj x, stepAt stp i s = Ok si ∧ stepAt stp j si = Ok x
                      ∧ stepAt stp j s = Ok sj ∧ stepAt stp i sj = Ok x).
Proof.
  intros [Hb0 Hb] Hrun i j Hin.
  destruct (packedCount_range b Hb0 Hb) as (HN0 & HN64 & _).
  destruct (forM_Ok_each _ _ _ _ Hrun _ Hin) as ([pd0 pb0] & [pd1 pb1] & Hbody).
  unfold pairBody in Hbody.
  destruct (eventsDisjoint b i j) as [[] |]; [by left | | done].
  right. split; [done |]. intros s Hs Hv.
  bind_ok Hbody.
  assert (s ∈ seqZ 0 (packedCountOf b)) as Hsin by by apply elem_of_seqZ_0.
  destruct (forM_Ok_each _ _ _ _ E _ Hsin) as (u & u' & Hcc).
  by apply ccBody_Ok in Hcc.
Qed.

(** ** Build *)

Lemma Build_Built b m r :
  Build b = Built m r →
  totalBits b <= 20
  ∧ m_vars m = b_vars b
  ∧ m_events m = eventsMap (events b)
  ∧ ∃ mr pd pb,
      computeNormalForms b (packedCountOf b) (stateCountOf b) (validMask b)
      = Ok (nf m, mr)
      ∧ computeStepTables b (packedCountOf b) (validMask b) (nf m) = Ok (step m)
      ∧ verifyCC b (packedCountOf b) (validMask b) (step m) = Ok (pd, pb)
      ∧ r = withCC (withWFC (initReport b) mr) true pd pb None.
Proof.
  unfold Build. intros HB.
  destruct (Z.ltb_spec 20 (totalBits b)); [done |].
  destruct (_ <? _); [done |].
  destruct (computeNormalForms _ _ _ _) as [[nf0 mr] | e | |] eqn:Hnf;
    [| by destruct e | done | done].
  destruct (computeStepTables _ _ _ _) as [stp | | |] eqn:Hst; try done.
  destruct (verifyCC _ _ _ _) as [[pd pb] | e | |] eqn:Hcc;
    [| by destruct e | done | done].
  injection HB as <- <-. simpl. split_and!; try done. by exists mr, pd, pb.
Qed.

(** The fuel of the model never runs out: [Build] returns, fails or panics. *)
Lemma Build_total b : Build b ≠ BuildOutOfFuel.
Proof.
  unfold Build.
  destruct (_ <? _); [done |]. destruct (_ <? _); [done |].
  destruct (computeNormalForms _ _ _ _) as [[nf0 mr] | e | |] eqn:Hnf;
    [| by destruct e | done |].
  - destruct (computeStepTables _ _ _ _) as [stp | | |] eqn:Hst; try done.
    + destruct (verifyCC _ _ _ _) as [[pd pb] | e | |] eqn:Hcc;
        [done | by destruct e | done |].
      exfalso. revert Hcc. apply forM_fuel. intros [i j] [pd pb].
      unfold pairBody. destruct (eventsDisjoint b i j) as [[] |]; try done.
      destruct (forM _ _ _) eqn:Hin; try done. exfalso. revert Hin.
      apply forM_fuel. intros s u. unfold ccBody. no_fuel.
    + exfalso. revert Hst. apply forM_fuel. intros ev stp.
      destruct (forM _ _ _) eqn:Hin; try done. exfalso. revert Hin.
      apply forM_fuel. intros s u. unfold stepBody. no_fuel.
  - exfalso. revert Hnf. unfold computeNormalForms.
    destruct (forM _ (nfBody _ _ _) _) as [[nf0 mr] | | |] eqn:Hin;
      cbn [bind]; try done.
    + destruct (forM _ (idemBody _ _ _) _) as [[] | | |] eqn:Hin2;
        cbn [bind]; try done.
      intros _. revert Hin2. apply forM_fuel. intros s u. unfold idemBody. no_fuel.
    + intros _. revert Hin. apply forM_fuel. intros s [nf1 mr1]. unfold nfBody.
      unfold index. destruct (at_ _ _); cbn [bind]; [| done].
      destruct (negb _); [done |].
      pose proof (repairLoop_total b (mkState b (u64 s)) {[u64 s]}).
      destruct (repairLoop _ _ _ _ _ _) as [[] | | |]; cbn [bind]; done.
Qed.

(** ** Tables of a built machine *)

Section Built.
Variables (b : Builder) (m : Machine) (r : Report).
Hypothesis HB : Build b = Built m r.

Lemma in_domain_range i :
  in_domain b i → 0 <= totalBits b <= 20 ∧ 0 <= i < packedCountOf b.
Proof.
  intros [Hi _]. destruct (Build_Built _ _ _ HB) as (Hb & _).
  destruct (Z.lt_ge_cases (totalBits b) 0).
  - rewrite Z.pow_neg_r in Hi by done. lia.
  - rewrite packedCount_pow by lia. lia.
Qed.

Lemma Built_nf_len : 0 <= totalBits b → len (nf m) = packedCountOf b.
Proof.
  intros Hb0. destruct (Build_Built _ _ _ HB) as (Hb & _ & _ & mr & pd & pb & Hnf & _).
  by apply computeNormalForms_spec in Hnf as [Hlen _].
Qed.

Lemma Built_nf_entry i :
  0 <= totalBits b → 0 <= i < packedCountOf b → nf_entry b (nf m) i.
Proof.
  intros Hb0 Hi.
  destruct (Build_Built _ _ _ HB) as (Hb & _ & _ & mr & pd & pb & Hnf & _).
  apply computeNormalForms_spec in Hnf as [_ Hall]; [by apply Hall | done..].
Qed.

(** An out-of-domain id of the address space is its own normal form. *)
Lemma Built_nf_padding i :
  0 <= i < 2 ^ totalBits b → isValidEncoding b i = false →
  at_ (nf m) i = Some i.
Proof.
  intros Hi Hv.
  assert (0 <= totalBits b) as Hb0.
  { destruct (Z.lt_ge_cases (totalBits b) 0); [| done].
    rewrite Z.pow_neg_r in Hi by done. lia. }
  rewrite <- packedCount_pow in Hi by done.
  pose proof (Built_nf_entry i Hb0 Hi) as He.
  unfold nf_entry in He. by rewrite Hv in He.
Qed.

(** An in-domain id has the end of its repair loop as normal form. *)
Lemma Built_nf_loop i :
  in_domain b i →
  ∃ s d,
    repairLoop b (stateCountOf b) (repairFuel (stateCountOf b))
               (mkState b i) 0 {[i]} = Ok (s, d)
    ∧ allInvariantsHold b s = true
    ∧ at_ (nf m) i = Some (packed s).
Proof.
  intros Hi. destruct (in_domain_range i Hi) as [[Hb0 _] Hr].
  pose proof (Built_nf_entry i Hb0 Hr) as He.
  unfold nf_entry in He. destruct Hi as [_ Hv]. rewrite Hv in He.
  destruct He as (s & d & Hloop & Hat). exists s, d.
  split_and!; [done | by eapply repairLoop_holds | done].
Qed.

Lemma Built_nf_valid i :
  in_domain b i → allInvariantsHold b (mkState b i) = true →
  at_ (nf m) i = Some i.
Proof.
  intros Hi Hh. destruct (Built_nf_loop i Hi) as (s & d & Hloop & _ & Hat).
  rewrite repairLoop_id in Hloop by done. by simplify_eq.
Qed.

(** Under [repairs_closed] the normal form of an in-domain id is an
    in-domain id on which every invariant holds. *)
Lemma Built_nf_closed i :
  repairs_closed b → in_domain b i →
  ∃ q, at_ (nf m) i = Some q ∧ in_domain b q
       ∧ allInvariantsHold b (mkState b q) = true.
Proof.
  intros Hcl Hi. destruct (Built_nf_loop i Hi) as (s & d & Hloop & Hh & Hat).
  destruct (repairLoop_closed _ _ _ Hcl _ _ _ _ _ Hi Hloop) as (q & -> & Hq).
  by exists q.
Qed.

(** The step entry of an event at an in-domain id. *)
Lemma Built_step_entry ei ev i :
  at_ (events b) ei = Some ev → in_domain b i →
  ∃ x, at_ (nf m) (packed (clampState b (applyEvent ev (mkState b i)))) = Some x
       ∧ stepAt (step m) ei i = Ok x.
Proof.
  intros Hev Hi. destruct (in_domain_range i Hi) as [[Hb0 Hb] Hr].
  destruct (Build_Built _ _ _ HB) as (_ & _ & _ & mr & pd & pb & _ & Hst & _).
  apply computeStepTables_spec in Hst as [_ Hrows]; [| done..].
  pose proof (at_Some_range _ _ _ Hev) as Hei.
  rewrite at_lookup in Hev by lia.
  destruct (Hrows _ _ Hev) as (row & Hrow & _ & Hentries).
  specialize (Hentries i Hr). unfold step_entry in Hentries.
  destruct Hi as [_ Hv]. rewrite Hv in Hentries.
  destruct Hentries as (x & Hnf & Hat). exists x. split; [done |].
  unfold stepAt, index. rewrite at_lookup by lia. rewrite Hrow. simpl.
  by rewrite Hat.
Qed.
End Built.

(** ** The State interface *)

Lemma i64_add_l a c : i64 (i64 a + c) = i64 (a + c).
Proof.
  unfold i64. f_equal.
  replace ((a + 2 ^ 63) mod 2 ^ 64 - 2 ^ 63 + c + 2 ^ 63)
    with ((a + 2 ^ 63) mod 2 ^ 64 + c) by lia.
  rewrite Zplus_mod_idemp_l. f_equal. lia.
Qed.

(** Two variables of a layout are the same variable or have disjoint
    fields. *)
Lemma layout_disjoint vs :
  ∀ off total, 0 <= off → layout_okb vs off total = true →
    ∀ v w, v ∈ vs → w ∈ vs →
      v = w ∨ v_offset v + v_bits v <= v_offset w
      ∨ v_offset w + v_bits w <= v_offset v.
Proof.
  induction vs as [| h vs IH]; intros off total Hoff Hl v w Hv Hw.
  - by apply elem_of_nil in Hv.
  - simpl in Hl. apply andb_true_iff in Hl as [Hh Hvs].
    pose proof (var_okb_spec _ _ Hh) as (Ho & _ & Hb & _).
    assert (0 <= off + v_bits h) as Hoff' by lia.
    pose proof (layout_okb_vars _ _ _ Hoff' Hvs) as Hafter.
    apply elem_of_cons in Hv as [-> | Hv]; apply elem_of_cons in Hw as [-> | Hw].
    + by left.
    + right. left. destruct (Hafter w Hw). lia.
    + right. right. destruct (Hafter v Hv). lia.
    + by apply (IH _ _ Hoff' Hvs).
Qed.

Section StateAPI.
Variable b : Builder.
Hypothesis Hwf : wf_layout b.

Lemma wf_disjoint v w :
  v ∈ b_vars b → w ∈ b_vars b →
  v = w ∨ v_offset v + v_bits v <= v_offset w
  ∨ v_offset w + v_bits w <= v_offset v.
Proof.
  pose proof Hwf as Hl. unfold wf_layout in Hl.
  apply andb_true_iff in Hl as [_ Hl].
  by apply (layout_disjoint _ 0 _ (Z.le_refl 0) Hl).
Qed.

(** Writing an in-domain raw value keeps a state in-domain. *)
Lemma setRaw_in_domain s v x :
  v ∈ b_vars b → 0 <= x < v_domain v →
  in_domain b (packed s) → in_domain b (packed (setRaw s v x)).
Proof.
  intros Hv Hx [Hp Hvalid].
  pose proof (wf_layout_vars _ _ Hwf Hv) as Hvok. destruct Hvok.
  split.
  - apply setRaw_bound; lia.
  - apply isValidEncoding_spec; [done |]. intros w Hw.
    rewrite (getRaw_packed _ (setRaw s v x)) by done.
    destruct (wf_disjoint v w Hv Hw) as [<- | Hdisj].
    + rewrite getRaw_setRaw_small by lia. lia.
    + destruct (wf_layout_vars _ _ Hwf Hw) as [].
      rewrite getRaw_setRaw_other by lia.
      rewrite (getRaw_packed _ (mkState b (packed s))) by done.
      by apply isValidEncoding_spec.
Qed.

(** The value [SetInt] stores: its argument clamped into the range. *)
Lemma SetInt_raw s v val :
  v ∈ b_vars b → - 2 ^ 63 <= val < 2 ^ 63 →
  getRaw (SetInt s v val) v
  = Z.max (v_min v) (Z.min val (v_min v + v_domain v - 1)) - v_min v.
Proof.
  intros Hv Hval. destruct (wf_layout_vars _ _ Hwf Hv) as [].
  unfold SetInt.
  replace (i64 (v_min v + v_domain v) - 1)
    with (i64 (v_min v + v_domain v) + (-1)) by lia.
  rewrite i64_add_l, (i64_small (v_min v + v_domain v + -1)) by lia.
  set (val1 := if val <? v_min v then v_min v else val).
  set (val2 := if v_min v + v_domain v + -1 <? val1
               then v_min v + v_domain v + -1 else val1).
  assert (val2 = Z.max (v_min v) (Z.min val (v_min v + v_domain v - 1)))
    as Hval2.
  { unfold val2, val1. destruct (Z.ltb_spec val (v_min v)); Zbool_cases. }
  rewrite Hval2.
  set (c := Z.max _ _).
  assert (0 <= c - v_min v < v_domain v) by (unfold c; lia).
  assert (2 ^ v_bits v <= 2 ^ 63) by (apply pow2_le_mono; lia).
  rewrite (i64_small (c - v_min v)), (u64_small (c - v_min v)) by lia.
  apply getRaw_setRaw_small; lia.
Qed.

Lemma GetInt_SetInt s v val :
  v ∈ b_vars b → - 2 ^ 63 <= val < 2 ^ 63 →
  GetInt (SetInt s v val) v
  = Z.max (v_min v) (Z.min val (v_min v + v_domain v - 1)).
Proof.
  intros Hv Hval. unfold GetInt. rewrite SetInt_raw by done.
  destruct (wf_layout_vars _ _ Hwf Hv) as [].
  set (c := Z.max _ _).
  assert (v_min v <= c < v_min v + v_domain v) by (unfold c; lia).
  assert (2 ^ v_bits v <= 2 ^ 63) by (apply pow2_le_mono; lia).
  rewrite (i64_small (c - v_min v)) by lia. rewrite i64_small; lia.
Qed.

Lemma SetInt_in_domain s v val :
  v ∈ b_vars b → - 2 ^ 63 <= val < 2 ^ 63 →
  in_domain b (packed s) → in_domain b (packed (SetInt s v val)).
Proof.
  intros Hv Hval Hs. pose proof (SetInt_raw s v val Hv Hval) as Hraw.
  destruct (wf_layout_vars _ _ Hwf Hv) as [].
  unfold SetInt in *.
  set (x := u64 _) in *.
  assert (getRaw (setRaw s v x) v = Z.land x (Z.ones (v_bits v))) as Hland
    by (apply getRaw_setRaw; lia).
  assert (packed (setRaw s v x)
          = packed (setRaw s v (Z.land x (Z.ones (v_bits v))))) as ->.
  { unfold setRaw. simpl. rewrite fieldMask_ones by lia.
    by rewrite <- Z.land_assoc, Z.land_diag. }
  apply setRaw_in_domain; [done | | done]. rewrite <- Hland, Hraw. lia.
Qed.

Lemma SetBool_in_domain s v val :
  v ∈ b_vars b →
  in_domain b (packed s) → in_domain b (packed (SetBool s v val)).
Proof.
  intros Hv Hs. destruct (wf_layout_vars _ _ Hwf Hv) as [].
  unfold SetBool. destruct val; [| apply setRaw_in_domain; [done | lia | done]].
  destruct (decide (v_domain v = 1)) as [Hone | Hmany].
  - assert (v_bits v = 0) as Hzero.
    { rewrite vo_needed0. by apply bitsNeeded_spec; [lia |]. }
    assert (packed (setRaw s v 1) = packed (setRaw s v 0)) as ->.
    { unfold setRaw. simpl. rewrite fieldMask_ones by lia.
      rewrite Hzero. simpl. by rewrite Z.land_0_r. }
    apply setRaw_in_domain; [done | lia | done].
  - apply setRaw_in_domain; [done | lia | done].
Qed.

Lemma enumIndex_from_range ls val : ∀ i idx,
  enumIndex_from i ls val = Some idx → i <= idx < i + len ls.
Proof.
  induction ls as [| l ls IH]; intros i idx; simpl; [done |].
  unfold len in *. simpl length. destruct (decide (l = val)).
  - intros [= <-]. lia.
  - intros H%IH. lia.
Qed.

Lemma Set_in_domain s v val s' :
  v ∈ b_vars b → Set_ s v val = Some s' →
  in_domain b (packed s) → in_domain b (packed s').
Proof.
  intros Hv Hset Hs. destruct (wf_layout_vars _ _ Hwf Hv) as [].
  unfold Set_, enumIndex in Hset.
  destruct (enumIndex_from 0 _ _) as [idx |] eqn:Hidx; [| done].
  injection Hset as <-. apply enumIndex_from_range in Hidx.
  assert (2 ^ v_bits v <= 2 ^ 63) by (apply pow2_le_mono; lia).
  rewrite u64_small by lia. apply setRaw_in_domain; [done | lia | done].
Qed.
End StateAPI.

(** ** The declaration façade builds well-formed layouts *)

Lemma layout_okb_snoc vs v :
  ∀ off total,
    layout_okb vs off total = true → var_okb total v = true →
    total + v_bits v <= 64 →
    layout_okb (vs ++ [v]) off (total + v_bits v) = true.
Proof.
  induction vs as [| w vs IH]; intros off total Hl Hv Hfit; simpl in *.
  - apply andb_true_iff in Hl as [Heq _]. apply Z.eqb_eq in Heq as ->.
    rewrite Hv, Z.eqb_refl. simpl. by apply Z.leb_le.
  - apply andb_true_iff in Hl as [Hw Hl]. rewrite Hw. simpl. by apply IH.
Qed.

Lemma wf_NewBuilder name : wf_layout (NewBuilder name).
Proof. done. Qed.

Lemma wf_addVar b v :
  wf_layout b → var_okb (totalBits b) v = true →
  totalBits b + v_bits v <= 64 →
  wf_layout (addVar b v (v_bits v)).
Proof.
  intros Hwf Hv Hfit. pose proof (wf_layout_bits _ Hwf).
  pose proof (var_okb_spec _ _ Hv) as (_ & _ & Hb & _).
  unfold wf_layout in *. apply andb_true_iff in Hwf as [_ Hl]. simpl.
  rewrite u64_small by lia. apply andb_true_iff. split; [apply Z.leb_le; lia |].
  by apply layout_okb_snoc.
Qed.

Lemma wf_Bool b name :
  wf_layout b → totalBits b + 1 <= 64 → wf_layout (Bool_ b name).1.
Proof.
  intros Hwf Hfit. unfold Bool_. simpl.
  apply (wf_addVar b (mkVar name BoolKind _ _ 1 2 [] 0)); [done | | done].
  unfold var_okb. simpl. by rewrite Z.eqb_refl.
Qed.

Lemma wf_Enum b name values b' v :
  wf_layout b → Enum b name values = Some (b', v) →
  len values < 2 ^ 63 → totalBits b + bitsNeeded (len values) <= 64 →
  wf_layout b' ∧ v ∈ b_vars b' ∧ v_labels v = values.
Proof.
  intros Hwf Henum Hlen Hfit. unfold Enum in Henum.
  destruct (Z.ltb_spec (len values) 2); [done |].
  injection Henum as <- <-. split_and!; [| set_solver | done].
  apply (wf_addVar b (mkVar name EnumKind _ _ _ _ values 0)); [done | | done].
  unfold var_okb. simpl. rewrite !Z.eqb_refl. simpl.
  repeat (apply andb_true_iff; split);
    rewrite ?Z.leb_le, ?Z.ltb_lt; lia.
Qed.

(** [Int] records the declared range: [min] and [max = min + domain - 1]. *)
Lemma wf_Int b name lo hi b' v :
  wf_layout b → Int b name lo hi = Some (b', v) →
  - 2 ^ 63 <= lo → hi < 2 ^ 63 → hi - lo + 1 < 2 ^ 63 →
  totalBits b + bitsNeeded (hi - lo + 1) <= 64 →
  wf_layout b' ∧ v ∈ b_vars b'
  ∧ v_min v = lo ∧ v_min v + v_domain v - 1 = hi.
Proof.
  intros Hwf Hint Hlo Hhi Hdom Hfit. unfold Int in Hint.
  destruct (Z.ltb_spec hi lo); [done |].
  rewrite (i64_small (hi - lo)), (i64_small (hi - lo + 1)) in Hint by lia.
  injection Hint as <- <-. simpl. split_and!; [| set_solver | done | lia].
  apply (wf_addVar b (mkVar name IntKind _ _ _ _ [] lo)); [done | | done].
  unfold var_okb. simpl. rewrite !Z.eqb_refl. simpl.
  repeat (apply andb_true_iff; split);
    rewrite ?Z.leb_le, ?Z.ltb_lt; unfold len; simpl; lia.
Qed.

(** ** The events dictionary *)

Lemma eventsMap_fold (l : list (Z * eventDef)) :
  ∀ (acc : gmap string Z) name,
    let m := fold_left (fun (m : gmap string Z) '(i, ev) => <[ev_name ev := i]> m)
                       l acc in
    (∀ ei, m !! name = Some ei →
           acc !! name = Some ei ∨ ∃ ev, (ei, ev) ∈ l ∧ ev_name ev = name)
    ∧ (m !! name = None ↔
       acc !! name = None ∧ ∀ p, p ∈ l → ev_name p.2 ≠ name).
Proof.
  induction l as [| [i ev] l IH]; intros acc name; simpl.
  - split; [by left |]. split; [| by intros []].
    intros H. split; [done |]. intros p Hp. by apply elem_of_nil in Hp.
  - destruct (IH (<[ev_name ev := i]> acc) name) as [IH1 IH2]. split.
    + intros ei Hm. destruct (IH1 ei Hm) as [Hacc | (ev' & Hin & Hn)].
      * rewrite lookup_insert in Hacc. case_decide.
        -- injection Hacc as <-. right. exists ev. split; [by left | done].
        -- by left.
      * right. exists ev'. split; [by right | done].
    + rewrite IH2, lookup_insert. split.
      * intros [Hacc Hl]. case_decide; [done |]. split; [done |].
        intros p Hp. apply elem_of_cons in Hp as [-> | Hp]; [done | by apply Hl].
      * intros [Hacc Hl]. split.
        -- case_decide as Hn; [| done]. by destruct (Hl (i, ev) ltac:(by left)).
        -- intros p Hp. apply Hl. by right.
Qed.

Lemma zip_seqZ_lookup {A} (l : list A) i x :
  (i, x) ∈ zip (seqZ 0 (len l)) l → at_ l i = Some x.
Proof.
  intros Hin. apply list_elem_of_lookup in Hin as [k Hk].
  apply lookup_zip_with_Some in Hk as (i' & x' & [= <- <-] & Hi & Hx).
  apply lookup_seqZ in Hi as [-> _]. rewrite at_lookup by lia.
  by rewrite Z.add_0_l, Nat2Z.id.
Qed.

(** The dictionary maps a name to the index of an event of that name. *)
Lemma eventsMap_Some evs name ei :
  eventsMap evs !! name = Some ei →
  ∃ ev, at_ evs ei = Some ev ∧ ev_name ev = name.
Proof.
  intros Hm. unfold eventsMap in Hm.
  destruct (eventsMap_fold (zip (seqZ 0 (len evs)) evs) ∅ name) as [H1 _].
  destruct (H1 ei Hm) as [Hempty | (ev & Hin & Hn)]; [by rewrite lookup_empty in Hempty |].
  exists ev. split; [by apply zip_seqZ_lookup | done].
Qed.

(** A name is absent from the dictionary exactly when no event has it. *)
Lemma eventsMap_None evs name :
  eventsMap evs !! name = None ↔ ∀ ev, ev ∈ evs → ev_name ev ≠ name.
Proof.
  unfold eventsMap.
  destruct (eventsMap_fold (zip (seqZ 0 (len evs)) evs) ∅ name) as [_ H2].
  simpl in H2. rewrite H2, lookup_empty. split.
  - intros [_ Hall] ev Hev. apply list_elem_of_lookup in Hev as [k Hk].
    apply (Hall (Z.of_nat k, ev)). apply list_elem_of_lookup. exists k.
    apply lookup_zip_with_Some. exists (Z.of_nat k), ev. split_and!; [done | | done].
    apply lookup_seqZ. split; [lia |]. apply lookup_lt_Some in Hk. unfold len. lia.
  - intros Hall. split; [done |]. intros [i ev] Hp. simpl.
    apply Hall. apply zip_seqZ_lookup in Hp. unfold at_ in Hp.
    case_decide; [| done]. by apply list_elem_of_lookup_2 in Hp.
Qed.

(** ** Event footprints *)

Lemma mark_all_lookup (l : list Z) :
  ∀ (m : gmap Z bool) v,
    default false (fold_left (fun m vi => <[vi := true]> m) l m !! v)
    = bool_decide (v ∈ l) || default false (m !! v).
Proof.
  induction l as [| x l IH]; intros m v; cbn [fold_left].
  - rewrite bool_decide_eq_false_2; [done |]. apply not_elem_of_nil.
  - rewrite IH, lookup_insert. case_decide as Hx.
    + subst. simpl. rewrite orb_true_r.
      rewrite (bool_decide_eq_true_2 (v ∈ v :: l)); [done | by left].
    + destruct (default false (m !! v)); [by rewrite !orb_true_r |].
      rewrite !orb_false_r. apply bool_decide_ext.
      rewrite elem_of_cons. split; [by right | intros [Heq | Hl]; [congruence | done]].
Qed.

Lemma overlaps_spec (writes footprint : list Z) :
  existsb
    (fun vi => default false
                 (fold_left (fun m vi => <[vi := true]> m) writes
                            (∅ : gmap Z bool) !! vi))
    footprint = true
  ↔ ∃ w, w ∈ footprint ∧ w ∈ writes.
Proof.
  rewrite existsb_exists. split.
  - intros (w & Hin & Hw). exists w. split; [by apply list_elem_of_In |].
    rewrite mark_all_lookup, lookup_empty, orb_false_r in Hw.
    by apply bool_decide_eq_true in Hw.
  - intros (w & Hin & Hw). exists w. split; [by apply list_elem_of_In |].
    rewrite mark_all_lookup, lookup_empty, orb_false_r.
    by apply bool_decide_eq_true.
Qed.

Lemma footprint_fold (writes : list Z) (invs : list invariantDef) :
  ∀ (acc : gmap Z bool) v,
    default false
      (fold_left
         (fun (fp : gmap Z bool) inv =>
            if existsb
                 (fun vi => default false
                              (fold_left (fun m vi => <[vi := true]> m) writes
                                         (∅ : gmap Z bool) !! vi))
                 (inv_footprint inv)
            then fold_left (fun m vi => <[vi := true]> m) (inv_footprint inv) fp
            else fp)
         invs acc !! v) = true
    ↔ default false (acc !! v) = true
      ∨ ∃ inv, inv ∈ invs ∧ v ∈ inv_footprint inv
               ∧ ∃ w, w ∈ inv_footprint inv ∧ w ∈ writes.
Proof.
  induction invs as [| inv invs IH]; intros acc v; simpl.
  - split; [by left |]. intros [H | (inv & Hin & _)]; [done |].
    by apply elem_of_nil in Hin.
  - rewrite IH. destruct (existsb _ (inv_footprint inv)) eqn:Hov.
    + apply overlaps_spec in Hov. rewrite mark_all_lookup, orb_true_iff.
      rewrite bool_decide_eq_true. split.
      * intros [[Hv | Hacc] | (inv' & Hin & Hv & Hw)].
        -- right. exists inv. split_and!; [by left | done | done].
        -- by left.
        -- right. exists inv'. split_and!; [by right | done | done].
      * intros [Hacc | (inv' & Hin & Hv & Hw)]; [by left; right |].
        apply elem_of_cons in Hin as [-> | Hin]; [by left; left |].
        right. by exists inv'.
    + split.
      * intros [Hacc | (inv' & Hin & Hv & Hw)]; [by left |].
        right. exists inv'. split_and!; [by right | done | done].
      * intros [Hacc | (inv' & Hin & Hv & Hw)]; [by left |].
        apply elem_of_cons in Hin as [-> | Hin]; [| right; by exists inv'].
        apply overlaps_spec in Hw. congruence.
Qed.

(** ** The example declarations *)

Example declare_counter_eq : declare_counter = Some counterB.
Proof. reflexivity. Qed.

Example declare_flag_eq : declare_flag = Some flagB.
Proof. reflexivity. Qed.

Example declare_level_eq : declare_level = Some levelB.
Proof. reflexivity. Qed.

Example declare_alarm_eq : declare_alarm = Some alarmB.
Proof. reflexivity. Qed.

Lemma counterB_wf : wf_layout counterB.
Proof. reflexivity. Qed.

Lemma counterB_built :
  Build counterB = Built (machineOf counterB) (reportOf counterB).
Proof. vm_compute. reflexivity. Qed.

(** The only repair of [counterB] resets the counter, which is in-domain. *)
Lemma counterB_closed : repairs_closed counterB.
Proof.
  intros inv p Hin Hp Hc. apply list_elem_of_singleton in Hin as ->.
  exists 0. split; [| by vm_compute].
  destruct Hp as [Hp _]. change (2 ^ totalBits counterB) with 8 in Hp.
  assert (p = 0 ∨ p = 1 ∨ p = 2 ∨ p = 3 ∨ p = 4 ∨ p = 5 ∨ p = 6 ∨ p = 7)
    as Hcases by lia.
  destruct Hcases as [-> | [-> | [-> | [-> | [-> | [-> | [-> | ->]]]]]]];
    reflexivity.
Qed.

(** * The claims *)

(** C6. Repair is the identity on valid states: in the normal-form table of
    a built machine every in-domain state on which every invariant check is
    true is its own entry, [NF[s] = s]; and [IsValid s] returns true exactly
    when [NF[s.id] = s.id]. *)
Theorem C6_valid_states_are_normal (b : Builder) (m : Machine) (r : Report) :
  Build b = Built m r →
  (∀ i, in_domain b i → allInvariantsHold b (mkState b i) = true →
        at_ (nf m) i = Some i)
  ∧ (∀ s, IsValid m s = Some true ↔ at_ (nf m) (packed s) = Some (packed s)).
Proof.
  intros HB. split.
  - intros i Hi Hh. by apply (Built_nf_valid b m r).
  - intros s. unfold IsValid. destruct (at_ (nf m) (packed s)) as [x |]; [| done].
    split.
    + intros [= Heq%Z.eqb_eq]. by subst.
    + intros [= ->]. by rewrite Z.eqb_refl.
Qed.

Lemma C6_witness :
  at_ (nf (machineOf counterB)) 2 = Some 2
  ∧ IsValid (machineOf counterB) (mkState counterB 2) = Some true.
Proof.
  destruct (C6_valid_states_are_normal counterB (machineOf counterB)
              (reportOf counterB)) as [Hnf Hvalid].
  - vm_compute. reflexivity.
  - assert (at_ (nf (machineOf counterB)) 2 = Some 2) as H2.
    { apply Hnf; [| reflexivity]. split; [| reflexivity]. vm_compute.
      split; [discriminate | reflexivity]. }
    split; [exact H2 |]. apply Hvalid. exact H2.
Defined.

(** C5, as amended. Normalization is idempotent when every repair, fired
    on an in-domain state of the machine, returns an in-domain state of the
    machine ([repairs_closed]): then, in a built machine, for every id of
    the padded address space (in-domain or not) [NF[NF[s]] = NF[s]]. *)
Theorem C5_normalization_idempotent (b : Builder) (m : Machine) (r : Report) :
  repairs_closed b → Build b = Built m r →
  ∀ i, 0 <= i < 2 ^ totalBits b →
    ∃ x, at_ (nf m) i = Some x ∧ at_ (nf m) x = Some x.
Proof.
  intros Hcl HB i Hi.
  destruct (isValidEncoding b i) eqn:Hv.
  - destruct (Built_nf_closed b m r HB i Hcl) as (q & Hq & Hqd & Hqh); [done |].
    exists q. split; [done |]. by apply (Built_nf_valid b m r).
  - exists i. split; by apply (Built_nf_padding b m r).
Qed.

Lemma C5_witness :
  ∃ x, at_ (nf (machineOf counterB)) 4 = Some x
       ∧ at_ (nf (machineOf counterB)) x = Some x.
Proof.
  apply (C5_normalization_idempotent counterB (machineOf counterB)
           (reportOf counterB)).
  - exact counterB_closed.
  - vm_compute. reflexivity.
  - vm_compute. split; [discriminate | reflexivity].
Defined.

(** C5, the claim as stated fails: [strayB] builds, its repair sends the
    in-domain state 1 to the id 32 outside the address space, [Build] stores
    that id as the normal form, and [NF[NF[1]]] is an index out of range. *)
Lemma C5_counterexample :
  Build strayB = Built (machineOf strayB) (reportOf strayB)
  ∧ nf (machineOf strayB) = [0; 32]
  ∧ in_domain strayB 1
  ∧ at_ (nf (machineOf strayB)) 1 = Some 32
  ∧ at_ (nf (machineOf strayB)) 32 = None
  ∧ Normalize (machineOf strayB) (mkState strayB 1) = Some (mkState strayB 32)
  ∧ Normalize (machineOf strayB) (mkState strayB 32) = None.
Proof.
  split_and!.
  - vm_compute. reflexivity.
  - vm_compute. reflexivity.
  - split; [| reflexivity]. vm_compute. split; [discriminate | reflexivity].
  - vm_compute. reflexivity.
  - vm_compute. reflexivity.
  - vm_compute. reflexivity.
  - vm_compute. reflexivity.
Qed.

(** C4, as amended. Step lands valid when the layout is well formed and
    every repair, fired on an in-domain state of the machine, returns an
    in-domain state of the machine ([repairs_closed]): then, in a built
    machine, for every event and every in-domain state on which every
    invariant check holds, the step-table entry is again an in-domain state
    on which every invariant check holds; so [IsValid] is true of the state
    [Apply] returns from a valid state. *)
Theorem C4_step_lands_valid (b : Builder) (m : Machine) (r : Report) :
  wf_layout b → repairs_closed b → Build b = Built m r →
  (∀ ei ev i,
      at_ (events b) ei = Some ev →
      in_domain b i → allInvariantsHold b (mkState b i) = true →
      ∃ x, stepAt (step m) ei i = Ok x ∧ in_domain b x
           ∧ allInvariantsHold b (mkState b x) = true)
  ∧ (∀ s event s',
      in_domain b (packed s) →
      allInvariantsHold b (mkState b (packed s)) = true →
      Apply m s event = Applied s' →
      in_domain b (packed s') ∧ allInvariantsHold b s' = true
      ∧ IsValid m s' = Some true).
Proof.
  intros Hwf Hcl HB.
  assert (∀ ei ev i,
             at_ (events b) ei = Some ev → in_domain b i →
             ∃ x, stepAt (step m) ei i = Ok x ∧ in_domain b x
                  ∧ allInvariantsHold b (mkState b x) = true) as Hstep.
  { intros ei ev i Hev Hi.
    destruct (Built_step_entry b m r HB ei ev i Hev Hi) as (x & Hnf & Hst).
    exists x. split; [done |].
    set (post := clampState b (applyEvent ev (mkState b i))) in *.
    assert (in_domain b (packed post)) as Hpost.
    { split; [| by apply clampState_valid].
      destruct (in_domain_range b m r HB i Hi) as [[Hb0 _] _].
      apply at_Some_range in Hnf.
      rewrite (Built_nf_len b m r HB Hb0), packedCount_pow in Hnf by done.
      done. }
    destruct (Built_nf_closed b m r HB _ Hcl Hpost) as (q & Hq & Hqd & Hqh).
    by simplify_eq. }
  split.
  - intros ei ev i Hev Hi _. by apply (Hstep ei ev i).
  - intros s event s' Hs _ Happly. unfold Apply in Happly.
    destruct (m_events m !! event) as [ei |] eqn:Hname; [| done].
    destruct (Build_Built _ _ _ HB) as (_ & Hvars & Hevents & _).
    rewrite Hevents in Hname.
    destruct (eventsMap_Some _ _ _ Hname) as (ev & Hev & _).
    destruct (Hstep ei ev (packed s) Hev Hs) as (x & Hst & Hx & Hh).
    rewrite Hst in Happly. injection Happly as <-. rewrite Hvars. simpl.
    split_and!; [done | done |].
    unfold IsValid. simpl.
    rewrite (Built_nf_valid b m r HB x Hx Hh). by rewrite Z.eqb_refl.
Qed.

Lemma C4_witness :
  ∃ x, stepAt (step (machineOf counterB)) 0 3 = Ok x
       ∧ in_domain counterB x
       ∧ allInvariantsHold counterB (mkState counterB x) = true.
Proof.
  destruct (C4_step_lands_valid counterB (machineOf counterB)
              (reportOf counterB)) as [Hstep _].
  - reflexivity.
  - exact counterB_closed.
  - vm_compute. reflexivity.
  - apply (Hstep 0 (inc_event "inc_a") 3).
    + reflexivity.
    + split; [| reflexivity]. vm_compute. split; [discriminate | reflexivity].
    + reflexivity.
Defined.

(** C4, the claim as stated fails: [strayB] builds; from the in-domain
    state 0, on which the invariant holds, the event [raise] steps to the
    id 32, which is outside the address space, and [IsValid] on the state
    [Apply] returned is an index out of range. *)
Lemma C4_counterexample :
  Build strayB = Built (machineOf strayB) (reportOf strayB)
  ∧ step (machineOf strayB) = [[32; 32]]
  ∧ in_domain strayB 0
  ∧ allInvariantsHold strayB (mkState strayB 0) = true
  ∧ stepAt (step (machineOf strayB)) 0 0 = Ok 32
  ∧ ¬ in_domain strayB 32
  ∧ Apply (machineOf strayB) (mkState strayB 0) "raise"
    = Applied (mkState strayB 32)
  ∧ IsValid (machineOf strayB) (mkState strayB 32) = None.
Proof.
  split_and!.
  - vm_compute. reflexivity.
  - vm_compute. reflexivity.
  - split; [| reflexivity]. vm_compute. split; [discriminate | reflexivity].
  - vm_compute. reflexivity.
  - vm_compute. reflexivity.
  - intros [[_ Hlt] _]. vm_compute in Hlt. discriminate.
  - vm_compute. reflexivity.
  - vm_compute. reflexivity.
Qed.

(** C7. Clamp before normalization: in a built machine, when the guard of an
    event passes on an in-domain state, the step entry is the normal form of
    the clamped post-state of the effect, and the clamp resets every raw
    field value above [domain - 1] to [domain - 1] and leaves the others;
    and an effect that writes beyond the declared maximum through [SetInt]
    stores [domain - 1]: the value saturates, it does not wrap modulo the
    field width. *)
Theorem C7_effect_overflow_saturates (b : Builder) (m : Machine) (r : Report) :
  wf_layout b → Build b = Built m r →
  (∀ ei ev i,
      at_ (events b) ei = Some ev → in_domain b i →
      match ev_guard ev with
      | Some g => g (mkState b i) = true
      | None => True
      end →
      let post := ev_effect ev (mkState b i) in
      (∀ v, v ∈ b_vars b →
            getRaw (clampState b post) v
            = if v_domain v - 1 <? getRaw post v
              then v_domain v - 1 else getRaw post v)
      ∧ ∃ x, at_ (nf m) (packed (clampState b post)) = Some x
             ∧ stepAt (step m) ei i = Ok x)
  ∧ (∀ s v val,
      v ∈ b_vars b → v_min v + v_domain v - 1 <= val < 2 ^ 63 →
      getRaw (SetInt s v val) v = v_domain v - 1
      ∧ getRaw (clampState b (SetInt s v val)) v = v_domain v - 1).
Proof.
  intros Hwf HB. split.
  - intros ei ev i Hev Hi Hguard post. split.
    + intros v Hv. rewrite (clampState_getRaw b Hwf) by done.
      destruct (Z.ltb_spec (v_domain v - 1) (getRaw post v)); lia.
    + destruct (Built_step_entry b m r HB ei ev i Hev Hi) as (x & Hnf & Hst).
      exists x. split; [| done].
      assert (applyEvent ev (mkState b i) = post) as <-; [| done].
      unfold applyEvent, post. destruct (ev_guard ev); [by rewrite Hguard | done].
  - intros s v val Hv Hval.
    destruct (wf_layout_vars _ _ Hwf Hv) as [].
    assert (getRaw (SetInt s v val) v = v_domain v - 1) as Hraw.
    { rewrite (SetInt_raw b Hwf) by (done || lia). lia. }
    split; [done |]. rewrite (clampState_getRaw b Hwf) by done. lia.
Qed.

Lemma C7_witness :
  getRaw (SetInt (mkState counterB 4) xVar 9) xVar = 4
  ∧ getRaw (clampState counterB (SetInt (mkState counterB 4) xVar 9)) xVar = 4.
Proof.
  destruct (C7_effect_overflow_saturates counterB (machineOf counterB)
              (reportOf counterB)) as [_ Hsat].
  - reflexivity.
  - vm_compute. reflexivity.
  - apply (Hsat (mkState counterB 4) xVar 9).
    + by left.
    + vm_compute. split; [discriminate | reflexivity].
Defined.

(** C3 (as the code has it). The exhaustive check skips only ids that are
    not in-domain: it returns at once on an out-of-domain id, and it
    compares the two orders on every in-domain starting state, whether or
    not the invariants hold there.  So when [Build] succeeds, both orders of
    every pair checked by brute force agree from every in-domain state. *)
Theorem C3_cc_compares_every_in_domain_state
    (b : Builder) (m : Machine) (r : Report) :
  Build b = Built m r →
  (∀ i j s,
      (i, j) ∈ pairsToCheck b → eventsDisjoint b i j = Some false →
      in_domain b s →
      ∃ si sj x, stepAt (step m) i s = Ok si ∧ stepAt (step m) j si = Ok x
                 ∧ stepAt (step m) j s = Ok sj ∧ stepAt (step m) i sj = Ok x)
  ∧ (∀ stp pd pb i j s,
      0 <= s < 2 ^ totalBits b → isValidEncoding b s = false →
      ccBody b (validMask b) stp pd pb i j s () = Ok ()).
Proof.
  intros HB. destruct (Build_Built _ _ _ HB) as (Hb & _ & _ & mr & pd & pb & _ & _ & Hcc & _).
  split.
  - intros i j s Hin Hdis Hs.
    destruct (in_domain_range b m r HB s Hs) as [Hbits Hr].
    destruct (verifyCC_spec _ _ _ _ Hbits Hcc i j Hin) as [Htrue | [_ Hall]];
      [congruence |].
    apply Hall; [done |]. by destruct Hs.
  - intros stp pd' pb' i j s Hs Hv.
    assert (0 <= totalBits b) as Hb0.
    { destruct (Z.lt_ge_cases (totalBits b) 0); [| done].
      rewrite Z.pow_neg_r in Hs by done. lia. }
    destruct (packedCount_range b Hb0 Hb) as (_ & HN64 & HN).
    unfold ccBody.
    assert (index (validMask b) s = Ok false) as ->; [| done].
    rewrite <- Hv. apply index_Ok, validMask_at; lia.
Qed.

Lemma C3_witness :
  ∃ si sj x,
    stepAt (step (machineOf counterB)) 0 4 = Ok si
    ∧ stepAt (step (machineOf counterB)) 1 si = Ok x
    ∧ stepAt (step (machineOf counterB)) 1 4 = Ok sj
    ∧ stepAt (step (machineOf counterB)) 0 sj = Ok x.
Proof.
  destruct (C3_cc_compares_every_in_domain_state counterB
              (machineOf counterB) (reportOf counterB)) as [Hcmp _].
  - vm_compute. reflexivity.
  - apply (Hcmp 0 1 4).
    + vm_compute. by left.
    + vm_compute. reflexivity.
    + split; [| reflexivity]. vm_compute. split; [discriminate | reflexivity].
Defined.

(** C3, the claim as stated fails: in [levelB] the two orders of the only
    pair agree from every in-domain state on which the invariant holds and
    differ from the in-domain state [y = 2], on which it fails; the check is
    not skipped there and [Build] fails with the commutativity error. *)
Lemma C3_counterexample :
  computeNormalForms levelB (packedCountOf levelB) (stateCountOf levelB)
                     (validMask levelB) = Ok (levelNF, 1)
  ∧ computeStepTables levelB (packedCountOf levelB) (validMask levelB) levelNF
    = Ok levelSteps
  ∧ pairsToCheck levelB = [(0, 1)]
  ∧ eventsDisjoint levelB 0 1 = Some false
  ∧ (∀ s, in_domain levelB s →
          allInvariantsHold levelB (mkState levelB s) = true →
          bind (stepAt levelSteps 0 s) (stepAt levelSteps 1)
          = bind (stepAt levelSteps 1 s) (stepAt levelSteps 0))
  ∧ in_domain levelB 2
  ∧ allInvariantsHold levelB (mkState levelB 2) = false
  ∧ bind (stepAt levelSteps 0 2) (stepAt levelSteps 1) = Ok 1
  ∧ bind (stepAt levelSteps 1 2) (stepAt levelSteps 0) = Ok 0
  ∧ ∃ f r, Build levelB = Failed (ErrCC 0 1 f) (Some r)
           ∧ cc_State f = mkState levelB 2 ∧ CC r = false.
Proof.
  split_and!.
  - vm_compute. reflexivity.
  - vm_compute. reflexivity.
  - vm_compute. reflexivity.
  - vm_compute. reflexivity.
  - intros s [Hs Hv] Hh. change (2 ^ totalBits levelB) with 4 in Hs.
    assert (s = 0 ∨ s = 1 ∨ s = 2 ∨ s = 3) as Hcases by lia.
    destruct Hcases as [-> | [-> | [-> | ->]]]; by vm_compute in Hh, Hv |- *.
  - split; [| reflexivity]. vm_compute. split; [discriminate | reflexivity].
  - vm_compute. reflexivity.
  - vm_compute. reflexivity.
  - vm_compute. reflexivity.
  - vm_compute. eexists _, _. split_and!; reflexivity.
Qed.

(** C1, the code at the failing input [flagB]: the two events write the
    same variable and no invariant watches it, so both footprints are empty
    and the pair is discharged as disjoint; [Build] succeeds, yet from the
    valid in-domain state 0 the two orders of the pair end in different
    states. *)
Theorem C1_disjoint_discharge_is_unsound :
  Build flagB = Built (machineOf flagB) (reportOf flagB)
  ∧ pairsToCheck flagB = [(0, 1)]
  ∧ map ev_writes (events flagB) = [[0]; [0]]
  ∧ eventsDisjoint flagB 0 1 = Some true
  ∧ PairsDisjoint (reportOf flagB) = 1 ∧ PairsBrute (reportOf flagB) = 0
  ∧ in_domain flagB 0
  ∧ allInvariantsHold flagB (mkState flagB 0) = true
  ∧ bind (stepAt (step (machineOf flagB)) 0 0) (stepAt (step (machineOf flagB)) 1)
    = Ok 0
  ∧ bind (stepAt (step (machineOf flagB)) 1 0) (stepAt (step (machineOf flagB)) 0)
    = Ok 1.
Proof.
  split_and!.
  - vm_compute. reflexivity.
  - vm_compute. reflexivity.
  - vm_compute. reflexivity.
  - vm_compute. reflexivity.
  - vm_compute. reflexivity.
  - vm_compute. reflexivity.
  - split; [| reflexivity]. vm_compute. split; [discriminate | reflexivity].
  - vm_compute. reflexivity.
  - vm_compute. reflexivity.
  - vm_compute. reflexivity.
Qed.

(** C2 (as the code has it). The influence set [eventFootprint] computes is
    the union of the footprints of the invariants whose footprint overlaps
    the write set, and nothing else: it contains the footprint of every such
    invariant, and a variable of the write set belongs to it exactly when
    some invariant's footprint contains that variable. *)
Theorem C2_footprint_is_union_of_overlapping_invariants
    (b : Builder) (ei : Z) (ev : eventDef) (fp : gmap Z bool) :
  at_ (events b) ei = Some ev → eventFootprint b ei = Some fp →
  (∀ v, default false (fp !! v) = true ↔
        ∃ inv, inv ∈ invariants b ∧ v ∈ inv_footprint inv
               ∧ ∃ w, w ∈ inv_footprint inv ∧ w ∈ ev_writes ev)
  ∧ (∀ v, v ∈ ev_writes ev →
          (default false (fp !! v) = true ↔
           ∃ inv, inv ∈ invariants b ∧ v ∈ inv_footprint inv)).
Proof.
  intros Hev Hfp. unfold eventFootprint in Hfp. rewrite Hev in Hfp.
  injection Hfp as <-.
  assert (∀ v, default false
                 (fold_left
                    (fun (fp : gmap Z bool) inv =>
                       if existsb
                            (fun vi => default false
                                         (fold_left (fun m vi => <[vi := true]> m)
                                                    (ev_writes ev)
                                                    (∅ : gmap Z bool) !! vi))
                            (inv_footprint inv)
                       then fold_left (fun m vi => <[vi := true]> m)
                                      (inv_footprint inv) fp
                       else fp)
                    (invariants b) ∅ !! v) = true
               ↔ ∃ inv, inv ∈ invariants b ∧ v ∈ inv_footprint inv
                        ∧ ∃ w, w ∈ inv_footprint inv ∧ w ∈ ev_writes ev) as Hall.
  { intros v. rewrite footprint_fold, lookup_empty. simpl. split.
    - by intros [? | ?].
    - by right. }
  split; [done |]. intros v Hv. rewrite Hall. split.
  - intros (inv & Hin & Hvin & _). by exists inv.
  - intros (inv & Hin & Hvin). exists inv. split_and!; [done | done |].
    by exists v.
Qed.

Lemma C2_witness :
  default false (({[0 := true]} : gmap Z bool) !! 0) = true ↔
  ∃ inv, inv ∈ invariants counterB ∧ 0 ∈ inv_footprint inv
         ∧ ∃ w, w ∈ inv_footprint inv ∧ w ∈ ev_writes (inc_event "inc_a").
Proof.
  destruct (C2_footprint_is_union_of_overlapping_invariants counterB 0
              (inc_event "inc_a") {[0 := true]}) as [Hall _].
  - reflexivity.
  - vm_compute. reflexivity.
  - exact (Hall 0).
Defined.

(** C2, the claim as stated fails: the first event of [flagB] writes
    variable 0, and its influence set is empty. *)
Lemma C2_counterexample :
  ∃ ev fp, at_ (events flagB) 0 = Some ev ∧ 0 ∈ ev_writes ev
           ∧ eventFootprint flagB 0 = Some fp ∧ fp !! 0 = None.
Proof.
  exists (set_flag "set_true" true), ∅. split_and!.
  - reflexivity.
  - by left.
  - vm_compute. reflexivity.
  - apply lookup_empty.
Qed.

(** ** Declared footprints and the tables *)

Section Footprints.
Variables (b : Builder) (fp : invariantDef → list Z).

Lemma withFootprints_holds s :
  allInvariantsHold (withFootprints b fp) s = allInvariantsHold b s.
Proof.
  unfold allInvariantsHold, withFootprints. simpl.
  induction (invariants b) as [| inv invs IH]; simpl; [done |].
  by rewrite IH.
Qed.

Lemma withFootprints_repair s :
  applyFirstRepair (withFootprints b fp) s = applyFirstRepair b s.
Proof.
  unfold applyFirstRepair, withFootprints. simpl.
  induction (invariants b) as [| inv invs IH]; simpl; [done |].
  by rewrite IH.
Qed.

Lemma withFootprints_loop sc fuel :
  ∀ s d seen,
    repairLoop (withFootprints b fp) sc fuel s d seen
    = repairLoop b sc fuel s d seen.
Proof.
  induction fuel as [| fuel IH]; intros s d seen; simpl;
    rewrite withFootprints_holds; [done |].
  destruct (allInvariantsHold b s); [done |].
  rewrite withFootprints_repair. destruct (_ || _); [done |]. apply IH.
Qed.

Lemma withFootprints_nf :
  computeNormalForms (withFootprints b fp) (packedCountOf b)
                     (stateCountOf b) (validMask b)
  = computeNormalForms b (packedCountOf b) (stateCountOf b) (validMask b).
Proof.
  unfold computeNormalForms.
  rewrite (forM_ext (nfBody (withFootprints b fp) (stateCountOf b) (validMask b))
                    (nfBody b (stateCountOf b) (validMask b))).
  - destruct (forM _ _ _) as [[nf0 mr] | | |]; cbn [bind]; try done.
    rewrite (forM_ext (idemBody (withFootprints b fp) (validMask b) nf0)
                      (idemBody b (validMask b) nf0)); [done |].
    intros i u. unfold idemBody. destruct (index _ _); cbn [bind]; try done.
    destruct a; [| done].
    change (mkState (withFootprints b fp) (u64 i)) with (mkState b (u64 i)).
    by rewrite withFootprints_holds.
  - intros i [nf0 mr]. unfold nfBody.
    destruct (index _ _); cbn [bind]; try done.
    destruct (negb a); [done |].
    change (mkState (withFootprints b fp) (u64 i)) with (mkState b (u64 i)).
    by rewrite withFootprints_loop.
Qed.

Lemma withFootprints_step nf :
  computeStepTables (withFootprints b fp) (packedCountOf b) (validMask b) nf
  = computeStepTables b (packedCountOf b) (validMask b) nf.
Proof. reflexivity. Qed.
End Footprints.

Lemma alarmB_escapes : repair_escapes alarmB disarmed 1 alarmVar.
Proof.
  unfold repair_escapes. split_and!.
  - by left.
  - split; [| reflexivity]. vm_compute. split; [discriminate | reflexivity].
  - right. by left.
  - simpl. intros Hin. apply list_elem_of_singleton in Hin. discriminate.
  - vm_compute. discriminate.
Qed.

(** C8 (as the code has it). A repair that writes outside its footprint is
    not detected.  Registering an invariant is refused exactly when its
    check or its repair is missing, and [Build] never compares what a repair
    writes with the declared footprint: the normal-form table and the step
    tables it computes are the same whatever footprints are declared. *)
Theorem C8_footprints_are_not_enforced :
  (∀ ib, InvariantBuilder_Add ib = None ↔
         ib_check ib = None ∨ ib_repair ib = None)
  ∧ (∀ b fp,
        packedCountOf (withFootprints b fp) = packedCountOf b
        ∧ stateCountOf (withFootprints b fp) = stateCountOf b
        ∧ validMask (withFootprints b fp) = validMask b
        ∧ computeNormalForms (withFootprints b fp) (packedCountOf b)
                             (stateCountOf b) (validMask b)
          = computeNormalForms b (packedCountOf b) (stateCountOf b)
                               (validMask b)
        ∧ ∀ nf, computeStepTables (withFootprints b fp) (packedCountOf b)
                                  (validMask b) nf
                = computeStepTables b (packedCountOf b) (validMask b) nf).
Proof.
  split.
  - intros ib. unfold InvariantBuilder_Add.
    destruct (ib_check ib), (ib_repair ib); intuition congruence.
  - intros b fp. split_and!; try reflexivity. apply withFootprints_nf.
Qed.

(** C8, the claim as stated fails: [alarmB] is accepted by the façade, the
    repair of its invariant changes [alarm], which the footprint does not
    list, on the in-domain state 1, and [Build] returns a machine. *)
Lemma C8_counterexample :
  declare_alarm = Some alarmB
  ∧ repair_escapes alarmB disarmed 1 alarmVar
  ∧ Build alarmB = Built (machineOf alarmB) (reportOf alarmB)
  ∧ nf (machineOf alarmB) = [0; 2; 2; 2].
Proof.
  split_and!.
  - reflexivity.
  - exact alarmB_escapes.
  - vm_compute. reflexivity.
  - vm_compute. reflexivity.
Qed.

(** C9. [Apply] ends in the unknown-event panic exactly when the name is
    absent from the events dictionary of the machine, which for a built
    machine means that no declared event has that name; for a known name it
    returns [step[events[name]][s.packed]].  A declaration without events
    that passes the size limits and the WFC phase builds, and on the machine
    it yields every [Apply] is the unknown-event panic. *)
Theorem C9_apply_unknown_event :
  (∀ m s event, Apply m s event = UnknownEvent event ↔ m_events m !! event = None)
  ∧ (∀ m s event ei x,
        m_events m !! event = Some ei → stepAt (step m) ei (packed s) = Ok x →
        Apply m s event = Applied {| packed := x; vars := m_vars m |})
  ∧ (∀ b m r event,
        Build b = Built m r →
        (m_events m !! event = None ↔ ∀ ev, ev ∈ events b → ev_name ev ≠ event))
  ∧ (∀ b nf0 mr,
        events b = [] → independent b = [] →
        totalBits b <= 20 → stateCountOf b <= maxStateSpace →
        computeNormalForms b (packedCountOf b) (stateCountOf b) (validMask b)
        = Ok (nf0, mr) →
        ∃ m r, Build b = Built m r
               ∧ ∀ s event, Apply m s event = UnknownEvent event).
Proof.
  split_and!.
  - intros m s event. unfold Apply.
    destruct (m_events m !! event) as [ei |]; [| done].
    split; [| done]. by destruct (stepAt _ _ _).
  - intros m s event ei x Hname Hst. unfold Apply. by rewrite Hname, Hst.
  - intros b m r event HB.
    destruct (Build_Built _ _ _ HB) as (_ & _ & -> & _).
    apply eventsMap_None.
  - intros b nf0 mr Hev Hind Hbits Hcount Hnf.
    assert (verifyCC b (packedCountOf b) (validMask b) [] = Ok (0, 0)) as Hcc.
    { unfold verifyCC, pairsToCheck. rewrite Hev, Hind.
      by destruct (allIndependent b). }
    assert (computeStepTables b (packedCountOf b) (validMask b) nf0 = Ok [])
      as Hst by (unfold computeStepTables; by rewrite Hev).
    eexists _, _. split.
    + unfold Build.
      destruct (Z.ltb_spec 20 (totalBits b)); [lia |].
      destruct (Z.ltb_spec maxStateSpace (stateCountOf b)); [lia |].
      rewrite Hnf, Hst, Hcc. reflexivity.
    + intros s event. unfold Apply. cbn [m_events]. rewrite Hev.
      change (eventsMap []) with (∅ : gmap string Z). by rewrite lookup_empty.
Qed.

Lemma C9_witness :
  ∃ m r, Build idleB = Built m r
         ∧ ∀ s event, Apply m s event = UnknownEvent event.
Proof.
  destruct C9_apply_unknown_event as (_ & _ & _ & Hempty).
  apply (Hempty idleB [0; 1] 0).
  - reflexivity.
  - reflexivity.
  - vm_compute. discriminate.
  - vm_compute. discriminate.
  - vm_compute. reflexivity.
Defined.

(** C10, as amended. [SetInt] clamps its argument instead of requiring it
    in range: on a variable of a well-formed layout (its field inside the
    64-bit word, its range of fewer than [2^63] values) with displayed range
    [[min, min + domain - 1]] it stores [min] for an argument below [min],
    the maximum for one above it and the argument otherwise, and the raw
    value it writes is below the domain; and no sequence of [Set], [SetBool]
    and [SetInt] calls on the builder's variables leads from an in-domain
    state to a state that is not in-domain. *)
Theorem C10_SetInt_clamps (b : Builder) :
  wf_layout b →
  (∀ s v val,
      v ∈ b_vars b → - 2 ^ 63 <= val < 2 ^ 63 →
      GetInt (SetInt s v val) v
      = (if val <? v_min v then v_min v
         else if v_min v + v_domain v - 1 <? val then v_min v + v_domain v - 1
              else val)
      ∧ 0 <= getRaw (SetInt s v val) v < v_domain v)
  ∧ (∀ s s',
      in_domain b (packed s) → rtc (api_step b) s s' → in_domain b (packed s')).
Proof.
  intros Hwf. split.
  - intros s v val Hv Hval.
    destruct (wf_layout_vars _ _ Hwf Hv) as [].
    rewrite (GetInt_SetInt b Hwf), (SetInt_raw b Hwf) by done.
    split; [| lia].
    destruct (Z.ltb_spec val (v_min v)); [lia |].
    destruct (Z.ltb_spec (v_min v + v_domain v - 1) val); lia.
  - intros s s' Hs Hreach. induction Hreach as [| s1 s2 s3 Hstep _ IH]; [done |].
    apply IH. destruct Hstep as [s1 v val s2 Hv Hset | s1 v val Hv | s1 v val Hv Hval].
    + by apply (Set_in_domain b Hwf s1 v val).
    + by apply SetBool_in_domain.
    + by apply SetInt_in_domain.
Qed.

Lemma C10_witness :
  GetInt (SetInt (mkState counterB 2) xVar 9) xVar = 4
  ∧ 0 <= getRaw (SetInt (mkState counterB 2) xVar 9) xVar < 5.
Proof.
  destruct (C10_SetInt_clamps counterB) as [Hclamp _].
  - reflexivity.
  - apply (Hclamp (mkState counterB 2) xVar 9).
    + by left.
    + vm_compute. split; [discriminate | reflexivity].
Defined.

(** C10, the claim as stated fails: [Int("h", 0, math.MaxInt64)] returns a
    variable of range [[0, math.MaxInt64]] with a field of 0 bits, [Build]
    accepts the declaration, and [SetInt(h, 5)], whose argument is inside the
    range, stores nothing: [GetInt] reads 0. *)
Lemma C10_counterexample :
  Int (NewBuilder "wide") "h" 0 (2 ^ 63 - 1) = Some (wideB, hVar)
  ∧ Build wideB = Built (machineOf wideB) (reportOf wideB)
  ∧ v_min hVar <= 5 <= 2 ^ 63 - 1
  ∧ SetInt (NewState (machineOf wideB)) hVar 5 = NewState (machineOf wideB)
  ∧ GetInt (SetInt (NewState (machineOf wideB)) hVar 5) hVar = 0.
Proof.
  split_and!.
  - vm_compute. reflexivity.
  - vm_compute. reflexivity.
  - vm_compute. discriminate.
  - vm_compute. discriminate.
  - vm_compute. reflexivity.
  - vm_compute. reflexivity.
Qed.

(** * Further properties of the code *)

(** ** state.go: the field codec *)

(** X1. Reading back a written field: for a field that lies inside the
    64-bit word, [getRaw] after [setRaw] returns the written value reduced
    to the field width, and the value itself when it fits the width. *)
Theorem X1_getRaw_setRaw_roundtrip (s : State) (v : Var) (x : Z) :
  0 <= v_offset v → 0 <= v_bits v → v_offset v + v_bits v <= 64 →
  getRaw (setRaw s v x) v = x mod 2 ^ v_bits v
  ∧ (0 <= x < 2 ^ v_bits v → getRaw (setRaw s v x) v = x).
Proof.
  intros Ho Hb Hfit. split.
  - rewrite getRaw_setRaw by done. by apply Z.land_ones.
  - intros Hx. by apply getRaw_setRaw_small.
Qed.

Lemma X1_witness :
  getRaw (setRaw (mkState counterB 5) xVar 11) xVar = 11 mod 2 ^ v_bits xVar.
Proof.
  apply (X1_getRaw_setRaw_roundtrip (mkState counterB 5) xVar 11).
  - vm_compute. discriminate.
  - vm_compute. discriminate.
  - vm_compute. discriminate.
Defined.

(** X2. Writing a field that lies inside the 64-bit word changes nothing
    else: [setRaw] keeps the variable list, keeps every bit outside the
    field of [v], so a field of the word that does not overlap it reads as
    before, and keeps the packed value inside any width that contains the
    field. *)
Theorem X2_setRaw_frame (s : State) (v : Var) (x : Z) :
  0 <= v_offset v → 0 <= v_bits v → v_offset v + v_bits v <= 64 →
  vars (setRaw s v x) = vars s
  ∧ (∀ i, 0 <= i → inField v i = false →
          Z.testbit (packed (setRaw s v x)) i = Z.testbit (packed s) i)
  ∧ (∀ w, 0 <= v_offset w → 0 <= v_bits w → v_offset w + v_bits w <= 64 →
          v_offset v + v_bits v <= v_offset w
          ∨ v_offset w + v_bits w <= v_offset v →
          getRaw (setRaw s v x) w = getRaw s w)
  ∧ (∀ n, v_offset v + v_bits v <= n → 0 <= packed s < 2 ^ n →
          0 <= packed (setRaw s v x) < 2 ^ n).
Proof.
  intros Ho Hb Hfit. split_and!.
  - done.
  - intros i Hi Hout. rewrite testbit_setRaw by done. by rewrite Hout.
  - intros w Hw1 Hw2 Hw3 Hdisj. by apply getRaw_setRaw_other.
  - intros n Hn Hp. by apply setRaw_bound.
Qed.

Lemma X2_witness :
  vars (setRaw (mkState alarmB 2) armedVar 1) = vars (mkState alarmB 2)
  ∧ getRaw (setRaw (mkState alarmB 2) armedVar 1) alarmVar
    = getRaw (mkState alarmB 2) alarmVar.
Proof.
  destruct (X2_setRaw_frame (mkState alarmB 2) armedVar 1)
    as (Hvars & _ & Hother & _).
  - vm_compute. discriminate.
  - vm_compute. discriminate.
  - vm_compute. discriminate.
  - split; [exact Hvars |]. apply (Hother alarmVar).
    + vm_compute. discriminate.
    + vm_compute. discriminate.
    + vm_compute. discriminate.
    + left. vm_compute. discriminate.
Defined.

(** ** var.go: bitsNeeded *)

Lemma bitsLoop_lower fuel :
  ∀ n b k, 0 < n < 2 ^ k → 0 <= k <= Z.of_nat fuel →
    2 ^ (bitsLoop fuel n b - b - 1) <= n.
Proof.
  induction fuel as [| fuel IH]; intros n b k Hn Hk; simpl.
  - assert (k = 0) as -> by lia. simpl in Hn. lia.
  - destruct (Z.ltb_spec 0 n); [| lia].
    assert (1 <= k).
    { destruct (decide (k = 0)) as [-> | ?]; [simpl in Hn; lia | lia]. }
    assert (0 <= Z.shiftr n 1 < 2 ^ (k - 1)) as Hhalf.
    { rewrite Z.shiftr_div_pow2 by lia. change (2 ^ 1) with 2.
      replace (2 ^ k) with (2 * 2 ^ (k - 1)) in Hn
        by (rewrite <- Z.pow_succ_r by lia; f_equal; lia).
      split; [apply Z.div_pos; lia |].
      apply Z.div_lt_upper_bound; lia. }
    destruct (decide (Z.shiftr n 1 = 0)) as [Hz | Hnz].
    + rewrite Hz. destruct fuel; simpl; replace (b + 1 - b - 1) with 0 by lia;
        simpl; lia.
    + specialize (IH (Z.shiftr n 1) (b + 1) (k - 1) ltac:(lia) ltac:(lia)).
      destruct (bitsLoop_spec fuel (Z.shiftr n 1) (b + 1) (k - 1) Hhalf
                  ltac:(lia)) as [[Hlo _] _].
      set (r := bitsLoop fuel (Z.shiftr n 1) (b + 1)) in *.
      assert (1 <= r - b - 1).
      { destruct (decide (r = b + 1)) as [Hr | ?]; [| lia].
        destruct (bitsLoop_spec fuel (Z.shiftr n 1) (b + 1) (k - 1) Hhalf
                    ltac:(lia)) as [_ Hlt].
        fold r in Hlt. rewrite Hr, Z.sub_diag in Hlt. simpl in Hlt. lia. }
      replace (r - b - 1) with (Z.succ (r - (b + 1) - 1)) by lia.
      rewrite Z.pow_succ_r by lia.
      rewrite Z.shiftr_div_pow2 in IH by lia. change (2 ^ 1) with 2 in IH.
      pose proof (Z.div_mod n 2 ltac:(lia)).
      pose proof (Z.mod_pos_bound n 2 ltac:(lia)). lia.
Qed.

(** X3. [bitsNeeded n] is the minimum width for [n] distinct values: 0 for
    at most one value, and otherwise the least [w] with [n <= 2^w]. *)
Theorem X3_bitsNeeded_minimal (n : Z) :
  - 2 ^ 63 <= n < 2 ^ 63 →
  (n <= 1 → bitsNeeded n = 0)
  ∧ (2 <= n →
     1 <= bitsNeeded n <= 63
     ∧ 2 ^ (bitsNeeded n - 1) < n <= 2 ^ bitsNeeded n).
Proof.
  intros Hn. unfold bitsNeeded. split.
  - intros Hle. by destruct (Z.leb_spec n 1); [| lia].
  - intros Hge. destruct (Z.leb_spec n 1); [lia |].
    rewrite i64_small by lia.
    destruct (bitsLoop_spec 64 (n - 1) 0 63) as [Hr Hlt]; [lia | lia |].
    pose proof (bitsLoop_lower 64 (n - 1) 0 63 ltac:(lia) ltac:(lia)) as Hlow.
    rewrite Z.sub_0_r in *.
    set (r := bitsLoop 64 (n - 1) 0) in *.
    assert (1 <= r).
    { destruct (decide (r = 0)) as [Hz | ?]; [| lia].
      rewrite Hz in Hlt. simpl in Hlt. lia. }
    lia.
Qed.

Lemma X3_witness :
  1 <= bitsNeeded 5 <= 63 ∧ 2 ^ (bitsNeeded 5 - 1) < 5 <= 2 ^ bitsNeeded 5.
Proof.
  destruct (X3_bitsNeeded_minimal 5) as [_ Hmin].
  - vm_compute. split; [discriminate | reflexivity].
  - apply Hmin. vm_compute. discriminate.
Defined.

(** ** builder.go: variable declarations *)

(** X4. On a well-formed layout, a declaration whose field still fits the
    64-bit word (old total width plus the new width at most 64) and, for
    [Int], whose range size [max - min + 1] is below [2^63] (it does not
    overflow an [int]) keeps the layout well formed and appends one variable
    at the old total width: [Bool] adds a 1-bit field of domain 2, [Enum] a
    field of [bitsNeeded(len(values))] bits whose domain is the number of
    labels, [Int] a field for [max - min + 1] values with the declared
    minimum.  Whatever the sizes, [Enum] panics exactly on fewer than two
    labels and [Int] exactly when [max < min]. *)
Theorem X4_declarations_keep_layout (b : Builder) (name : string) :
  wf_layout b →
  (totalBits b + 1 <= 64 →
   wf_layout (Bool_ b name).1
   ∧ b_vars (Bool_ b name).1 = b_vars b ++ [(Bool_ b name).2]
   ∧ v_offset (Bool_ b name).2 = totalBits b
   ∧ totalBits (Bool_ b name).1 = totalBits b + 1)
  ∧ (∀ values,
       (Enum b name values = None ↔ len values < 2)
       ∧ ∀ b' v, Enum b name values = Some (b', v) →
           len values < 2 ^ 63 →
           totalBits b + bitsNeeded (len values) <= 64 →
           wf_layout b' ∧ b_vars b' = b_vars b ++ [v]
           ∧ v_offset v = totalBits b ∧ v_domain v = len values
           ∧ totalBits b' = totalBits b + bitsNeeded (len values))
  ∧ (∀ lo hi,
       (Int b name lo hi = None ↔ hi < lo)
       ∧ ∀ b' v, Int b name lo hi = Some (b', v) →
           - 2 ^ 63 <= lo → hi < 2 ^ 63 → hi - lo + 1 < 2 ^ 63 →
           totalBits b + bitsNeeded (hi - lo + 1) <= 64 →
           wf_layout b' ∧ b_vars b' = b_vars b ++ [v]
           ∧ v_offset v = totalBits b ∧ v_min v = lo
           ∧ v_domain v = hi - lo + 1
           ∧ totalBits b' = totalBits b + bitsNeeded (hi - lo + 1)).
Proof.
  intros Hwf. pose proof (wf_layout_bits _ Hwf) as Hbits. split_and!.
  - intros Hfit. split_and!; [by apply wf_Bool | done | done |].
    simpl. apply u64_small. lia.
  - intros values. split.
    + unfold Enum. destruct (Z.ltb_spec (len values) 2); [done |].
      split; [done | lia].
    + intros b' v Henum Hlen Hfit.
      destruct (wf_Enum b name values b' v Hwf Henum Hlen Hfit) as (Hwf' & _ & _).
      unfold Enum in Henum. destruct (Z.ltb_spec (len values) 2); [done |].
      injection Henum as <- <-. split_and!; try done.
      simpl. destruct (bitsNeeded_spec (len values)) as (? & _); [lia |].
      apply u64_small. lia.
  - intros lo hi. split.
    + unfold Int. destruct (Z.ltb_spec hi lo); [done |]. split; [done | lia].
    + intros b' v Hint Hlo Hhi Hdom Hfit.
      destruct (wf_Int b name lo hi b' v Hwf Hint Hlo Hhi Hdom Hfit)
        as (Hwf' & _ & _ & _).
      unfold Int in Hint. destruct (Z.ltb_spec hi lo); [done |].
      rewrite (i64_small (hi - lo)), (i64_small (hi - lo + 1)) in Hint by lia.
      injection Hint as <- <-. split_and!; try done.
      simpl. destruct (bitsNeeded_spec (hi - lo + 1)) as (? & _); [lia |].
      apply u64_small. lia.
Qed.

Lemma X4_witness :
  wf_layout (Bool_ counterB "done").1
  ∧ b_vars (Bool_ counterB "done").1
    = b_vars counterB ++ [(Bool_ counterB "done").2]
  ∧ v_offset (Bool_ counterB "done").2 = totalBits counterB
  ∧ totalBits (Bool_ counterB "done").1 = totalBits counterB + 1.
Proof.
  destruct (X4_declarations_keep_layout counterB "done") as (Hbool & _ & _).
  - reflexivity.
  - apply Hbool. vm_compute. discriminate.
Defined.

(** ** state.go: accessors *)

Lemma enumIndex_from_found ls val : ∀ i idx,
  enumIndex_from i ls val = Some idx →
  ls !! Z.to_nat (idx - i) = Some val.
Proof.
  induction ls as [| l ls IH]; intros i idx; simpl; [done |].
  destruct (decide (l = val)) as [-> | Hne].
  - intros [= <-]. by rewrite Z.sub_diag.
  - intros Hidx. pose proof (enumIndex_from_range _ _ _ _ Hidx).
    apply IH in Hidx.
    replace (Z.to_nat (idx - i)) with (S (Z.to_nat (idx - (i + 1)))) by lia.
    done.
Qed.

Lemma enumIndex_from_None ls val : ∀ i,
  enumIndex_from i ls val = None ↔ val ∉ ls.
Proof.
  induction ls as [| l ls IH]; intros i; simpl.
  - split; [intros _; apply not_elem_of_nil | done].
  - destruct (decide (l = val)) as [-> | Hne].
    + split; [done |]. intros Hnot. destruct Hnot. by left.
    + rewrite IH, not_elem_of_cons. split; [by intros ? | by intros [_ ?]].
Qed.

(** X5. Enum accessors round-trip: on a variable of a well-formed layout
    [Set] panics exactly when the label is not one of the variable's labels,
    and otherwise [Get] on the new state returns the label that was set, and
    the state stays in-domain. *)
Theorem X5_Set_Get_roundtrip (b : Builder) (s : State) (v : Var) (val : string) :
  wf_layout b → v ∈ b_vars b →
  (Set_ s v val = None ↔ val ∉ v_labels v)
  ∧ ∀ s', Set_ s v val = Some s' →
          Get s' v = val
          ∧ (in_domain b (packed s) → in_domain b (packed s')).
Proof.
  intros Hwf Hv. destruct (wf_layout_vars _ _ Hwf Hv) as []. split.
  - unfold Set_, enumIndex. rewrite <- (enumIndex_from_None _ _ 0).
    by destruct (enumIndex_from 0 (v_labels v) val).
  - intros s' Hset. split; [| intros Hs; by apply (Set_in_domain b Hwf s v val)].
    unfold Set_, enumIndex in Hset.
    destruct (enumIndex_from 0 (v_labels v) val) as [idx |] eqn:Hidx; [| done].
    injection Hset as <-.
    pose proof (enumIndex_from_range _ _ _ _ Hidx) as Hr.
    apply enumIndex_from_found in Hidx. rewrite Z.sub_0_r in Hidx.
    assert (2 ^ v_bits v <= 2 ^ 63) by (apply pow2_le_mono; lia).
    unfold Get. rewrite u64_small by lia.
    rewrite getRaw_setRaw_small by lia. rewrite i64_small by lia.
    unfold enumLabel.
    destruct (Z.leb_spec 0 idx); [| lia].
    destruct (Z.ltb_spec idx (len (v_labels v))); [| lia]. simpl.
    rewrite at_lookup by lia. by rewrite Hidx.
Qed.

(** A three-valued status at offset 0 of its own builder. *)
Lemma X5_witness :
  Get (setRaw (mkStateRec 0 [])
              (mkVar "st" EnumKind 0 0 2 3 ["a"; "b"; "c"] 0) 2)
      (mkVar "st" EnumKind 0 0 2 3 ["a"; "b"; "c"] 0) = "c".
Proof.
  destruct (X5_Set_Get_roundtrip
              (mkBuilder "w" [mkVar "st" EnumKind 0 0 2 3 ["a"; "b"; "c"] 0]
                         [] [] 2 [] true)
              (mkStateRec 0 []) (mkVar "st" EnumKind 0 0 2 3 ["a"; "b"; "c"] 0)
              "c") as [_ Hget].
  - reflexivity.
  - by left.
  - apply Hget. reflexivity.
Defined.

(** X6. A setter changes only its own variable: for two different variables
    of a well-formed layout, [Set], [SetBool] and [SetInt] on one leave the
    raw value of the other, hence what [Get], [GetBool] and [GetInt] return
    for it; and [GetBool] returns what [SetBool] stored on a variable with
    at least two values. *)
Theorem X6_setters_frame (b : Builder) (s : State) (v w : Var) :
  wf_layout b → v ∈ b_vars b → w ∈ b_vars b → v ≠ w →
  (∀ x, getRaw (SetBool s v x) w = getRaw s w)
  ∧ (∀ x, getRaw (SetInt s v x) w = getRaw s w)
  ∧ (∀ l s', Set_ s v l = Some s' → getRaw s' w = getRaw s w)
  ∧ (∀ x, GetInt (SetInt s v x) w = GetInt s w)
  ∧ (∀ x, 2 <= v_domain v → GetBool (SetBool s v x) v = x).
Proof.
  intros Hwf Hv Hw Hne.
  destruct (wf_layout_vars _ _ Hwf Hv) as [], (wf_layout_vars _ _ Hwf Hw) as [].
  assert (∀ x, getRaw (setRaw s v x) w = getRaw s w) as Hframe.
  { intros x. destruct (wf_disjoint b Hwf v w Hv Hw) as [Heq | Hdisj]; [done |].
    apply getRaw_setRaw_other; lia. }
  split_and!.
  - intros x. unfold SetBool. by destruct x.
  - intros x. unfold SetInt. apply Hframe.
  - intros l s' Hset. unfold Set_ in Hset.
    destruct (enumIndex v l); [| done]. injection Hset as <-. apply Hframe.
  - intros x. unfold GetInt, SetInt. by rewrite Hframe.
  - intros x Hdom. unfold GetBool, SetBool.
    assert (1 <= v_bits v).
    { destruct (decide (v_bits v = 0)) as [Hz | ?]; [| lia].
      rewrite Hz in vo_dom0. simpl in vo_dom0. lia. }
    assert (2 ^ 1 <= 2 ^ v_bits v) by (apply pow2_le_mono; lia).
    destruct x; rewrite getRaw_setRaw_small by lia; done.
Qed.

Lemma X6_witness :
  (∀ x, getRaw (SetBool (mkState alarmB 2) armedVar x) alarmVar
        = getRaw (mkState alarmB 2) alarmVar)
  ∧ (∀ x, GetBool (SetBool (mkState alarmB 2) armedVar x) armedVar = x).
Proof.
  destruct (X6_setters_frame alarmB (mkState alarmB 2) armedVar alarmVar)
    as (Hbool & _ & _ & _ & Hget).
  - reflexivity.
  - by left.
  - right. by left.
  - discriminate.
  - split; [exact Hbool |]. intros x. apply Hget. vm_compute. discriminate.
Defined.

(** ** verify.go: clampState *)

Lemma clampVar_id total s v :
  var_ok total v → getRaw s v < v_domain v → clampVar s v = s.
Proof.
  intros Hv Hraw. unfold clampVar. rewrite (clamp_max total) by done.
  destruct (Z.ltb_spec (v_domain v - 1) (getRaw s v)); [lia | done].
Qed.

Lemma clampState_id b s :
  wf_layout b → (∀ v, v ∈ b_vars b → getRaw s v < v_domain v) →
  clampState b s = s.
Proof.
  intros Hwf Hall. unfold clampState.
  assert (∀ vs, (∀ v, v ∈ vs → v ∈ b_vars b) → fold_left clampVar vs s = s)
    as Hfold; [| by apply Hfold].
  induction vs as [| v vs IH]; intros Hsub; simpl; [done |].
  rewrite (clampVar_id (totalBits b)).
  - apply IH. intros v' Hv'. apply Hsub. by right.
  - apply wf_layout_vars; [done |]. apply Hsub. by left.
  - apply Hall, Hsub. by left.
Qed.

(** X7. [clampState] changes nothing on a state whose fields are all below
    their domains (in particular on every in-domain state the verifier
    starts from), it keeps the variable list, and clamping twice is clamping
    once. *)
Theorem X7_clampState_identity_idempotent (b : Builder) (s : State) :
  wf_layout b →
  ((∀ v, v ∈ b_vars b → getRaw s v < v_domain v) → clampState b s = s)
  ∧ (∀ p, isValidEncoding b p = true → clampState b (mkState b p) = mkState b p)
  ∧ vars (clampState b s) = vars s
  ∧ clampState b (clampState b s) = clampState b s.
Proof.
  intros Hwf. split_and!.
  - by apply clampState_id.
  - intros p Hp. apply clampState_id; [done |]. by apply isValidEncoding_spec.
  - by apply clampState_vars.
  - apply clampState_id; [done |]. intros v Hv.
    rewrite (clampState_getRaw b Hwf) by done.
    destruct (wf_layout_vars _ _ Hwf Hv) as []. lia.
Qed.

Lemma X7_witness :
  clampState counterB (mkState counterB 3) = mkState counterB 3
  ∧ clampState counterB (clampState counterB (mkState counterB 7))
    = clampState counterB (mkState counterB 7).
Proof.
  destruct (X7_clampState_identity_idempotent counterB (mkState counterB 3))
    as (_ & Hid & _ & _).
  - reflexivity.
  - destruct (X7_clampState_identity_idempotent counterB (mkState counterB 7))
      as (_ & _ & _ & Hidem).
    + reflexivity.
    + split; [| exact Hidem]. apply Hid. reflexivity.
Defined.

(** ** verify.go: the normal-form table *)

Lemma repairLoop_chain b sc fuel :
  ∀ s d seen s' d',
    repairLoop b sc fuel s d seen = Ok (s', d') →
    ∃ n : nat,
      d' = d + Z.of_nat n
      ∧ s' = Nat.iter n (applyFirstRepair b) s
      ∧ allInvariantsHold b s' = true
      ∧ (∀ k : nat, (k < n)%nat →
           allInvariantsHold b (Nat.iter k (applyFirstRepair b) s) = false)
      ∧ (n ≠ 0%nat → d' <= sc).
Proof.
  induction fuel as [| fuel IH]; intros s d seen s' d'; simpl.
  - destruct (allInvariantsHold b s) eqn:Hh; [| done]. intros [= <- <-].
    exists 0%nat. split_and!; [lia | done | done | lia | done].
  - destruct (allInvariantsHold b s) eqn:Hh.
    { intros [= <- <-]. exists 0%nat. split_and!; [lia | done | done | lia | done]. }
    destruct (bool_decide _); simpl; [done |].
    destruct (Z.ltb_spec sc (d + 1)); [done |].
    intros Hrun. destruct (IH _ _ _ _ _ Hrun) as (n & Hd & Hs & Hv & Hbefore & Hle).
    exists (S n). split_and!.
    + lia.
    + by rewrite Nat.iter_succ_r.
    + done.
    + intros [| k] Hk; [done |]. rewrite Nat.iter_succ_r. apply Hbefore. lia.
    + intros _. destruct n; [lia | apply Hle; lia].
Qed.

Lemma nfLoop_depth b nf mr :
  0 <= totalBits b <= 20 →
  forM (seqZ 0 (packedCountOf b)) (nfBody b (stateCountOf b) (validMask b))
       (replicate (Z.to_nat (packedCountOf b)) 0, 0) = Ok (nf, mr) →
  ∀ i s d, 0 <= i < packedCountOf b → isValidEncoding b i = true →
    repairLoop b (stateCountOf b) (repairFuel (stateCountOf b))
               (mkState b i) 0 {[i]} = Ok (s, d) →
    d <= mr.
Proof.
  intros [Hb0 Hb] Hrun.
  destruct (packedCount_range b Hb0 Hb) as (HN0 & HN64 & _).
  pose (P := fun (pre : list Z) (st : list Z * Z) =>
               ∀ i s d, i ∈ pre → isValidEncoding b i = true →
                 repairLoop b (stateCountOf b) (repairFuel (stateCountOf b))
                            (mkState b i) 0 {[i]} = Ok (s, d) →
                 d <= st.2).
  assert (P (seqZ 0 (packedCountOf b)) (nf, mr)) as HP.
  { eapply (forM_inv P); [| | exact Hrun].
    - intros i s d Hi. by apply elem_of_nil in Hi.
    - intros pre x suf [nf0 mr0] [nf1 mr1] Hxs Hpre Hbody.
      destruct (seqZ_split_fresh _ _ _ _ Hxs) as (Hx & _ & _).
      unfold nfBody in Hbody.
      assert (index (validMask b) x = Ok (isValidEncoding b x)) as Hvalid.
      { apply index_Ok, validMask_at; lia. }
      rewrite Hvalid in Hbody. cbn [bind] in Hbody.
      rewrite (u64_small x) in Hbody by lia.
      intros i s d Hi Hv Hloop. simpl.
      destruct (isValidEncoding b x) eqn:Hvx; cbn [negb] in Hbody.
      + destruct (repairLoop _ _ _ (mkState b x) _ _) as [[sx dx] | | |] eqn:Hlx;
          cbn [bind] in Hbody; try done.
        injection Hbody as <- <-.
        apply elem_of_app in Hi as [Hi | Hi].
        * specialize (Hpre i s d Hi Hv Hloop). simpl in Hpre.
          destruct (Z.ltb_spec mr0 dx); lia.
        * apply list_elem_of_singleton in Hi as ->.
          rewrite Hlx in Hloop. injection Hloop as <- <-.
          destruct (Z.ltb_spec mr0 dx); lia.
      + injection Hbody as <- <-.
        apply elem_of_app in Hi as [Hi | Hi]; [by apply (Hpre i s d) |].
        apply list_elem_of_singleton in Hi as ->. congruence. }
  intros i s d Hi. apply HP. by apply elem_of_seqZ_0.
Qed.

(** X8. The normal form is the first valid state of the repair chain: in a
    built machine, for every in-domain state there is a number [n] of
    repairs, at most [MaxRepairLen] of the report and (when repairs are
    needed) at most the state count, such that applying
    [applyFirstRepair] [n] times reaches a state on which every invariant
    holds, no earlier state of the chain is valid, and [nf] holds the packed
    form of that state.  So a declaration with an in-domain state whose
    chain never becomes valid is not built. *)
Theorem X8_nf_is_end_of_repair_chain (b : Builder) (m : Machine) (r : Report) :
  Build b = Built m r →
  ∀ i, in_domain b i →
    ∃ n : nat,
      at_ (nf m) i
      = Some (packed (Nat.iter n (applyFirstRepair b) (mkState b i)))
      ∧ allInvariantsHold b (Nat.iter n (applyFirstRepair b) (mkState b i))
        = true
      ∧ (∀ k : nat, (k < n)%nat →
           allInvariantsHold b (Nat.iter k (applyFirstRepair b) (mkState b i))
           = false)
      ∧ Z.of_nat n <= MaxRepairLen r
      ∧ (n ≠ 0%nat → Z.of_nat n <= StateCount r).
Proof.
  intros HB i Hi.
  destruct (in_domain_range b m r HB i Hi) as [Hbits Hr].
  destruct (Built_nf_loop b m r HB i Hi) as (s & d & Hloop & Hh & Hat).
  destruct (repairLoop_chain _ _ _ _ _ _ _ _ Hloop) as (n & Hd & Hs & _ & Hbefore & Hle).
  exists n. subst s. split_and!; [done | done | done | |].
  - destruct (Build_Built _ _ _ HB) as (_ & _ & _ & mr & pd & pb & Hnf & _ & _ & ->).
    simpl. unfold computeNormalForms in Hnf.
    destruct (forM _ (nfBody _ _ _) _) as [[nf0 mr0] | | |] eqn:Hfst;
      cbn [bind] in Hnf; try done.
    destruct (forM _ (idemBody _ _ _) _) as [[] | | |]; cbn [bind] in Hnf; try done.
    injection Hnf as Hnf0 Hmr0. subst nf0 mr0.
    pose proof (nfLoop_depth b _ _ Hbits Hfst i _ _ Hr (proj2 Hi) Hloop). lia.
  - intros Hn. destruct (Build_Built _ _ _ HB) as (_ & _ & _ & mr & pd & pb & _ & _ & _ & ->).
    simpl. specialize (Hle Hn). lia.
Qed.

Lemma X8_witness :
  ∃ n : nat,
    at_ (nf (machineOf counterB)) 4
    = Some (packed (Nat.iter n (applyFirstRepair counterB) (mkState counterB 4)))
    ∧ allInvariantsHold counterB
        (Nat.iter n (applyFirstRepair counterB) (mkState counterB 4)) = true
    ∧ (∀ k : nat, (k < n)%nat →
         allInvariantsHold counterB
           (Nat.iter k (applyFirstRepair counterB) (mkState counterB 4)) = false)
    ∧ Z.of_nat n <= MaxRepairLen (reportOf counterB)
    ∧ (n ≠ 0%nat → Z.of_nat n <= StateCount (reportOf counterB)).
Proof.
  apply (X8_nf_is_end_of_repair_chain counterB (machineOf counterB)
           (reportOf counterB)).
  - vm_compute. reflexivity.
  - split; [| reflexivity]. vm_compute. split; [discriminate | reflexivity].
Defined.

(** X9. Table sizes and padding: in a built machine [nf] has one entry per
    id of the padded address space and [step] one row of that length per
    declared event; an out-of-domain id is its own [nf] entry and has the
    step entry 0 in every row. *)
Theorem X9_table_shapes (b : Builder) (m : Machine) (r : Report) :
  0 <= totalBits b → Build b = Built m r →
  len (nf m) = 2 ^ totalBits b
  ∧ len (step m) = len (events b)
  ∧ (∀ ei row, at_ (step m) ei = Some row → len row = 2 ^ totalBits b)
  ∧ (∀ i, 0 <= i < 2 ^ totalBits b → isValidEncoding b i = false →
          at_ (nf m) i = Some i
          ∧ ∀ ei row, at_ (step m) ei = Some row → at_ row i = Some 0).
Proof.
  intros Hb0 HB.
  destruct (Build_Built _ _ _ HB) as (Hb & _ & _ & mr & pd & pb & _ & Hst & _).
  apply computeStepTables_spec in Hst as [Hlen Hrows]; [| done..].
  assert (∀ ei row, at_ (step m) ei = Some row →
            ∃ ev, events b !! Z.to_nat ei = Some ev
                  ∧ len row = packedCountOf b
                  ∧ ∀ i, 0 <= i < packedCountOf b →
                         step_entry b (nf m) row ev i) as Hrow.
  { intros ei row Hat. pose proof (at_Some_range _ _ _ Hat) as Hr.
    rewrite at_lookup in Hat by lia.
    destruct (lookup_lt_is_Some_2 (events b) (Z.to_nat ei)) as [ev Hev].
    { apply lookup_lt_Some in Hat. lia. }
    destruct (Hrows _ _ Hev) as (row' & Hrow' & Hl & Hentries).
    exists ev. by simplify_eq. }
  rewrite <- packedCount_pow by done. split_and!.
  - by apply (Built_nf_len b m r).
  - unfold len. by rewrite Hlen.
  - intros ei row Hat. by destruct (Hrow ei row Hat) as (ev & _ & Hl & _).
  - intros i Hi Hv. split.
    + apply (Built_nf_padding b m r HB); [| done]. by rewrite <- packedCount_pow.
    + intros ei row Hat. destruct (Hrow ei row Hat) as (ev & _ & _ & Hentries).
      specialize (Hentries i Hi). unfold step_entry in Hentries.
      by rewrite Hv in Hentries.
Qed.

Lemma X9_witness :
  len (nf (machineOf counterB)) = 2 ^ totalBits counterB
  ∧ len (step (machineOf counterB)) = len (events counterB).
Proof.
  destruct (X9_table_shapes counterB (machineOf counterB) (reportOf counterB))
    as (Hnf & Hstep & _).
  - vm_compute. discriminate.
  - vm_compute. reflexivity.
  - split; [exact Hnf | exact Hstep].
Defined.

(** ** verify.go: the step tables *)

(** X10. An event whose guard fails is a no-op: in a built machine, on an
    in-domain state where the guard of the event returns false, the step
    entry is the [nf] entry of that state, and it is the state itself when
    every invariant holds there. *)
Theorem X10_failed_guard_is_noop
    (b : Builder) (m : Machine) (r : Report) (ei : Z) (ev : eventDef)
    (g : CheckFunc) (i : Z) :
  wf_layout b → Build b = Built m r →
  at_ (events b) ei = Some ev → ev_guard ev = Some g →
  in_domain b i → g (mkState b i) = false →
  (∃ x, at_ (nf m) i = Some x ∧ stepAt (step m) ei i = Ok x)
  ∧ (allInvariantsHold b (mkState b i) = true → stepAt (step m) ei i = Ok i).
Proof.
  intros Hwf HB Hev Hg Hi Hfalse.
  destruct (Built_step_entry b m r HB ei ev i Hev Hi) as (x & Hnf & Hst).
  assert (clampState b (applyEvent ev (mkState b i)) = mkState b i) as Hpost.
  { unfold applyEvent. rewrite Hg, Hfalse.
    apply clampState_id; [done |]. apply isValidEncoding_spec; [done |].
    by destruct Hi. }
  rewrite Hpost in Hnf. simpl in Hnf. split; [by exists x |].
  intros Hh. rewrite (Built_nf_valid b m r HB i Hi Hh) in Hnf. by simplify_eq.
Qed.

Lemma X10_witness : stepAt (step (machineOf gateB)) 0 1 = Ok 1.
Proof.
  destruct (X10_failed_guard_is_noop gateB (machineOf gateB) (reportOf gateB)
              0 (from_two "to_one" 1) (fun s => GetInt s yVar =? 2) 1)
    as [_ Hvalid].
  - reflexivity.
  - vm_compute. reflexivity.
  - reflexivity.
  - reflexivity.
  - split; [| reflexivity]. vm_compute. split; [discriminate | reflexivity].
  - reflexivity.
  - apply Hvalid. reflexivity.
Defined.

(** ** verify.go: the pairs selected for the commutativity check *)

Lemma map_fmap {A B} (f : A → B) (l : list A) : map f l = f <$> l.
Proof. induction l as [| x l IH]; simpl; [done | by rewrite IH]. Qed.

(** X11. The pairs [verifyCC] selects: in all-pairs mode exactly the index
    pairs [(i, j)] with [0 <= i < j < len(events)], each once; in declared
    mode one pair per [Independent] declaration, in declaration order and
    without removing duplicates, each put in the order [i <= j]. *)
Theorem X11_pairsToCheck_selection (b : Builder) :
  (allIndependent b = true →
   (∀ i j, (i, j) ∈ pairsToCheck b ↔ 0 <= i < j ∧ j < len (events b))
   ∧ NoDup (pairsToCheck b))
  ∧ (allIndependent b = false →
     length (pairsToCheck b) = length (independent b)
     ∧ ∀ k i j, independent b !! k = Some (i, j) →
         pairsToCheck b !! k = Some (Z.min i j, Z.max i j)).
Proof.
  unfold pairsToCheck. split; intros ->.
  - split.
    + intros i j. rewrite list_elem_of_In, in_flat_map. split.
      * intros (i' & Hi' & Hin). apply in_map_iff in Hin as (j' & [= <- <-] & Hj').
        apply list_elem_of_In, elem_of_seqZ in Hi'.
        apply list_elem_of_In, elem_of_seqZ in Hj'. lia.
      * intros [Hij Hj]. exists i. split.
        -- apply list_elem_of_In, elem_of_seqZ. lia.
        -- apply in_map_iff. exists j. split; [done |].
           apply list_elem_of_In, elem_of_seqZ. lia.
    + generalize (len (events b)). intros n.
      assert (∀ l : list Z, NoDup l →
                NoDup (flat_map
                         (fun i => map (fun j => (i, j))
                                       (seqZ (i + 1) (n - (i + 1)))) l)) as Hgen.
      { induction l as [| i l IH]; intros Hnd; simpl; [constructor |].
        apply NoDup_cons in Hnd as [Hi Hnd]. apply NoDup_app. split_and!.
        - rewrite map_fmap. apply NoDup_fmap_2; [| apply NoDup_seqZ].
          by intros ?? [= ->].
        - intros [i' j'] Hin1 Hin2.
          apply list_elem_of_In, in_map_iff in Hin1 as (j1 & [= <- <-] & _).
          apply list_elem_of_In, in_flat_map in Hin2 as (i2 & Hi2 & Hin2).
          apply in_map_iff in Hin2 as (j2 & [= <- <-] & _).
          by apply list_elem_of_In in Hi2.
        - by apply IH. }
      apply Hgen, NoDup_seqZ.
  - split; [by rewrite length_map |].
    intros k i j Hk. rewrite map_fmap, list_lookup_fmap, Hk. simpl.
    destruct (Z.ltb_spec j i); do 2 f_equal; lia.
Qed.

Lemma X11_witness :
  (∀ i j, (i, j) ∈ pairsToCheck counterB ↔ 0 <= i < j ∧ j < len (events counterB))
  ∧ NoDup (pairsToCheck counterB).
Proof.
  destruct (X11_pairsToCheck_selection counterB) as [Hall _].
  apply Hall. reflexivity.
Defined.

(** ** verify.go: footprint disjointness *)

Lemma mark_all_true (l : list Z) :
  ∀ m : gmap Z bool,
    map_Forall (fun _ x => x = true) m →
    map_Forall (fun _ x => x = true)
               (fold_left (fun m vi => <[vi := true]> m) l m).
Proof.
  induction l as [| x l IH]; intros m Hm; simpl; [done |].
  apply IH. by apply map_Forall_insert_2.
Qed.

Lemma footprint_fold_true (wr : gmap Z bool) (invs : list invariantDef) :
  ∀ acc : gmap Z bool,
    map_Forall (fun _ x => x = true) acc →
    map_Forall (fun _ x => x = true)
      (fold_left
         (fun (fp : gmap Z bool) inv =>
            if existsb (fun vi => default false (wr !! vi)) (inv_footprint inv)
            then fold_left (fun m vi => <[vi := true]> m) (inv_footprint inv) fp
            else fp)
         invs acc).
Proof.
  induction invs as [| inv invs IH]; intros acc Hacc; simpl; [done |].
  apply IH. destruct (existsb _ _); [by apply mark_all_true | done].
Qed.

Lemma eventFootprint_true b ei fp :
  eventFootprint b ei = Some fp → map_Forall (fun _ x => x = true) fp.
Proof.
  unfold eventFootprint. destruct (at_ (events b) ei) as [ev |]; [| done].
  intros [= <-]. apply footprint_fold_true, map_Forall_empty.
Qed.

Lemma disjoint_scan (fp1 fp2 : gmap Z bool) :
  map_Forall (fun _ x => x = true) fp1 →
  forallb (fun v => negb (default false (fp2 !! v))) (map fst (map_to_list fp1))
  = true
  ↔ ∀ v, ¬ (default false (fp1 !! v) = true ∧ default false (fp2 !! v) = true).
Proof.
  intros Htrue. rewrite forallb_forall. split.
  - intros Hall v [H1 H2].
    destruct (fp1 !! v) as [x |] eqn:Hv; [| done].
    assert (In v (map fst (map_to_list fp1))) as Hin.
    { apply in_map_iff. exists (v, x). split; [done |].
      by apply list_elem_of_In, elem_of_map_to_list. }
    specialize (Hall v Hin). rewrite H2 in Hall. done.
  - intros Hnone v Hin. apply in_map_iff in Hin as ([v' x] & [= <-] & Hin).
    apply list_elem_of_In, elem_of_map_to_list in Hin.
    pose proof (Htrue _ _ Hin) as ->.
    destruct (default false (fp2 !! v')) eqn:H2; [| done].
    destruct (Hnone v'). by rewrite Hin.
Qed.

(** X12. The disjointness test is symmetric and looks only at the two
    influence sets: [eventsDisjoint i j] is true exactly when no variable
    belongs to both [eventFootprint i] and [eventFootprint j], and swapping
    the two events gives the same answer. *)
Theorem X12_eventsDisjoint_symmetric (b : Builder) (i j : Z) :
  eventsDisjoint b i j = eventsDisjoint b j i
  ∧ ∀ fp1 fp2,
      eventFootprint b i = Some fp1 → eventFootprint b j = Some fp2 →
      ∃ d, eventsDisjoint b i j = Some d
           ∧ (d = true ↔
              ∀ v, ¬ (default false (fp1 !! v) = true
                      ∧ default false (fp2 !! v) = true)).
Proof.
  assert (∀ i j fp1 fp2,
             eventFootprint b i = Some fp1 → eventFootprint b j = Some fp2 →
             ∃ d, eventsDisjoint b i j = Some d
                  ∧ (d = true ↔
                     ∀ v, ¬ (default false (fp1 !! v) = true
                             ∧ default false (fp2 !! v) = true))) as Hspec.
  { intros i' j' fp1 fp2 H1 H2. unfold eventsDisjoint. rewrite H1, H2.
    eexists. split; [done |]. apply disjoint_scan.
    by apply (eventFootprint_true b i'). }
  split; [| apply Hspec].
  destruct (eventFootprint b i) as [fp1 |] eqn:H1;
    destruct (eventFootprint b j) as [fp2 |] eqn:H2.
  - destruct (Hspec i j fp1 fp2 H1 H2) as (d & -> & Hd).
    destruct (Hspec j i fp2 fp1 H2 H1) as (d' & -> & Hd').
    f_equal. apply eq_true_iff_eq. rewrite Hd, Hd'.
    split; intros H v [Ha Hb]; by apply (H v).
  - unfold eventsDisjoint. by rewrite H1, H2.
  - unfold eventsDisjoint. by rewrite H1, H2.
  - unfold eventsDisjoint. by rewrite H1, H2.
Qed.

Lemma X12_witness :
  ∃ d, eventsDisjoint counterB 0 1 = Some d
       ∧ (d = true ↔
          ∀ v, ¬ (default false (({[0 := true]} : gmap Z bool) !! v) = true
                  ∧ default false (({[0 := true]} : gmap Z bool) !! v) = true)).
Proof.
  destruct (X12_eventsDisjoint_symmetric counterB 0 1) as [_ Hspec].
  apply Hspec.
  - vm_compute. reflexivity.
  - vm_compute. reflexivity.
Defined.

(** ** verify.go: the report *)

Lemma verifyCC_counts b stp pd pb :
  verifyCC b (packedCountOf b) (validMask b) stp = Ok (pd, pb) →
  pd = len (filter (fun p : Z * Z => eventsDisjoint b p.1 p.2 = Some true)
                   (pairsToCheck b))
  ∧ pb = len (filter (fun p : Z * Z => eventsDisjoint b p.1 p.2 = Some false)
                     (pairsToCheck b))
  ∧ pd + pb = len (pairsToCheck b).
Proof.
  unfold verifyCC. intros Hrun.
  pose (P := fun (pre : list (Z * Z)) (st : Z * Z) =>
               st.1 = len (filter (fun p : Z * Z =>
                                     eventsDisjoint b p.1 p.2 = Some true) pre)
               ∧ st.2 = len (filter (fun p : Z * Z =>
                                       eventsDisjoint b p.1 p.2 = Some false) pre)
               ∧ st.1 + st.2 = len pre).
  apply (forM_inv P) in Hrun; [done | done |].
  intros pre [i j] suf [pd0 pb0] [pd1 pb1] _ (Hd & Hb & Ht) Hbody.
  simpl in Hd, Hb, Ht. unfold pairBody in Hbody. unfold P. simpl.
  rewrite !filter_app, !filter_cons, !filter_nil. simpl.
  unfold len in *. rewrite !length_app.
  destruct (eventsDisjoint b i j) as [[] |] eqn:Hdis; [| | done].
  - injection Hbody as <- <-.
    rewrite decide_True by done. rewrite decide_False by done. simpl. lia.
  - bind_ok Hbody. injection Hbody as <- <-.
    rewrite decide_False by done. rewrite decide_True by done. simpl. lia.
Qed.

(** X13. The report of a successful build: WFC and CC are marked passed, no
    counterexample is attached, and the pair counters account for every
    selected pair exactly once: [PairsDisjoint] counts the selected pairs
    the disjointness test accepts, [PairsBrute] the others, and
    [PairsTotal] is their sum, the number of selected pairs. *)
Theorem X13_report_of_successful_build (b : Builder) (m : Machine) (r : Report) :
  Build b = Built m r →
  WFC r = true ∧ CC r = true ∧ r_CCFailure r = None
  ∧ PairsDisjoint r
    = len (filter (fun p : Z * Z => eventsDisjoint b p.1 p.2 = Some true)
                  (pairsToCheck b))
  ∧ PairsBrute r
    = len (filter (fun p : Z * Z => eventsDisjoint b p.1 p.2 = Some false)
                  (pairsToCheck b))
  ∧ PairsTotal r = PairsDisjoint r + PairsBrute r
  ∧ PairsTotal r = len (pairsToCheck b).
Proof.
  intros HB.
  destruct (Build_Built _ _ _ HB) as (_ & _ & _ & mr & pd & pb & _ & _ & Hcc & ->).
  destruct (verifyCC_counts _ _ _ _ Hcc) as (Hd & Hb & Ht). simpl.
  split_and!; done.
Qed.

Lemma X13_witness :
  PairsTotal (reportOf counterB) = len (pairsToCheck counterB)
  ∧ PairsTotal (reportOf counterB)
    = PairsDisjoint (reportOf counterB) + PairsBrute (reportOf counterB).
Proof.
  destruct (X13_report_of_successful_build counterB (machineOf counterB)
              (reportOf counterB)) as (_ & _ & _ & _ & _ & Hsum & Htotal).
  - vm_compute. reflexivity.
  - split; [exact Htotal | exact Hsum].
Defined.

(** ** verify.go: a reported failure of the commutativity check *)

Lemma forM_Error {X St} (body : X → St → res St) xs :
  ∀ st e, forM xs body st = Error e →
    ∃ x a, x ∈ xs ∧ body x a = Error e.
Proof.
  induction xs as [| y xs IH]; intros st e Hrun; simpl in Hrun; [done |].
  destruct (body y st) as [a' | e' | |] eqn:Hb; simpl in Hrun; try done.
  - destruct (IH _ _ Hrun) as (x & a & Hin & Hx). exists x, a. split; [by right | done].
  - injection Hrun as ->. exists y, st. split; [by left | done].
Qed.

Lemma ccBody_Error b stp pd pb i j s a e :
  0 <= s < packedCountOf b → packedCountOf b <= 2 ^ 64 →
  ccBody b (validMask b) stp pd pb i j s a = Error e →
  isValidEncoding b s = true
  ∧ ∃ si sj x12 x21 e1 e2,
      stepAt stp i s = Ok si ∧ stepAt stp j si = Ok x12
      ∧ stepAt stp j s = Ok sj ∧ stepAt stp i sj = Ok x21
      ∧ x12 ≠ x21
      ∧ at_ (events b) i = Some e1 ∧ at_ (events b) j = Some e2
      ∧ e = ErrCC pd pb
              {| Event1 := ev_name e1; Event2 := ev_name e2;
                 cc_State := mkState b s;
                 Result1 := mkState b x12; Result2 := mkState b x21 |}.
Proof.
  intros Hs HN Hbody. unfold ccBody in Hbody.
  assert (index (validMask b) s = Ok (isValidEncoding b s)) as Hvalid.
  { apply index_Ok, validMask_at; lia. }
  rewrite Hvalid in Hbody. cbn [bind] in Hbody.
  destruct (isValidEncoding b s); cbn [negb] in Hbody; [| done].
  split; [done |].
  destruct (stepAt stp i s) as [si | | |] eqn:H1; cbn [bind] in Hbody;
    [| by unfold stepAt, index, bind in H1; repeat case_match ..].
  destruct (stepAt stp j si) as [x12 | | |] eqn:H2; cbn [bind] in Hbody;
    [| by unfold stepAt, index, bind in H2; repeat case_match ..].
  destruct (stepAt stp j s) as [sj | | |] eqn:H3; cbn [bind] in Hbody;
    [| by unfold stepAt, index, bind in H3; repeat case_match ..].
  destruct (stepAt stp i sj) as [x21 | | |] eqn:H4; cbn [bind] in Hbody;
    [| by unfold stepAt, index, bind in H4; repeat case_match ..].
  destruct (Z.eqb_spec x12 x21) as [| Hne]; cbn [negb] in Hbody; [done |].
  unfold index in Hbody.
  destruct (at_ (events b) i) as [e1 |] eqn:He1; cbn [bind] in Hbody; [| done].
  destruct (at_ (events b) j) as [e2 |] eqn:He2; cbn [bind] in Hbody; [| done].
  injection Hbody as <-. rewrite u64_small by lia.
  by exists si, sj, x12, x21, e1, e2.
Qed.

(** X14. A reported CC failure is a real one: when [Build] fails with the
    commutativity error, the counterexample in the report names a selected
    pair that the disjointness test did not accept and an in-domain start
    state from which the two orders, read from the step tables the build
    computed, end in different states; the report carries that
    counterexample with CC marked failed. *)
Theorem X14_cc_failure_is_genuine
    (b : Builder) (pd pb : Z) (f : CCFailure) (ro : option Report) :
  0 <= totalBits b → Build b = Failed (ErrCC pd pb f) ro →
  ∃ nf0 mr stp i j s si sj x12 x21 e1 e2,
    computeNormalForms b (packedCountOf b) (stateCountOf b) (validMask b)
    = Ok (nf0, mr)
    ∧ computeStepTables b (packedCountOf b) (validMask b) nf0 = Ok stp
    ∧ (i, j) ∈ pairsToCheck b ∧ eventsDisjoint b i j = Some false
    ∧ in_domain b s
    ∧ stepAt stp i s = Ok si ∧ stepAt stp j si = Ok x12
    ∧ stepAt stp j s = Ok sj ∧ stepAt stp i sj = Ok x21
    ∧ x12 ≠ x21
    ∧ at_ (events b) i = Some e1 ∧ at_ (events b) j = Some e2
    ∧ f = {| Event1 := ev_name e1; Event2 := ev_name e2;
             cc_State := mkState b s;
             Result1 := mkState b x12; Result2 := mkState b x21 |}
    ∧ ∃ r, ro = Some r ∧ CC r = false ∧ r_CCFailure r = Some f
           ∧ WFC r = true.
Proof.
  intros Hb0 HB. unfold Build in HB.
  destruct (Z.ltb_spec 20 (totalBits b)) as [| Hb]; [done |].
  destruct (_ <? _); [done |].
  destruct (packedCount_range b Hb0 Hb) as (HN0 & HN64 & HN).
  destruct (computeNormalForms _ _ _ _) as [[nf0 mr] | e | |] eqn:Hnf.
  2:{ exfalso. unfold computeNormalForms in Hnf.
      destruct (forM _ (nfBody _ _ _) _) as [[nf1 mr1] | e1 | |] eqn:Hfst;
        cbn [bind] in Hnf; try done.
      - destruct (forM _ (idemBody _ _ _) _) as [[] | e2 | |] eqn:Hsnd;
          cbn [bind] in Hnf; try done.
        injection Hnf as <-.
        apply forM_Error in Hsnd as (x & a & _ & Hx). unfold idemBody in Hx.
        unfold index, bind in Hx. repeat case_match; simplify_eq; done.
      - injection Hnf as <-.
        apply forM_Error in Hfst as (x & [nfa mra] & _ & Hx). unfold nfBody in Hx.
        unfold index in Hx. destruct (at_ _ _); cbn [bind] in Hx; [| done].
        destruct (negb _); [done |].
        destruct (repairLoop _ _ _ _ _ _) as [[] | e3 | |] eqn:Hloop;
          cbn [bind] in Hx; try done.
        injection Hx as <-.
        assert (∀ fuel s d seen, repairLoop b (stateCountOf b) fuel s d seen
                                 = Error e3 → e3 = ErrWFC) as Hwfc.
        { induction fuel as [| fuel IH]; intros s0 d0 seen0; simpl;
            destruct (allInvariantsHold b s0); try done.
          destruct (_ || _); [by intros [= <-] | apply IH]. }
        apply Hwfc in Hloop. by subst. }
  2, 3: done.
  destruct (computeStepTables _ _ _ _) as [stp | e | |] eqn:Hst; try done.
  2:{ exfalso. unfold computeStepTables in Hst.
      apply forM_Error in Hst as (ev & a & _ & Hx).
      destruct (forM _ (stepBody _ _ _ _) _) as [row | e' | |] eqn:Hrow;
        cbn [bind] in Hx; try done.
      apply forM_Error in Hrow as (x & a' & _ & Hx'). unfold stepBody in Hx'.
      unfold index, bind in Hx'. repeat case_match; simplify_eq. }
  destruct (verifyCC _ _ _ _) as [[pd' pb'] | e | |] eqn:Hcc; try done.
  destruct e as [| | | | pd' pb' f']; try done.
  injection HB as -> -> -> <-.
  unfold verifyCC in Hcc.
  apply forM_Error in Hcc as ([i j] & [pd0 pb0] & Hin & Hx).
  unfold pairBody in Hx.
  destruct (eventsDisjoint b i j) as [[] |] eqn:Hdis; try done.
  destruct (forM _ (ccBody _ _ _ _ _ _ _) _) as [[] | e | |] eqn:Hstates;
    cbn [bind] in Hx; try done.
  injection Hx as ->.
  apply forM_Error in Hstates as (s & a & Hs & Hx).
  apply elem_of_seqZ_0 in Hs.
  apply ccBody_Error in Hx as (Hv & si & sj & x12 & x21 & e1 & e2 & H1 & H2 & H3
                               & H4 & Hne & He1 & He2 & Hf); [| done..].
  injection Hf as -> -> ->.
  exists nf0, mr, stp, i, j, s, si, sj, x12, x21, e1, e2.
  split_and!; try done.
  - split; [lia | done].
  - eexists. split; [done |]. by simpl.
Qed.

Lemma X14_witness :
  ∃ nf0 mr stp i j s si sj x12 x21 e1 e2,
    computeNormalForms levelB (packedCountOf levelB) (stateCountOf levelB)
                       (validMask levelB) = Ok (nf0, mr)
    ∧ computeStepTables levelB (packedCountOf levelB) (validMask levelB) nf0
      = Ok stp
    ∧ (i, j) ∈ pairsToCheck levelB ∧ eventsDisjoint levelB i j = Some false
    ∧ in_domain levelB s
    ∧ stepAt stp i s = Ok si ∧ stepAt stp j si = Ok x12
    ∧ stepAt stp j s = Ok sj ∧ stepAt stp i sj = Ok x21
    ∧ x12 ≠ x21
    ∧ at_ (events levelB) i = Some e1 ∧ at_ (events levelB) j = Some e2
    ∧ {| Event1 := "to_one"; Event2 := "to_zero";
         cc_State := mkState levelB 2;
         Result1 := mkState levelB 1; Result2 := mkState levelB 0 |}
      = {| Event1 := ev_name e1; Event2 := ev_name e2;
           cc_State := mkState levelB s;
           Result1 := mkState levelB x12; Result2 := mkState levelB x21 |}
    ∧ ∃ r, Some (withCC (withWFC (initReport levelB) 1) false 0 1
                   (Some {| Event1 := "to_one"; Event2 := "to_zero";
                            cc_State := mkState levelB 2;
                            Result1 := mkState levelB 1;
                            Result2 := mkState levelB 0 |})) = Some r
           ∧ CC r = false
           ∧ r_CCFailure r
             = Some {| Event1 := "to_one"; Event2 := "to_zero";
                       cc_State := mkState levelB 2;
                       Result1 := mkState levelB 1;
                       Result2 := mkState levelB 0 |}
           ∧ WFC r = true.
Proof.
  apply (X14_cc_failure_is_genuine levelB 0 1).
  - vm_compute. discriminate.
  - vm_compute. reflexivity.
Defined.

(** ** builder.go: event names *)

Lemma eventIndex_from_spec evs name : ∀ i idx,
  eventIndex_from i evs name = Some idx →
  i <= idx
  ∧ ∃ ev, evs !! Z.to_nat (idx - i) = Some ev ∧ ev_name ev = name
          ∧ ∀ (k : nat) ev', (k < Z.to_nat (idx - i))%nat →
              evs !! k = Some ev' → ev_name ev' ≠ name.
Proof.
  induction evs as [| e evs IH]; intros i idx; simpl; [done |].
  destruct (decide (ev_name e = name)) as [Heq | Hne].
  - intros [= <-]. split; [lia |]. rewrite Z.sub_diag. exists e.
    split_and!; [done | done |]. intros k ev' Hk. simpl in Hk. lia.
  - intros Hidx. destruct (IH _ _ Hidx) as (Hle & ev & Hev & Hn & Hfirst).
    split; [lia |]. exists ev.
    replace (Z.to_nat (idx - i)) with (S (Z.to_nat (idx - (i + 1)))) by lia.
    split_and!; [done | done |].
    intros [| k] ev' Hk Hev'; simpl in Hev'; [by simplify_eq |].
    apply (Hfirst k ev'); [lia | done].
Qed.

Lemma eventIndex_from_None evs name : ∀ i,
  eventIndex_from i evs name = None ↔ ∀ ev, ev ∈ evs → ev_name ev ≠ name.
Proof.
  induction evs as [| e evs IH]; intros i; simpl.
  - split; [| done]. intros _ ev Hev. by apply elem_of_nil in Hev.
  - destruct (decide (ev_name e = name)) as [Heq | Hne].
    + split; [done |]. intros Hall. destruct (Hall e); [by left | done].
    + rewrite IH. split.
      * intros Hall ev Hev. apply elem_of_cons in Hev as [-> | Hev]; [done |].
        by apply Hall.
      * intros Hall ev Hev. apply Hall. by right.
Qed.

Lemma eventIndex_first b n i :
  eventIndex b n = Some i →
  ∃ ev, at_ (events b) i = Some ev ∧ ev_name ev = n
        ∧ ∀ j ev', 0 <= j < i → at_ (events b) j = Some ev' → ev_name ev' ≠ n.
Proof.
  intros Hidx. unfold eventIndex in Hidx.
  destruct (eventIndex_from_spec _ _ _ _ Hidx) as (Hle & ev & Hev & Hn & Hmin).
  rewrite Z.sub_0_r in *. exists ev. split_and!; [| done |].
  - by rewrite at_lookup.
  - intros j ev' Hj Hev'. rewrite at_lookup in Hev' by lia.
    apply (Hmin (Z.to_nat j) ev'); [lia | done].
Qed.

(** X15. [eventIndex] finds the first event of a name: it panics exactly
    when no declared event has the name and otherwise returns the smallest
    index of an event with it.  [Independent] therefore panics exactly when
    one of its two names is unknown, and otherwise appends one pair of
    indices of declared events, leaving the checking mode as it was. *)
Theorem X15_eventIndex_first_match (b : Builder) (name : string) :
  (eventIndex b name = None ↔ ∀ ev, ev ∈ events b → ev_name ev ≠ name)
  ∧ (∀ i, eventIndex b name = Some i →
       ∃ ev, at_ (events b) i = Some ev ∧ ev_name ev = name
             ∧ ∀ j ev', 0 <= j < i → at_ (events b) j = Some ev' →
                 ev_name ev' ≠ name)
  ∧ (∀ other,
       (Independent b name other = None ↔
        eventIndex b name = None ∨ eventIndex b other = None)
       ∧ ∀ b', Independent b name other = Some b' →
           ∃ i j, independent b' = independent b ++ [(i, j)]
                  ∧ 0 <= i < len (events b) ∧ 0 <= j < len (events b)
                  ∧ events b' = events b
                  ∧ allIndependent b' = allIndependent b).
Proof.
  split_and!.
  - apply eventIndex_from_None.
  - apply eventIndex_first.
  - intros other. unfold Independent. split.
    + destruct (eventIndex b name), (eventIndex b other); intuition congruence.
    + intros b' Hind.
      destruct (eventIndex b name) as [i |] eqn:Hi; [| done].
      destruct (eventIndex b other) as [j |] eqn:Hj; [| done].
      injection Hind as <-. exists i, j. simpl.
      destruct (eventIndex_first _ _ _ Hi) as (e1 & He1 & _).
      destruct (eventIndex_first _ _ _ Hj) as (e2 & He2 & _).
      apply at_Some_range in He1, He2. done.
Qed.

Lemma X15_witness :
  ∃ ev, at_ (events counterB) 1 = Some ev ∧ ev_name ev = "inc_b"
        ∧ ∀ j ev', 0 <= j < 1 → at_ (events counterB) j = Some ev' →
            ev_name ev' ≠ "inc_b".
Proof.
  destruct (X15_eventIndex_first_match counterB "inc_b") as (_ & Hfirst & _).
  apply Hfirst. reflexivity.
Defined.

(** ** verify.go and machine.go: the events dictionary *)

Lemma eventsMap_snoc evs ev :
  eventsMap (evs ++ [ev]) = <[ev_name ev := len evs]> (eventsMap evs).
Proof.
  unfold eventsMap.
  assert (len (evs ++ [ev]) = len evs + 1) as ->.
  { unfold len. rewrite length_app. simpl. lia. }
  rewrite seqZ_app by (unfold len; lia). rewrite Z.add_0_l.
  rewrite zip_with_app by (rewrite length_seqZ; unfold len; lia).
  rewrite fold_left_app. by rewrite seqZ_cons, seqZ_nil by lia.
Qed.

Lemma eventsMap_last evs : ∀ name i,
  eventsMap evs !! name = Some i ↔
  ∃ ev, at_ evs i = Some ev ∧ ev_name ev = name
        ∧ ∀ j ev', i < j → at_ evs j = Some ev' → ev_name ev' ≠ name.
Proof.
  induction evs as [| e evs IH] using rev_ind; intros name i.
  - change (eventsMap []) with (∅ : gmap string Z). rewrite lookup_empty.
    split; [done |]. intros (ev & Hev & _). unfold at_ in Hev.
    by case_decide.
  - rewrite eventsMap_snoc, lookup_insert.
    assert (∀ j, at_ (evs ++ [e]) j
                 = if decide (j = len evs) then Some e else at_ evs j) as Hat.
    { intros j. unfold at_. destruct (decide (0 <= j)) as [Hj |].
      - case_decide as Hlast.
        + rewrite lookup_app_r by (unfold len in *; lia).
          replace (Z.to_nat j - length evs)%nat with 0%nat
            by (unfold len in *; lia). done.
        + destruct (decide (j < len evs)).
          * rewrite lookup_app_l by (unfold len in *; lia). done.
          * rewrite !lookup_ge_None_2; [done | unfold len in *; lia |].
            rewrite length_app. simpl. unfold len in *. lia.
      - case_decide; [| done]. unfold len in *. lia. }
    case_decide as Hname.
    + split.
      * intros [= <-]. exists e. rewrite Hat, decide_True by done.
        split_and!; [done | done |]. intros j ev' Hj Hev'.
        rewrite Hat in Hev'. case_decide; [lia |].
        apply at_Some_range in Hev'. lia.
      * intros (ev & Hev & Hn & Hlast). rewrite Hat in Hev.
        case_decide as Hi; [by subst |].
        pose proof (at_Some_range _ _ _ Hev) as Hr.
        destruct (Hlast (len evs) e); [lia | | done].
        rewrite Hat. by rewrite decide_True.
    + rewrite IH. split.
      * intros (ev & Hev & Hn & Hlast). exists ev.
        pose proof (at_Some_range _ _ _ Hev) as Hr.
        rewrite Hat, decide_False by lia. split_and!; [done | done |].
        intros j ev' Hj Hev'. rewrite Hat in Hev'. case_decide.
        -- by simplify_eq.
        -- by apply (Hlast j ev').
      * intros (ev & Hev & Hn & Hlast). rewrite Hat in Hev.
        case_decide; [by simplify_eq |]. exists ev. split_and!; [done | done |].
        intros j ev' Hj Hev'. apply (Hlast j ev'); [done |].
        pose proof (at_Some_range _ _ _ Hev') as Hr.
        rewrite Hat. by rewrite decide_False by lia.
Qed.

(** X16. The dictionary of a built machine maps a name to the LAST declared
    event of that name (later declarations overwrite earlier ones), whereas
    [eventIndex] resolves a name to the first; with pairwise distinct event
    names every declared event is found under its own index. *)
Theorem X16_events_dictionary_last_wins
    (b : Builder) (m : Machine) (r : Report) :
  Build b = Built m r →
  (∀ name i,
      m_events m !! name = Some i ↔
      ∃ ev, at_ (events b) i = Some ev ∧ ev_name ev = name
            ∧ ∀ j ev', i < j → at_ (events b) j = Some ev' →
                ev_name ev' ≠ name)
  ∧ (NoDup (map ev_name (events b)) →
     ∀ i ev, at_ (events b) i = Some ev →
             m_events m !! ev_name ev = Some i
             ∧ eventIndex b (ev_name ev) = Some i).
Proof.
  intros HB. destruct (Build_Built _ _ _ HB) as (_ & _ & -> & _).
  split; [apply eventsMap_last |].
  intros Hnd i ev Hev.
  assert (∀ j ev', at_ (events b) j = Some ev' → ev_name ev' = ev_name ev →
                   j = i) as Huniq.
  { intros j ev' Hev' Hn.
    pose proof (at_Some_range _ _ _ Hev) as Hi.
    pose proof (at_Some_range _ _ _ Hev') as Hj.
    rewrite at_lookup in Hev, Hev' by lia.
    rewrite map_fmap in Hnd.
    assert (Z.to_nat j = Z.to_nat i); [| lia].
    apply (NoDup_lookup _ _ _ (ev_name ev) Hnd);
      rewrite list_lookup_fmap; [by rewrite Hev', <- Hn | by rewrite Hev]. }
  split.
  - apply eventsMap_last. exists ev. split_and!; [done | done |].
    intros j ev' Hj Hev' Hn. specialize (Huniq j ev' Hev' Hn). lia.
  - destruct (eventIndex b (ev_name ev)) as [k |] eqn:Hk.
    + destruct (eventIndex_first _ _ _ Hk) as (ev' & Hev' & Hn & _).
      f_equal. by apply (Huniq k ev').
    + exfalso. unfold eventIndex in Hk.
      pose proof (proj1 (eventIndex_from_None _ _ _) Hk) as Hnone.
      pose proof (at_Some_range _ _ _ Hev) as Hi.
      rewrite at_lookup in Hev by lia.
      apply list_elem_of_lookup_2 in Hev. by apply (Hnone ev).
Qed.

Lemma X16_witness :
  m_events (machineOf counterB) !! "inc_b" = Some 1
  ∧ eventIndex counterB "inc_b" = Some 1.
Proof.
  destruct (X16_events_dictionary_last_wins counterB (machineOf counterB)
              (reportOf counterB)) as [_ Hdistinct].
  - vm_compute. reflexivity.
  - apply (Hdistinct ltac:(vm_compute; repeat constructor;
                           rewrite ?elem_of_cons, ?elem_of_nil;
                           intuition discriminate)
                     1 (inc_event "inc_b")).
    reflexivity.
Defined.

(** ** machine.go: Apply at run time *)

(** X17. Run-time [Apply] is the build-time semantics: in a built machine,
    for a declared event that is the last of its name and a state whose
    packed form is in-domain, [Apply] returns the state that [Normalize]
    returns for the clamped result of the event (its effect when the guard
    passes, the state itself otherwise); it does not panic. *)
Theorem X17_Apply_is_normalized_effect
    (b : Builder) (m : Machine) (r : Report) (i : Z) (ev : eventDef) (s : State) :
  Build b = Built m r →
  at_ (events b) i = Some ev →
  (∀ j ev', i < j → at_ (events b) j = Some ev' → ev_name ev' ≠ ev_name ev) →
  in_domain b (packed s) →
  ∃ s', Apply m s (ev_name ev) = Applied s'
        ∧ Normalize m (clampState b (applyEvent ev (mkState b (packed s))))
          = Some s'
        ∧ vars s' = b_vars b.
Proof.
  intros HB Hev Hlast Hs.
  destruct (Built_step_entry b m r HB i ev (packed s) Hev Hs) as (x & Hnf & Hst).
  destruct (Build_Built _ _ _ HB) as (_ & Hvars & Hevents & _).
  exists {| packed := x; vars := m_vars m |}. split_and!.
  - unfold Apply. rewrite Hevents.
    assert (eventsMap (events b) !! ev_name ev = Some i) as ->.
    { apply eventsMap_last. by exists ev. }
    by rewrite Hst.
  - unfold Normalize. by rewrite Hnf.
  - done.
Qed.

Lemma X17_witness :
  ∃ s', Apply (machineOf counterB) (mkState counterB 3) "inc_b" = Applied s'
        ∧ Normalize (machineOf counterB)
            (clampState counterB
               (applyEvent (inc_event "inc_b")
                           (mkState counterB (packed (mkState counterB 3)))))
          = Some s'
        ∧ vars s' = b_vars counterB.
Proof.
  apply (X17_Apply_is_normalized_effect counterB (machineOf counterB)
           (reportOf counterB) 1 (inc_event "inc_b") (mkState counterB 3)).
  - vm_compute. reflexivity.
  - reflexivity.
  - intros j ev' Hj Hev'. apply at_Some_range in Hev'.
    change (len (events counterB)) with 2 in Hev'. lia.
  - split; [| reflexivity]. vm_compute. split; [discriminate | reflexivity].
Defined.

Lemma in_domain_zero b : wf_layout b → in_domain b 0.
Proof.
  intros Hwf. pose proof (wf_layout_bits _ Hwf) as Hb. split.
  - pose proof (pow2_pos _ (proj1 Hb)). lia.
  - apply isValidEncoding_spec; [done |]. intros v Hv.
    destruct (wf_layout_vars _ _ Hwf Hv) as [].
    rewrite getRaw_mkState, Z.shiftr_0_l, Z.land_0_l. lia.
Qed.

(** The step of an in-domain state of a built machine is in-domain and
    valid, for any event of the dictionary. *)
Lemma Built_Apply_closed b m r s event :
  wf_layout b → repairs_closed b → Build b = Built m r →
  in_domain b (packed s) → is_Some (m_events m !! event) →
  ∃ x, Apply m s event = Applied (mkState b x) ∧ in_domain b x
       ∧ allInvariantsHold b (mkState b x) = true.
Proof.
  intros Hwf Hcl HB Hs [ei Hname].
  destruct (Build_Built _ _ _ HB) as (_ & Hvars & Hevents & _).
  pose proof Hname as Hname'. rewrite Hevents in Hname'.
  destruct (eventsMap_Some _ _ _ Hname') as (ev & Hev & _).
  destruct (Built_step_entry b m r HB ei ev (packed s) Hev Hs) as (x & Hnf & Hst).
  set (post := clampState b (applyEvent ev (mkState b (packed s)))) in *.
  assert (in_domain b (packed post)) as Hpost.
  { split; [| by apply clampState_valid].
    destruct (in_domain_range b m r HB _ Hs) as [[Hb0 _] _].
    apply at_Some_range in Hnf.
    by rewrite (Built_nf_len b m r HB Hb0), packedCount_pow in Hnf. }
  destruct (Built_nf_closed b m r HB _ Hcl Hpost) as (q & Hq & Hqd & Hqh).
  exists x. simplify_eq. split_and!; [| done | done].
  unfold Apply. rewrite Hname, Hst, Hvars. done.
Qed.

(** X18. Runs never leave the valid states: for a built machine of a
    well-formed declaration whose repairs are written against the State
    interface, the zero state [NewState] is in-domain, and any sequence of
    [Apply] calls with names of the dictionary, started from a state whose
    packed form is in-domain, returns normally (no panic) with an in-domain
    state; after at least one event every invariant holds on it and
    [IsValid] is true. *)
Theorem X18_runs_stay_valid (b : Builder) (m : Machine) (r : Report) :
  wf_layout b → repairs_closed b → Build b = Built m r →
  in_domain b (packed (NewState m))
  ∧ ∀ evs s,
      in_domain b (packed s) →
      (∀ e, e ∈ evs → is_Some (m_events m !! e)) →
      ∃ s', ApplyAll m s evs = Applied s' ∧ in_domain b (packed s')
            ∧ (evs ≠ [] →
               allInvariantsHold b s' = true ∧ IsValid m s' = Some true).
Proof.
  intros Hwf Hcl HB. split; [by apply in_domain_zero |].
  induction evs as [| e evs IH]; intros s Hs Hknown.
  - exists s. by split_and!.
  - destruct (Built_Apply_closed b m r s e Hwf Hcl HB Hs) as (x & Happ & Hx & Hh).
    { apply Hknown. by left. }
    simpl. rewrite Happ.
    destruct (IH (mkState b x) Hx) as (s' & Hrun & Hs' & Hvalid).
    { intros e' He'. apply Hknown. by right. }
    exists s'. split_and!; [done | done |]. intros _.
    destruct evs as [| e' evs'].
    + simpl in Hrun. injection Hrun as <-. split; [done |].
      unfold IsValid. simpl.
      rewrite (Built_nf_valid b m r HB x Hx Hh). by rewrite Z.eqb_refl.
    + by apply Hvalid.
Qed.

Lemma X18_witness :
  ∃ s', ApplyAll (machineOf counterB) (NewState (machineOf counterB))
                 ["inc_a"; "inc_b"; "inc_a"; "inc_a"; "inc_b"] = Applied s'
        ∧ in_domain counterB (packed s')
        ∧ (["inc_a"; "inc_b"; "inc_a"; "inc_a"; "inc_b"] ≠ [] →
           allInvariantsHold counterB s' = true
           ∧ IsValid (machineOf counterB) s' = Some true).
Proof.
  destruct (X18_runs_stay_valid counterB (machineOf counterB)
              (reportOf counterB)) as [Hzero Hruns].
  - reflexivity.
  - exact counterB_closed.
  - vm_compute. reflexivity.
  - apply Hruns; [exact Hzero |].
    intros e He. rewrite !elem_of_cons, elem_of_nil in He.
    destruct He as [-> | [-> | [-> | [-> | [-> | []]]]]];
      vm_compute; eexists; reflexivity.
Defined.

(** ** verify.go: which errors and panics Build can end in *)

Lemma forM_Panic {X St} (body : X → St → res St) xs :
  ∀ st, forM xs body st = Panic → ∃ x a, x ∈ xs ∧ body x a = Panic.
Proof.
  induction xs as [| y xs IH]; intros st Hrun; simpl in Hrun; [done |].
  destruct (body y st) as [a' | e' | |] eqn:Hb; simpl in Hrun; try done.
  - destruct (IH _ Hrun) as (x & a & Hin & Hx). exists x, a. split; [by right | done].
  - exists y, st. split; [by left | done].
Qed.

Lemma repairLoop_errors b sc fuel :
  ∀ s d seen,
    repairLoop b sc fuel s d seen ≠ Panic
    ∧ ∀ e, repairLoop b sc fuel s d seen = Error e → e = ErrWFC.
Proof.
  induction fuel as [| fuel IH]; intros s d seen; simpl;
    destruct (allInvariantsHold b s); try done.
  destruct (_ || _); [| apply IH]. split; [done |]. by intros e [= <-].
Qed.

(** The first loop of [computeNormalForms] fails only with the WFC error;
    the post-pass never fails. *)
Lemma computeNormalForms_outcomes b :
  0 <= totalBits b <= 20 →
  computeNormalForms b (packedCountOf b) (stateCountOf b) (validMask b) ≠ Panic
  ∧ ∀ e, computeNormalForms b (packedCountOf b) (stateCountOf b) (validMask b)
         = Error e → e = ErrWFC.
Proof.
  intros [Hb0 Hb]. destruct (packedCount_range b Hb0 Hb) as (HN0 & HN64 & _).
  unfold computeNormalForms.
  destruct (forM _ (nfBody _ _ _) _) as [[nf1 mr1] | e1 | |] eqn:Hfst;
    cbn [bind].
  - destruct (nfLoop_spec b Hb0 Hb _ _ Hfst) as [Hlen Hentries].
    assert (∀ x a, x ∈ seqZ 0 (packedCountOf b) →
                   idemBody b (validMask b) nf1 x a = Ok a) as Hidem.
    { intros x a Hx. apply elem_of_seqZ_0 in Hx. unfold idemBody.
      assert (index (validMask b) x = Ok (isValidEncoding b x)) as ->.
      { apply index_Ok, validMask_at; lia. }
      cbn [bind]. rewrite u64_small by lia.
      destruct (isValidEncoding b x) eqn:Hv; [| done].
      destruct (allInvariantsHold b (mkState b x)) eqn:Hh; [| done].
      specialize (Hentries x Hx). unfold nf_entry in Hentries.
      rewrite Hv in Hentries. destruct Hentries as (s & d & Hloop & Hat).
      rewrite repairLoop_id in Hloop by done. injection Hloop as <- <-.
      apply index_Ok in Hat. rewrite Hat. cbn [bind]. simpl.
      by rewrite Z.eqb_refl. }
    destruct (forM _ (idemBody _ _ _) _) as [[] | e2 | |] eqn:Hsnd;
      cbn [bind]; [done | | | done].
    + exfalso. apply forM_Error in Hsnd as (x & a & Hx & Hbody).
      by rewrite Hidem in Hbody.
    + exfalso. apply forM_Panic in Hsnd as (x & a & Hx & Hbody).
      by rewrite Hidem in Hbody.
  - split; [done |]. intros e [= <-].
    apply forM_Error in Hfst as (x & [nfa mra] & Hx & Hbody).
    unfold nfBody, index in Hbody.
    destruct (at_ _ _); cbn [bind] in Hbody; [| done].
    destruct (negb _); [done |].
    destruct (repairLoop _ _ _ _ _ _) as [[] | e3 | |] eqn:Hloop;
      cbn [bind] in Hbody; try done.
    injection Hbody as <-. by apply repairLoop_errors in Hloop.
  - exfalso. apply forM_Panic in Hfst as (x & [nfa mra] & Hx & Hbody).
    apply elem_of_seqZ_0 in Hx. unfold nfBody in Hbody.
    assert (index (validMask b) x = Ok (isValidEncoding b x)) as Hvalid.
    { apply index_Ok, validMask_at; lia. }
    rewrite Hvalid in Hbody. cbn [bind] in Hbody.
    destruct (negb _); [done |].
    pose proof (repairLoop_errors b (stateCountOf b) (repairFuel (stateCountOf b))
                  (mkState b (u64 x)) 0 {[u64 x]}) as [Hnp _].
    destruct (repairLoop _ _ _ _ _ _) as [[] | | |]; cbn [bind] in Hbody; done.
  - done.
Qed.

Lemma computeStepTables_no_error b nf0 e :
  computeStepTables b (packedCountOf b) (validMask b) nf0 ≠ Error e.
Proof.
  unfold computeStepTables. intros Hst.
  apply forM_Error in Hst as (ev & a & _ & Hx).
  destruct (forM _ (stepBody _ _ _ _) _) as [row | e' | |] eqn:Hrow;
    cbn [bind] in Hx; try done.
  apply forM_Error in Hrow as (x & a' & _ & Hx'). unfold stepBody in Hx'.
  unfold index, bind in Hx'. repeat case_match; simplify_eq.
Qed.

Lemma verifyCC_errors b stp e :
  0 <= totalBits b <= 20 →
  verifyCC b (packedCountOf b) (validMask b) stp = Error e →
  ∃ pd pb f, e = ErrCC pd pb f.
Proof.
  intros [Hb0 Hb]. destruct (packedCount_range b Hb0 Hb) as (HN0 & HN64 & _).
  unfold verifyCC. intros Hcc.
  apply forM_Error in Hcc as ([i j] & [pd0 pb0] & _ & Hx).
  unfold pairBody in Hx.
  destruct (eventsDisjoint b i j) as [[] |]; try done.
  destruct (forM _ (ccBody _ _ _ _ _ _ _) _) as [[] | e' | |] eqn:Hstates;
    cbn [bind] in Hx; try done.
  injection Hx as ->.
  apply forM_Error in Hstates as (s & a & Hs & Hx).
  apply elem_of_seqZ_0 in Hs.
  apply ccBody_Error in Hx as (_ & si & sj & x12 & x21 & e1 & e2 & _ & _ & _
                               & _ & _ & _ & _ & ->); [| done..].
  by eexists _, _, _.
Qed.

(** X19. The errors [Build] can return: the size errors come without a
    report; the WFC error comes with a report whose WFC flag is false; the
    CC error comes with a report that passed WFC; and the error
    'compensation moves valid state' of the post-pass of
    [computeNormalForms] is never returned, because a state on which every
    invariant holds is stored as its own normal form by the first loop. *)
Theorem X19_build_errors (b : Builder) (e : BuildError) (ro : option Report) :
  0 <= totalBits b → Build b = Failed e ro →
  (e = ErrTooManyBits ∧ ro = None ∧ 20 < totalBits b)
  ∨ (e = ErrStateSpace ∧ ro = None ∧ maxStateSpace < stateCountOf b)
  ∨ (e = ErrWFC ∧ ∃ r, ro = Some r ∧ WFC r = false ∧ CC r = false)
  ∨ (∃ pd pb f r, e = ErrCC pd pb f ∧ ro = Some r ∧ WFC r = true
                  ∧ CC r = false ∧ r_CCFailure r = Some f
                  ∧ PairsTotal r = pd + pb).
Proof.
  intros Hb0 HB. unfold Build in HB.
  destruct (Z.ltb_spec 20 (totalBits b)) as [| Hb].
  { injection HB as <- <-. by left. }
  destruct (Z.ltb_spec maxStateSpace (stateCountOf b)).
  { injection HB as <- <-. right. by left. }
  destruct (computeNormalForms_outcomes b (conj Hb0 Hb)) as [Hnp Herr].
  destruct (computeNormalForms _ _ _ _) as [[nf0 mr] | e1 | |]; [| | done..].
  2:{ rewrite (Herr e1 eq_refl) in HB. injection HB as <- <-.
      right. right. left. split; [done |]. by eexists. }
  destruct (computeStepTables _ _ _ _) as [stp | e1 | |] eqn:Hst; [| | done..].
  2:{ by apply computeStepTables_no_error in Hst. }
  destruct (verifyCC _ _ _ _) as [[pd pb] | e1 | |] eqn:Hcc; [done | | done..].
  destruct (verifyCC_errors _ _ _ (conj Hb0 Hb) Hcc) as (pd & pb & f & ->).
  injection HB as <- <-. right. right. right.
  exists pd, pb, f. eexists. by split_and!.
Qed.

Lemma X19_witness :
  (ErrCC 0 1 {| Event1 := "to_one"; Event2 := "to_zero";
                cc_State := mkState levelB 2;
                Result1 := mkState levelB 1;
                Result2 := mkState levelB 0 |} = ErrTooManyBits
   ∧ match Build levelB with Failed _ ro => ro | _ => None end = None
   ∧ 20 < totalBits levelB)
  ∨ (ErrCC 0 1 {| Event1 := "to_one"; Event2 := "to_zero";
                  cc_State := mkState levelB 2;
                  Result1 := mkState levelB 1;
                  Result2 := mkState levelB 0 |} = ErrStateSpace
     ∧ match Build levelB with Failed _ ro => ro | _ => None end = None
     ∧ maxStateSpace < stateCountOf levelB)
  ∨ (ErrCC 0 1 {| Event1 := "to_one"; Event2 := "to_zero";
                  cc_State := mkState levelB 2;
                  Result1 := mkState levelB 1;
                  Result2 := mkState levelB 0 |} = ErrWFC
     ∧ ∃ r, match Build levelB with Failed _ ro => ro | _ => None end = Some r
            ∧ WFC r = false ∧ CC r = false)
  ∨ (∃ pd pb f r,
        ErrCC 0 1 {| Event1 := "to_one"; Event2 := "to_zero";
                     cc_State := mkState levelB 2;
                     Result1 := mkState levelB 1;
                     Result2 := mkState levelB 0 |} = ErrCC pd pb f
        ∧ match Build levelB with Failed _ ro => ro | _ => None end = Some r
        ∧ WFC r = true ∧ CC r = false ∧ r_CCFailure r = Some f
        ∧ PairsTotal r = pd + pb).
Proof.
  apply (X19_build_errors levelB).
  - vm_compute. discriminate.
  - vm_compute. reflexivity.
Defined.

Lemma eventFootprint_Some b i :
  0 <= i < len (events b) → is_Some (eventFootprint b i).
Proof.
  intros Hi. unfold eventFootprint.
  destruct (at_in_range (events b) i Hi) as [ev ->]. by eexists.
Qed.

Lemma pairsToCheck_in_range b i j :
  pairs_in_range b → (i, j) ∈ pairsToCheck b →
  0 <= i < len (events b) ∧ 0 <= j < len (events b).
Proof.
  intros Hpairs Hin. unfold pairsToCheck in Hin.
  destruct (allIndependent b).
  - apply list_elem_of_In, in_flat_map in Hin as (i' & Hi' & Hin).
    apply in_map_iff in Hin as (j' & [= <- <-] & Hj').
    apply list_elem_of_In, elem_of_seqZ in Hi'.
    apply list_elem_of_In, elem_of_seqZ in Hj'. lia.
  - apply list_elem_of_In, in_map_iff in Hin as ([i' j'] & Heq & Hin).
    apply list_elem_of_In, Hpairs in Hin.
    destruct (j' <? i'); injection Heq as <- <-; lia.
Qed.

(** With tables that satisfy the table specifications, the step of an
    in-domain state is read without panic and is in-domain. *)
Lemma tables_step_closed b nf0 stp i s :
  wf_layout b → repairs_closed b → 0 <= totalBits b <= 20 →
  len nf0 = packedCountOf b →
  (∀ x, 0 <= x < packedCountOf b → nf_entry b nf0 x) →
  (∀ k ev, events b !! k = Some ev →
      ∃ row, stp !! k = Some row ∧ len row = packedCountOf b
             ∧ ∀ x, 0 <= x < packedCountOf b → step_entry b nf0 row ev x) →
  0 <= i < len (events b) → in_domain b s →
  ∃ x, stepAt stp i s = Ok x ∧ in_domain b x.
Proof.
  intros Hwf Hcl [Hb0 Hb] Hlen Hnf Hrows Hi Hs.
  destruct (packedCount_range b Hb0 Hb) as (HN0 & HN64 & HN).
  destruct (lookup_lt_is_Some_2 (events b) (Z.to_nat i)) as [ev Hev];
    [unfold len in Hi; lia |].
  destruct (Hrows _ _ Hev) as (row & Hrow & Hrl & Hentries).
  assert (0 <= s < packedCountOf b) as Hsr by (rewrite HN; apply Hs).
  specialize (Hentries s Hsr). unfold step_entry in Hentries.
  rewrite (proj2 Hs) in Hentries. destruct Hentries as (x & Hx & Hat).
  exists x. split.
  - unfold stepAt, index. rewrite at_lookup by lia. rewrite Hrow. cbn [bind].
    by rewrite Hat.
  - set (post := clampState b (applyEvent ev (mkState b s))) in *.
    pose proof (at_Some_range _ _ _ Hx) as Hpr. rewrite Hlen in Hpr.
    pose proof (Hnf _ Hpr) as He. unfold nf_entry in He.
    assert (isValidEncoding b (packed post) = true) as Hpv
      by by apply clampState_valid.
    rewrite Hpv in He. destruct He as (s' & d & Hloop & Hat').
    assert (in_domain b (packed post)) as Hpost.
    { split; [by rewrite <- HN | done]. }
    destruct (repairLoop_closed _ _ _ Hcl _ _ _ _ _ Hpost Hloop) as (q & -> & Hq).
    by simplify_eq.
Qed.

(** X20. [Build] does not panic on a declaration assembled through the
    façade and written against the State interface: with a well-formed
    layout, repairs that keep in-domain states in-domain, effects that stay
    inside the address space and declared pairs that name declared events,
    no table read of the verifier is out of range, so [Build] returns a
    machine or one of its errors. *)
Theorem X20_build_does_not_panic (b : Builder) :
  wf_layout b → repairs_closed b → effects_bounded b → pairs_in_range b →
  Build b ≠ BuildPanic ∧ Build b ≠ BuildOutOfFuel.
Proof.
  intros Hwf Hcl Heff Hpairs. split; [| apply Build_total].
  pose proof (wf_layout_bits _ Hwf) as [Hb0 _].
  unfold Build.
  destruct (Z.ltb_spec 20 (totalBits b)) as [| Hb]; [done |].
  destruct (_ <? _); [done |].
  destruct (packedCount_range b Hb0 Hb) as (HN0 & HN64 & HN).
  destruct (computeNormalForms_outcomes b (conj Hb0 Hb)) as [Hnp _].
  destruct (computeNormalForms _ _ _ _) as [[nf0 mr] | e1 | |] eqn:Hnf;
    [| by destruct e1 | done | done].
  destruct (computeNormalForms_spec b Hb0 Hb _ _ Hnf) as [Hlen Hentries].
  destruct (computeStepTables _ _ _ _) as [stp | e1 | |] eqn:Hst;
    [| done | | done].
  2:{ exfalso. unfold computeStepTables in Hst.
      apply forM_Panic in Hst as (ev & a & Hev & Hx).
      destruct (forM _ (stepBody _ _ _ _) _) as [row | e' | |] eqn:Hrow;
        cbn [bind] in Hx; try done.
      apply forM_Panic in Hrow as (x & a' & Hxin & Hx').
      apply elem_of_seqZ_0 in Hxin. unfold stepBody in Hx'.
      assert (index (validMask b) x = Ok (isValidEncoding b x)) as Hvalid.
      { apply index_Ok, validMask_at; lia. }
      rewrite Hvalid in Hx'. cbn [bind] in Hx'.
      rewrite (u64_small x) in Hx' by lia.
      destruct (isValidEncoding b x) eqn:Hv; [| done].
      assert (in_domain b x) as Hxd by (split; [lia | done]).
      pose proof (clampState_bound b Hwf _ (Heff ev x Hev Hxd)) as Hpost.
      destruct (at_in_range nf0
                  (packed (clampState b (applyEvent ev (mkState b x)))))
        as [y Hy]; [lia |].
      apply index_Ok in Hy. rewrite Hy in Hx'. done. }
  apply computeStepTables_spec in Hst as [_ Hrows]; [| done..].
  destruct (verifyCC _ _ _ _) as [[pd pb] | e1 | |] eqn:Hcc;
    [done | by destruct e1 | | done].
  exfalso. unfold verifyCC in Hcc.
  apply forM_Panic in Hcc as ([i j] & [pd0 pb0] & Hin & Hx).
  destruct (pairsToCheck_in_range b i j Hpairs Hin) as [Hi Hj].
  unfold pairBody in Hx.
  destruct (eventFootprint_Some b i Hi) as [fp1 Hfp1].
  destruct (eventFootprint_Some b j Hj) as [fp2 Hfp2].
  unfold eventsDisjoint in Hx. rewrite Hfp1, Hfp2 in Hx.
  destruct (forallb _ _); [done |].
  destruct (forM _ (ccBody _ _ _ _ _ _ _) _) as [[] | e' | |] eqn:Hstates;
    cbn [bind] in Hx; try done.
  apply forM_Panic in Hstates as (s & a & Hs & Hbody).
  apply elem_of_seqZ_0 in Hs. unfold ccBody in Hbody.
  assert (index (validMask b) s = Ok (isValidEncoding b s)) as Hvalid.
  { apply index_Ok, validMask_at; lia. }
  rewrite Hvalid in Hbody. cbn [bind] in Hbody.
  destruct (isValidEncoding b s) eqn:Hv; cbn [negb] in Hbody; [| done].
  assert (in_domain b s) as Hsd by (split; [lia | done]).
  assert (∀ k t, 0 <= k < len (events b) → in_domain b t →
                 ∃ x, stepAt stp k t = Ok x ∧ in_domain b x) as Hstep.
  { intros k t Hk Ht.
    by apply (tables_step_closed b nf0 stp k t Hwf Hcl (conj Hb0 Hb)). }
  destruct (Hstep i s Hi Hsd) as (si & E1 & Hsi).
  rewrite E1 in Hbody. cbn [bind] in Hbody.
  destruct (Hstep j si Hj Hsi) as (x12 & E2 & _).
  rewrite E2 in Hbody. cbn [bind] in Hbody.
  destruct (Hstep j s Hj Hsd) as (sj & E3 & Hsj).
  rewrite E3 in Hbody. cbn [bind] in Hbody.
  destruct (Hstep i sj Hi Hsj) as (x21 & E4 & _).
  rewrite E4 in Hbody. cbn [bind] in Hbody.
  destruct (negb _); [| done].
  destruct (at_in_range (events b) i Hi) as [e1 He1].
  destruct (at_in_range (events b) j Hj) as [e2 He2].
  apply index_Ok in He1, He2. rewrite He1, He2 in Hbody. done.
Qed.

Lemma counterB_effects : effects_bounded counterB.
Proof.
  intros ev p Hev [Hp _]. change (2 ^ totalBits counterB) with 8 in *.
  assert (p = 0 ∨ p = 1 ∨ p = 2 ∨ p = 3 ∨ p = 4 ∨ p = 5 ∨ p = 6 ∨ p = 7)
    as Hcases by lia.
  simpl in Hev. rewrite !elem_of_cons, elem_of_nil in Hev.
  destruct Hev as [-> | [-> | []]];
    destruct Hcases as [-> | [-> | [-> | [-> | [-> | [-> | [-> | ->]]]]]]];
    vm_compute; split; (discriminate || reflexivity).
Qed.

Lemma X20_witness : Build counterB ≠ BuildPanic ∧ Build counterB ≠ BuildOutOfFuel.
Proof.
  apply (X20_build_does_not_panic counterB).
  - reflexivity.
  - exact counterB_closed.
  - exact counterB_effects.
  - intros i j Hin. by apply elem_of_nil in Hin.
Defined.

(** ** verify.go: a reported WFC failure *)

Lemma repairLoop_Error_chain b sc fuel :
  ∀ s d seen e,
    repairLoop b sc fuel s d seen = Error e →
    ∃ n : nat,
      (1 <= n)%nat
      ∧ (∀ k : nat, (k < n)%nat →
           allInvariantsHold b (Nat.iter k (applyFirstRepair b) s) = false)
      ∧ (packed (Nat.iter n (applyFirstRepair b) s) ∈ seen
         ∨ (∃ k : nat, (1 <= k < n)%nat
              ∧ packed (Nat.iter n (applyFirstRepair b) s)
                = packed (Nat.iter k (applyFirstRepair b) s))
         ∨ sc < d + Z.of_nat n).
Proof.
  induction fuel as [| fuel IH]; intros s d seen e; simpl;
    destruct (allInvariantsHold b s) eqn:Hh; try done.
  destruct (bool_decide _ || _) eqn:Hstop.
  - intros _. exists 1%nat. split_and!; [lia | |].
    + intros k Hk. by replace k with 0%nat by lia.
    + apply orb_true_iff in Hstop as [Hseen | Hdeep].
      * left. by apply bool_decide_eq_true in Hseen.
      * right. right. apply Z.ltb_lt in Hdeep. lia.
  - intros Hrun. destruct (IH _ _ _ _ Hrun) as (n & Hn & Hbefore & Hend).
    exists (S n). rewrite Nat.iter_succ_r. split_and!; [lia | |].
    + intros [| k] Hk; [done |]. rewrite Nat.iter_succ_r. apply Hbefore. lia.
    + destruct Hend as [Hseen | [(k & Hk & Heq) | Hdeep]].
      * apply elem_of_union in Hseen as [Hone | Hseen]; [| by left].
        apply elem_of_singleton in Hone. right. left. exists 1%nat.
        split; [lia | done].
      * right. left. exists (S k). rewrite Nat.iter_succ_r. split; [lia | done].
      * right. right. lia.
Qed.

(** X21. A reported WFC failure is a real one: when [Build] fails with the
    WFC error, some in-domain state starts a chain of first-violated repairs
    that passes only through states violating an invariant and then either
    comes back to a packed id it has already visited or has made more
    repairs than the state count. *)
Theorem X21_wfc_failure_is_genuine (b : Builder) (ro : option Report) :
  0 <= totalBits b → Build b = Failed ErrWFC ro →
  ∃ i (n : nat),
    in_domain b i ∧ (1 <= n)%nat
    ∧ (∀ k : nat, (k < n)%nat →
         allInvariantsHold b (Nat.iter k (applyFirstRepair b) (mkState b i))
         = false)
    ∧ ((∃ k : nat, (k < n)%nat
          ∧ packed (Nat.iter n (applyFirstRepair b) (mkState b i))
            = packed (Nat.iter k (applyFirstRepair b) (mkState b i)))
       ∨ stateCountOf b < Z.of_nat n).
Proof.
  intros Hb0 HB. unfold Build in HB.
  destruct (Z.ltb_spec 20 (totalBits b)) as [| Hb]; [done |].
  destruct (_ <? _); [done |].
  destruct (packedCount_range b Hb0 Hb) as (HN0 & HN64 & HN).
  destruct (computeNormalForms _ _ _ _) as [[nf0 mr] | e | |] eqn:Hnf.
  - destruct (computeStepTables _ _ _ _) as [stp | e | |] eqn:Hst; try done.
    + destruct (verifyCC _ _ _ _) as [[pd pb] | e | |] eqn:Hcc; try done.
      destruct (verifyCC_errors _ _ _ (conj Hb0 Hb) Hcc) as (pd & pb & f & ->).
      done.
    + by apply computeStepTables_no_error in Hst.
  - unfold computeNormalForms in Hnf.
    destruct (forM _ (nfBody _ _ _) _) as [[nf1 mr1] | e1 | |] eqn:Hfst;
      cbn [bind] in Hnf; try done.
    + exfalso.
      destruct (computeNormalForms_outcomes b (conj Hb0 Hb)) as [_ Herr].
      unfold computeNormalForms in Herr. rewrite Hfst in Herr. cbn [bind] in Herr.
      destruct (forM _ (idemBody _ _ _) _) as [[] | e2 | |] eqn:Hsnd;
        cbn [bind] in Hnf; try done.
      injection Hnf as <-.
      apply forM_Error in Hsnd as (x & a & Hx & Hbody).
      apply elem_of_seqZ_0 in Hx. unfold idemBody in Hbody.
      assert (index (validMask b) x = Ok (isValidEncoding b x)) as Hvalid.
      { apply index_Ok, validMask_at; lia. }
      rewrite Hvalid in Hbody. cbn [bind] in Hbody.
      rewrite (u64_small x) in Hbody by lia.
      destruct (isValidEncoding b x) eqn:Hv; [| done].
      destruct (allInvariantsHold b (mkState b x)) eqn:Hh; [| done].
      destruct (nfLoop_spec b Hb0 Hb _ _ Hfst) as [_ Hentries].
      specialize (Hentries x Hx). unfold nf_entry in Hentries.
      rewrite Hv in Hentries. destruct Hentries as (s & d & Hloop & Hat).
      rewrite repairLoop_id in Hloop by done. injection Hloop as <- <-.
      apply index_Ok in Hat. rewrite Hat in Hbody. cbn [bind] in Hbody.
      simpl in Hbody. by rewrite Z.eqb_refl in Hbody.
    + injection Hnf as <-.
      apply forM_Error in Hfst as (x & [nfa mra] & Hx & Hbody).
      apply elem_of_seqZ_0 in Hx. unfold nfBody in Hbody.
      assert (index (validMask b) x = Ok (isValidEncoding b x)) as Hvalid.
      { apply index_Ok, validMask_at; lia. }
      rewrite Hvalid in Hbody. cbn [bind] in Hbody.
      rewrite (u64_small x) in Hbody by lia.
      destruct (isValidEncoding b x) eqn:Hv; cbn [negb] in Hbody; [| done].
      destruct (repairLoop _ _ _ _ _ _) as [[] | e3 | |] eqn:Hloop;
        cbn [bind] in Hbody; try done.
      apply repairLoop_Error_chain in Hloop as (n & Hn & Hbefore & Hend).
      exists x, n. split_and!; [by split; [lia |] | done | done |].
      destruct Hend as [Hseen | [(k & Hk & Heq) | Hdeep]].
      * left. exists 0%nat. split; [lia |]. by apply elem_of_singleton in Hseen.
      * left. exists k. split; [lia | done].
      * right. lia.
  - done.
  - done.
Qed.

Lemma X21_witness :
  ∃ i (n : nat),
    in_domain stuckB i ∧ (1 <= n)%nat
    ∧ (∀ k : nat, (k < n)%nat →
         allInvariantsHold stuckB
           (Nat.iter k (applyFirstRepair stuckB) (mkState stuckB i)) = false)
    ∧ ((∃ k : nat, (k < n)%nat
          ∧ packed (Nat.iter n (applyFirstRepair stuckB) (mkState stuckB i))
            = packed (Nat.iter k (applyFirstRepair stuckB) (mkState stuckB i)))
       ∨ stateCountOf stuckB < Z.of_nat n).
Proof.
  apply (X21_wfc_failure_is_genuine stuckB
           (match Build stuckB with Failed _ ro => ro | _ => None end)).
  - vm_compute. discriminate.
  - vm_compute. reflexivity.
Defined.

(** ** machine.go: Events *)

Lemma writeName_None es : fold_left writeName es None = None.
Proof. by induction es. Qed.

Lemma writeName_Some names nm i :
  writeName (Some names) (nm, i)
  = if decide (0 <= i < len names)
    then Some (<[Z.to_nat i := nm]> names) else None.
Proof. done. Qed.

Lemma writeNames_out_of_range es : ∀ names nm i,
  (nm, i) ∈ es → ¬ (0 <= i < len names) →
  fold_left writeName es (Some names) = None.
Proof.
  induction es as [| [nm' i'] es IH]; intros names nm i Hin Hout.
  - by apply elem_of_nil in Hin.
  - cbn [fold_left]. rewrite writeName_Some.
    destruct (decide (0 <= i' < len names)) as [Hi' |];
      [| apply writeName_None].
    apply elem_of_cons in Hin as [Heq | Hin].
    + injection Heq as -> ->. done.
    + apply (IH _ nm i Hin).
      unfold len in *. by rewrite length_insert.
Qed.

Lemma writeNames_in_range es : ∀ names,
  NoDup es.*2 →
  (∀ nm i, (nm, i) ∈ es → 0 <= i < len names) →
  ∃ names',
    fold_left writeName es (Some names) = Some names'
    ∧ length names' = length names
    ∧ (∀ nm i, (nm, i) ∈ es → names' !! Z.to_nat i = Some nm)
    ∧ (∀ k, (∀ nm i, (nm, i) ∈ es → Z.to_nat i ≠ k) →
            names' !! k = names !! k).
Proof.
  induction es as [| [nm i] es IH]; intros names Hnd Hrange.
  - exists names. split_and!; [done | done | | done].
    intros nm i Hin. by apply elem_of_nil in Hin.
  - cbn [fold_left]. rewrite writeName_Some.
    assert (0 <= i < len names) as Hi by (apply (Hrange nm); left).
    rewrite decide_True by done.
    rewrite fmap_cons in Hnd. apply NoDup_cons in Hnd as [Hfresh Hnd].
    destruct (IH (<[Z.to_nat i := nm]> names) Hnd) as (names' & Hrun & Hlen & Hset & Hkeep).
    { intros nm' i' Hin. unfold len. rewrite length_insert.
      apply (Hrange nm'). by right. }
    exists names'. rewrite length_insert in Hlen. split_and!; [done | done | |].
    + intros nm' i' Hin. apply elem_of_cons in Hin as [Heq | Hin].
      * injection Heq as -> ->. rewrite Hkeep.
        -- apply list_lookup_insert_eq. unfold len in Hi. lia.
        -- intros nm'' i'' Hin Heq. apply Hfresh.
           assert (i'' = i) as <-.
           { pose proof (Hrange nm'' i'' ltac:(by right)). lia. }
           apply list_elem_of_fmap. by exists (nm'', i'').
      * by apply Hset.
    + intros k Hk. rewrite Hkeep.
      * apply list_lookup_insert_ne. apply (Hk nm i). left.
      * intros nm' i' Hin. apply (Hk nm' i'). by right.
Qed.

Lemma eventsMap_indices evs :
  NoDup (map_to_list (eventsMap evs)).*2
  ∧ ∀ i, i ∈ (map_to_list (eventsMap evs)).*2 →
         0 <= i < len evs
         ∧ ∃ ev, at_ evs i = Some ev
                 ∧ ∀ j ev', i < j → at_ evs j = Some ev' →
                            ev_name ev' ≠ ev_name ev.
Proof.
  split.
  - apply NoDup_fmap_2_strong; [| apply NoDup_map_to_list].
    intros [a i] [c j] Ha Hc Heq. simpl in Heq. subst j.
    apply elem_of_map_to_list, eventsMap_last in Ha as (ev & Hev & Hn & _).
    apply elem_of_map_to_list, eventsMap_last in Hc as (ev' & Hev' & Hn' & _).
    congruence.
  - intros i Hi. apply list_elem_of_fmap in Hi as ([a i'] & -> & Ha). simpl.
    apply elem_of_map_to_list, eventsMap_last in Ha as (ev & Hev & Hn & Hlast).
    split; [by apply at_Some_range in Hev |].
    exists ev. split; [done |]. intros j ev' Hj Hev'. rewrite Hn.
    by apply (Hlast j).
Qed.

Lemma eventsMap_size_le evs : (size (eventsMap evs) <= length evs)%nat.
Proof.
  destruct (eventsMap_indices evs) as [Hnd Hrange].
  rewrite <- length_map_to_list, <- (length_fmap snd).
  replace (length evs) with (length (seqZ 0 (len evs)))
    by (rewrite length_seqZ; unfold len; lia).
  apply submseteq_length, NoDup_submseteq; [done |].
  intros i Hi. apply elem_of_seqZ. destruct (Hrange i Hi). lia.
Qed.

Lemma eventsMap_size_NoDup evs :
  size (eventsMap evs) = length evs ↔ NoDup (ev_name <$> evs).
Proof.
  destruct (eventsMap_indices evs) as [Hnd Hrange]. split.
  - intros Hsize.
    assert ((map_to_list (eventsMap evs)).*2 ≡ₚ seqZ 0 (len evs)) as Hperm.
    { apply submseteq_length_Permutation.
      - apply NoDup_submseteq; [done |].
        intros i Hi. apply elem_of_seqZ. destruct (Hrange i Hi). lia.
      - rewrite length_fmap, length_map_to_list, length_seqZ.
        unfold len. lia. }
    assert (∀ i j x, (i < j)%nat → (ev_name <$> evs) !! i = Some x →
                     (ev_name <$> evs) !! j = Some x → False) as Hlt.
    { intros i j x Hij Hi Hj. rewrite list_lookup_fmap in Hi, Hj.
      destruct (evs !! i) as [ev |] eqn:Hev; [| done].
      destruct (evs !! j) as [ev' |] eqn:Hev'; [| done].
      simpl in Hi, Hj. injection Hi as <-. injection Hj as Hn.
      pose proof (lookup_lt_Some _ _ _ Hev) as Hlen.
      assert (Z.of_nat i ∈ (map_to_list (eventsMap evs)).*2) as Hin.
      { rewrite Hperm. apply elem_of_seqZ. unfold len. lia. }
      destruct (Hrange _ Hin) as (_ & ev0 & Hev0 & Hlast).
      rewrite at_lookup, Nat2Z.id, Hev in Hev0 by lia. injection Hev0 as <-.
      apply (Hlast (Z.of_nat j) ev'); [lia | | done].
      by rewrite at_lookup, Nat2Z.id by lia. }
    apply NoDup_alt. intros i j x Hi Hj.
    destruct (Nat.lt_trichotomy i j) as [Hij | [Hij | Hij]]; [| done |].
    + by destruct (Hlt i j x).
    + by destruct (Hlt j i x).
  - intros Hnames. apply Nat.le_antisymm; [apply eventsMap_size_le |].
    rewrite <- length_map_to_list, <- (length_fmap snd).
    replace (length evs) with (length (seqZ 0 (len evs)))
      by (rewrite length_seqZ; unfold len; lia).
    apply submseteq_length, NoDup_submseteq; [apply NoDup_seqZ |].
    intros i Hi. apply elem_of_seqZ in Hi.
    destruct (evs !! Z.to_nat i) as [ev |] eqn:Hev.
    2: { apply lookup_ge_None in Hev. unfold len in Hi. lia. }
    apply list_elem_of_fmap. exists (ev_name ev, i). split; [done |].
    apply elem_of_map_to_list, eventsMap_last. exists ev.
    split_and!; [by rewrite at_lookup by lia | done |].
    intros j ev' Hj Hev' Hn.
    pose proof (at_Some_range _ _ _ Hev') as Hjr.
    rewrite at_lookup in Hev' by lia.
    assert (Z.to_nat j = Z.to_nat i); [| lia].
    apply (proj1 (NoDup_alt _) Hnames _ _ (ev_name ev));
      rewrite list_lookup_fmap; [by rewrite Hev', <- Hn | by rewrite Hev].
Qed.

(** X22. [Events] on a built machine, whatever order the dictionary is
    ranged over: when the declared event names are pairwise distinct it
    returns them in declaration order; when two events share a name it
    panics with an index out of range, since the dictionary then has fewer
    entries than its largest index. *)
Theorem X22_Events_names_or_panic
    (b : Builder) (m : Machine) (r : Report) (order : list (string * Z)) :
  Build b = Built m r →
  order ≡ₚ map_to_list (m_events m) →
  (NoDup (map ev_name (events b)) →
   EventsIn m order = Some (map ev_name (events b)))
  ∧ (¬ NoDup (map ev_name (events b)) → EventsIn m order = None).
Proof.
  intros HB Horder. destruct (Build_Built _ _ _ HB) as (_ & _ & Hm & _).
  unfold EventsIn. rewrite Hm in *. rewrite !map_fmap.
  destruct (eventsMap_indices (events b)) as [Hnd Hrange].
  split.
  - intros Hnames.
    pose proof (proj2 (eventsMap_size_NoDup _) Hnames) as Hsize.
    destruct (writeNames_in_range order
                (replicate (size (eventsMap (events b))) ""))
      as (names & -> & Hlen & Hset & _).
    + by rewrite Horder.
    + intros nm i Hin. unfold len. rewrite length_replicate, Hsize.
      assert (i ∈ (map_to_list (eventsMap (events b))).*2) as Hi.
      { rewrite <- Horder. apply list_elem_of_fmap. by exists (nm, i). }
      by destruct (Hrange i Hi).
    + f_equal. rewrite length_replicate, Hsize in Hlen.
      apply list_eq. intros k. rewrite list_lookup_fmap.
      destruct (events b !! k) as [ev |] eqn:Hev; simpl.
      * replace k with (Z.to_nat (Z.of_nat k)) by lia. apply Hset.
        rewrite Horder. apply elem_of_map_to_list, eventsMap_last.
        exists ev. split_and!; [by rewrite at_lookup, Nat2Z.id by lia | done |].
        intros j ev' Hj Hev' Hn.
        pose proof (at_Some_range _ _ _ Hev') as Hjr.
        rewrite at_lookup in Hev' by lia.
        assert (Z.to_nat j = k); [| lia].
        apply (proj1 (NoDup_alt _) Hnames _ _ (ev_name ev));
          rewrite list_lookup_fmap; [by rewrite Hev', <- Hn | by rewrite Hev].
      * apply lookup_ge_None. apply lookup_ge_None in Hev. lia.
  - intros Hdup.
    assert (size (eventsMap (events b)) < length (events b))%nat as Hsize.
    { pose proof (eventsMap_size_le (events b)).
      destruct (decide (size (eventsMap (events b)) = length (events b)))
        as [Heq |]; [| lia].
      by apply eventsMap_size_NoDup in Heq. }
    destruct (events b !! (length (events b) - 1)%nat) as [ev |] eqn:Hev.
    2: { apply lookup_ge_None in Hev. lia. }
    apply (writeNames_out_of_range _ _ (ev_name ev) (len (events b) - 1)).
    + rewrite Horder. apply elem_of_map_to_list, eventsMap_last.
      exists ev. split_and!; [| done |].
      * rewrite at_lookup by (unfold len; lia).
        by replace (Z.to_nat (len (events b) - 1))
          with (length (events b) - 1)%nat by (unfold len; lia).
      * intros j ev' Hj Hev' _. apply at_Some_range in Hev'. lia.
    + unfold len. rewrite length_replicate. lia.
Qed.

Lemma X22_witness :
  Events (machineOf counterB) = Some ["inc_a"; "inc_b"]
  ∧ Events (machineOf twinB) = None.
Proof.
  split.
  - destruct (X22_Events_names_or_panic counterB (machineOf counterB)
                (reportOf counterB)
                (map_to_list (m_events (machineOf counterB))))
      as [Hdistinct _].
    + vm_compute. reflexivity.
    + reflexivity.
    + apply Hdistinct. vm_compute. repeat constructor;
        rewrite ?elem_of_cons, ?elem_of_nil; intuition discriminate.
  - destruct (X22_Events_names_or_panic twinB (machineOf twinB)
                (reportOf twinB)
                (map_to_list (m_events (machineOf twinB))))
      as [_ Hshared].
    + vm_compute. reflexivity.
    + reflexivity.
    + apply Hshared. intros Hnd. vm_compute in Hnd.
      apply NoDup_cons in Hnd as [Hnd _]. apply Hnd. left.
Defined.
